(** * GroupRide relay: the group registry and its four socket handlers

    A shallow embedding of the Socket.IO server of the Group Tracker
    (the [join_group], [location_update], [leave_group] and [disconnect]
    handlers together with the helpers [normalizeGroup] and [sanitizeGroup]),
    and the properties of the group presence service proved about it.

    JavaScript objects used as dictionaries are finite maps from property
    names to values; numbers are binary64 floats; a handler is a function
    from the state of the process and the inbound event to the new state and
    the list of messages it emits, in the order of the [emit] calls. The
    built-in functions of [Object.prototype], which a [members] object can
    come to hold, are shared by all groups and live in a store of their
    own. *)

From Stdlib Require Import PrimFloat SpecFloat FloatOps.
From Stdlib Require Import ZArith Ascii String DecimalString.
From stdpp Require Import gmap strings list fin_maps sorting.

Local Open Scope string_scope.
Local Set Warnings "-register-all".

(** ** Values carried by events *)

(** What a Socket.IO client can put in an event argument: the JSON values,
    and [undefined] for an argument or a property that is not there. Binary
    attachments are not represented. Strings are sequences of bytes (UTF-8). *)
Inductive value :=
| VUndefined
| VNull
| VBool (b : bool)
| VNumber (x : float)
| VString (s : string)
| VArray (items : list value)
| VObject (props : list (string * value)).

(** Own property of an object literal that came off the wire. *)
Fixpoint assoc (k : string) (props : list (string * value)) : option value :=
  match props with
  | [] => None
  | (k', v) :: rest => if String.eqb k k' then Some v else assoc k rest
  end.

(** [!v] is false for these and no others. *)
Definition truthy (v : value) : bool :=
  match v with
  | VUndefined | VNull => false
  | VBool b => b
  | VNumber x => negb (PrimFloat.is_nan x || PrimFloat.eqb x 0)
  | VString s => negb (String.eqb s "")
  | VArray _ | VObject _ => true
  end.

(** [a || b] *)
Definition js_or (a b : value) : value := if truthy a then a else b.

(** [typeof v === 'number'] *)
Definition is_number (v : value) : bool :=
  match v with VNumber _ => true | _ => false end.

(** [v === s] for a string [s]: strict equality never coerces. *)
Definition strict_eq_string (v : value) (s : string) : bool :=
  match v with VString s' => String.eqb s' s | _ => false end.

(** [Number.isNaN] *)
Definition Number_isNaN (x : float) : bool := PrimFloat.is_nan x.

(** [Number.isFinite], which the handlers do not call; the specification
    speaks of finite coordinates. *)
Definition Number_isFinite (x : float) : bool :=
  negb (PrimFloat.is_nan x || PrimFloat.is_infinity x).

(** The four primitives of the language runtime that the handlers reach
    through [String(v)], [s.trim()], [s.toUpperCase()] and [Number(v)].
    The development is parametric in them: nothing proved below depends on
    what they compute. An instance that follows ECMAScript on ASCII text is
    given further down and used to run the handlers on examples. *)
Class Builtins := {
  String_trim : string -> string;
  String_toUpperCase : string -> string;
  Number_toString : float -> string;
  StringToNumber : string -> float;
}.

Section Coercions.
Context `{rt : Builtins}.

(** [Array.prototype.join(',')] over already converted elements. *)
Fixpoint join_comma (parts : list string) : string :=
  match parts with
  | [] => ""
  | [p] => p
  | p :: rest => p ++ "," ++ join_comma rest
  end.

(** [String(v)]. [None] is a thrown [TypeError]: an object that carries an
    own property named [toString] shadows the inherited method with
    something that is not callable, and [valueOf] gives back the object. *)
Fixpoint ToString (v : value) : option string :=
  match v with
  | VUndefined => Some "undefined"
  | VNull => Some "null"
  | VBool true => Some "true"
  | VBool false => Some "false"
  | VNumber x => Some (Number_toString x)
  | VString s => Some s
  | VArray items =>
      let fix each (l : list value) : option (list string) :=
        match l with
        | [] => Some []
        | x :: rest =>
            match (match x with
                   | VUndefined | VNull => Some ""
                   | _ => ToString x
                   end), each rest with
            | Some s, Some ss => Some (s :: ss)
            | _, _ => None
            end
        end in
      match each items with
      | Some parts => Some (join_comma parts)
      | None => None
      end
  | VObject props =>
      match assoc "toString" props with
      | Some _ => None
      | None => Some "[object Object]"
      end
  end.

(** [Number(v)]; objects and arrays go through their string form. *)
Definition ToNumber (v : value) : option float :=
  match v with
  | VUndefined => Some PrimFloat.nan
  | VNull => Some 0%float
  | VBool true => Some 1%float
  | VBool false => Some 0%float
  | VNumber x => Some x
  | VString s => Some (StringToNumber s)
  | VArray _ | VObject _ =>
      match ToString v with
      | Some s => Some (StringToNumber s)
      | None => None
      end
  end.

(** [payload.k] for the property names the handlers read ([group],
    [userId], [name], [lat], [lon], [sport], [timestamp]), none of which
    is found on a prototype. The handlers declare [(payload = {})], so a
    missing argument reads as an empty object; reading a property of
    [null] throws. *)
Definition field (payload : value) (k : string) : option value :=
  match payload with
  | VNull => None
  | VObject props => Some (default VUndefined (assoc k props))
  | _ => Some VUndefined
  end.

(** <<
    function normalizeGroup(group) {
      if (!group) return '';
      return String(group).trim().toUpperCase();
    }
    >> *)
Definition normalizeGroup (group : value) : option string :=
  if negb (truthy group) then Some ""
  else match ToString group with
       | Some s => Some (String_toUpperCase (String_trim s))
       | None => None
       end.

(** [String(payload.userId || '').trim()] *)
Definition normalizeUserId (userId : value) : option string :=
  match ToString (js_or userId (VString "")) with
  | Some s => Some (String_trim s)
  | None => None
  end.

(** [typeof v === 'number' ? v : Number(v)] *)
Definition coordinate (v : value) : option float :=
  if is_number v then match v with VNumber x => Some x | _ => None end
  else ToNumber v.

End Coercions.

(** ** The registry *)

(** A member record is the object built by [{ userId }] and filled in by
    the handlers: a finite map from property names ([userId], [name], [lat],
    [lon], [sport], [updatedAt], [socketId]) to values. A property that was
    never assigned, or was removed by [delete], is not in the map. *)
Abbreviation member := (gmap string value).

(** [groups[code].members]: user id to member record. *)
Abbreviation members := (gmap string (gmap string value)).

(** [groups], created by [Object.create(null)]: group code to group. A group
    object has the single property [members] and is identified with it. *)
Abbreviation registry := (gmap string (gmap string (gmap string value))).

(** The state of the process.

    [groups] holds the member records. A record is referenced from the one
    [members] object it was made for, so it is kept there by value.

    A [members] object is written [{}] and inherits from [Object.prototype].
    Under an inherited name it can come to hold, as a property of its own,
    the built-in function of that name (see [join_accepted]). Such a
    function is one object for the whole process: [functions] has the
    properties that the handlers have put on it, under the name it has on
    [Object.prototype], and [adopted] has, for each group, the names under
    which its [members] object holds the function.

    [order] lists the group codes in the order in which the groups were
    created, and [rooms] are the rooms of the Socket.IO adapter (room name
    to the ids of the sockets that joined it). *)
Record state := {
  groups : registry;
  adopted : gmap string (gset string);
  functions : gmap string (gmap string value);
  order : list string;
  rooms : gmap string (gset string);
}.

Definition initial : state :=
  {| groups := ∅; adopted := ∅; functions := ∅; order := []; rooms := ∅ |}.

(** [m.k] for the properties of a member record: the value of the own
    property, [undefined] otherwise ([Object.prototype] has none of these
    names). *)
Definition prop (m : member) (k : string) : value :=
  default VUndefined (m !! k).

(** The properties every object literal inherits from [Object.prototype].
    [groups] has no prototype; a [members] object, written [{}], has. *)
Definition Object_prototype_keys : list string :=
  [ "constructor"; "__defineGetter__"; "__defineSetter__"; "hasOwnProperty";
    "__lookupGetter__"; "__lookupSetter__"; "isPrototypeOf";
    "propertyIsEnumerable"; "toString"; "valueOf"; "__proto__";
    "toLocaleString" ].

Definition inherited (k : string) : bool :=
  bool_decide (k ∈ Object_prototype_keys).

(** The inherited properties that are functions: all of them but the
    accessor [__proto__], which gives [Object.prototype] itself. *)
Definition inherited_function (k : string) : bool :=
  inherited k && negb (String.eqb k "__proto__").

(** The [name] of the function found under [k]; [constructor] is [Object]. *)
Definition function_name (k : string) : string :=
  if String.eqb k "constructor" then "Object" else k.

(** The function found under [k], as the handlers read it: the properties
    they have put on it, and its [name], which is not writable (the module
    is not in strict mode, so the assignment [f.name = v] does nothing). Of
    the other names the handlers read, none is found on a function or on
    its prototypes. *)
Definition function_object (fs : gmap string member) (k : string) : member :=
  <["name" := VString (function_name k)]> (default ∅ (fs !! k)).

(** The functions that [groups[group].members] holds as properties of its
    own. *)
Definition held (st : state) (group : string) : gset string :=
  match groups st !! group with
  | Some _ =>
      filter (λ k, inherited_function k = true)
        (default ∅ (adopted st !! group))
  | None => ∅
  end.

(** What [groups[group].members[userId]] evaluates to, [ms] being the
    member records of the group. A function that the object holds under
    [userId] is the one it inherits under that name. *)
Inductive slot :=
| Own (m : member)   (** a member record stored under that key *)
| Inherited          (** no record: a built-in found under that name *)
| Absent.            (** [undefined] *)

Definition lookup_member (ms : members) (userId : string) : slot :=
  match ms !! userId with
  | Some m => Own m
  | None => if inherited userId then Inherited else Absent
  end.

(** ** Messages *)

(** The payload of [group_locations] is [{ members: g.members }]: the
    member records as they are stored. A property of [members] that holds a
    function is left out by the encoder of the message, as [JSON.stringify]
    does, and is not part of the payload. *)
Inductive event :=
| Ev_error (message : string)
| Ev_group_state (members_ : members)
| Ev_member_joined (userId : string) (name : value)
| Ev_group_locations (members_ : members).

(** [socket.emit(...)] reaches the one socket; [io.to(room).emit(...)]
    reaches the sockets that are in the room when the call is made. *)
Inductive emission :=
| ToSocket (socketId : string) (ev : event)
| ToRoom (room : string) (recipients : gset string) (ev : event).

Definition subscribers (rs : gmap string (gset string)) (room : string)
  : gset string :=
  default ∅ (rs !! room).

(** [socket.join(room)] *)
Definition socket_join (socketId room : string) (rs : gmap string (gset string))
  : gmap string (gset string) :=
  <[room := {[socketId]} ∪ subscribers rs room]> rs.

(** [socket.leave(room)]: the adapter drops a room that becomes empty. *)
Definition socket_leave (socketId room : string) (rs : gmap string (gset string))
  : gmap string (gset string) :=
  match rs !! room with
  | None => rs
  | Some ids =>
      let ids' := ids ∖ {[socketId]} in
      if decide (ids' = ∅) then delete room rs else <[room := ids']> rs
  end.

(** A closing socket has left every room before its [disconnect] listeners
    run. *)
Definition socket_leave_all (socketId : string) (rs : gmap string (gset string))
  : gmap string (gset string) :=
  filter (λ kv, kv.2 ≠ ∅) ((λ ids, ids ∖ {[socketId]}) <$> rs).

(** What a handler did. [userId] is looked up in a plain object, so a
    [userId] that names an inherited property and is not a member makes
    [join_group] and [location_update] take the built-in for the member
    record and write the fields onto it. For [__proto__] the built-in is
    [Object.prototype] itself: every object of the process is changed, and
    the run is not followed further. *)
Inductive outcome :=
| Done (st : state) (out : list emission)
| WritesObjectPrototype (groups_ : registry).
    (** [userId] is [__proto__]: the record is [Object.prototype]; the
        assignment to [members[userId]] creates no property. [groups_] is the
        registry when the handler returns. *)

(** <<
    function sanitizeGroup(groupObj) {
      const out = {};
      if (!groupObj || !groupObj.members) return { members: out };
      for (const [uid, m] of Object.entries(groupObj.members)) {
        out[uid] = { userId: m.userId, name: m.name, lat: m.lat, lon: m.lon,
                     sport: m.sport, updatedAt: m.updatedAt };
      }
      return { members: out };
    }
    >> *)
Definition sanitizeMember (m : member) : member :=
  <["userId" := prop m "userId"]>
  (<["name" := prop m "name"]>
  (<["lat" := prop m "lat"]>
  (<["lon" := prop m "lon"]>
  (<["sport" := prop m "sport"]>
  (<["updatedAt" := prop m "updatedAt"]> ∅))))).

(** [out[uid] = v] on the object literal [out]: assigning an object to
    [__proto__] sets the prototype and adds no property. *)
Definition assign (uid : string) (v : member) (out : members) : members :=
  if String.eqb uid "__proto__" then out else <[uid := v]> out.

Definition sanitizeGroup (groupObj : option members) : members :=
  match groupObj with
  | None => ∅
  | Some ms => map_fold (λ uid m out, assign uid (sanitizeMember m) out) ∅ ms
  end.

(** The functions that [groups[group].members] holds, each with the
    properties it has. *)
Definition held_objects (st : state) (group : string) : members :=
  set_to_map (λ k, (k, function_object (functions st) k)) (held st group).

(** [groups[group]] as [sanitizeGroup] reads it: the own properties of its
    [members], records and functions, each with the properties of the
    object. *)
Definition group_view (st : state) (group : string) : option members :=
  ms ← groups st !! group; Some (ms ∪ held_objects st group).

(** ** The order of the groups *)

(** An array index: the decimal form, without leading zeros, of an integer
    below [2^32 - 1]. *)
Definition decimal_digit (c : ascii) : option N :=
  let n := N_of_ascii c in
  if ((48 <=? n) && (n <=? 57))%N then Some (n - 48)%N else None.

Fixpoint decimal_value (s : string) (acc : N) : option N :=
  match s with
  | EmptyString => Some acc
  | String c rest =>
      match decimal_digit c with
      | Some v => decimal_value rest (10 * acc + v)%N
      | None => None
      end
  end.

Definition array_index (k : string) : option N :=
  match k with
  | EmptyString => None
  | String c rest =>
      if Ascii.eqb c "0"%char && negb (String.eqb rest "") then None
      else match decimal_value k 0 with
           | Some n => if (n <? 4294967295)%N then Some n else None
           | None => None
           end
  end.

(** Where [k] is in [keys]; the length of [keys] if it is not there. *)
Fixpoint position (keys : list string) (k : string) : nat :=
  match keys with
  | [] => 0
  | k' :: rest => if String.eqb k' k then 0 else S (position rest k)
  end.

(** The order of the own property keys of an object: array indices in
    ascending order, then the other names in the order of their creation,
    which for [groups] is [created]. *)
Definition key_leb (created : list string) (a b : string) : bool :=
  match array_index a, array_index b with
  | Some m, Some n => (m <=? n)%N
  | Some _, None => true
  | None, Some _ => false
  | None, None => (position created a <=? position created b)%nat
  end.

Definition entry_before (created : list string) (a b : string * members)
  : Prop :=
  key_leb created a.1 b.1 = true.

#[global] Instance entry_before_dec (created : list string)
    (a b : string * members) : Decision (entry_before created a b) :=
  decide (key_leb created a.1 b.1 = true).

(** [Object.entries(groups)] *)
Definition Object_entries (gs : registry) (created : list string)
  : list (string * members) :=
  merge_sort (entry_before created) (map_to_list gs).

(** ** Handlers *)

Section Handlers.
Context `{rt : Builtins}.

(** [if (!groups[group]) groups[group] = { members: {} };] *)
Definition ensure_group (group : string) (gs : registry) : registry :=
  match gs !! group with
  | Some _ => gs
  | None => <[group := ∅]> gs
  end.

Definition is_new (group : string) (st : state) : bool :=
  bool_decide (groups st !! group = None).

(** The state after that statement: a group that is created is the last in
    the order of creation, and its [members] object has no property. *)
Definition ensured (group : string) (st : state) : state :=
  {| groups := ensure_group group (groups st);
     adopted := if is_new group st then delete group (adopted st)
                else adopted st;
     functions := functions st;
     order := if is_new group st then (order st ++ [group])%list
              else order st;
     rooms := rooms st |}.

Definition members_of (gs : registry) (group : string) : members :=
  default ∅ (gs !! group).

(** [groups[group].members[userId] = f] for the function [f] found under
    [userId]: the object gets a property of its own that holds [f]. *)
Definition adopt (group userId : string) (held_ : gmap string (gset string))
  : gmap string (gset string) :=
  <[group := {[userId]} ∪ default ∅ (held_ !! group)]> held_.

(** The part of [join_group] after validation. When [members[userId]] is a
    function, the assignment of [name] does nothing and [socketId] is put on
    the function. *)
Definition join_accepted (st : state) (socketId group userId : string)
    (name : value) : outcome :=
  let st0 := ensured group st in
  let ms := members_of (groups st0) group in
  let rs := socket_join socketId group (rooms st0) in
  let answer (st' : state) :=
    Done st'
         [ ToSocket socketId
             (Ev_group_state (sanitizeGroup (group_view st' group)));
           ToRoom group (subscribers rs group) (Ev_member_joined userId name) ]
  in
  let enrol (m : member) :=
    let m := <["name" := name]> m in
    let m := <["socketId" := VString socketId]> m in
    let ms := <[userId := m]> ms in
    answer {| groups := <[group := ms]> (groups st0);
              adopted := adopted st0;
              functions := functions st0;
              order := order st0;
              rooms := rs |}
  in
  match lookup_member ms userId with
  | Own m => enrol m
  | Absent => enrol {[ "userId" := VString userId ]}
  | Inherited =>
      if String.eqb userId "__proto__" then WritesObjectPrototype (groups st0)
      else
        let f := default ∅ (functions st0 !! userId) in
        let f := <["socketId" := VString socketId]> f in
        answer {| groups := groups st0;
                  adopted := adopt group userId (adopted st0);
                  functions := <[userId := f]> (functions st0);
                  order := order st0;
                  rooms := rs |}
  end.

(** <<
    socket.on('join_group', (payload = {}) => {
      try {
        const group = normalizeGroup(payload.group);
        const userId = String(payload.userId || '').trim();
        const name = payload.name || 'Anonymous';
        if (!group || !userId) {
          socket.emit('error', { message: 'group and userId are required to join' });
          return;
        }
        if (!groups[group]) groups[group] = { members: {} };
        groups[group].members[userId] = groups[group].members[userId] || { userId };
        groups[group].members[userId].name = name;
        groups[group].members[userId].socketId = socket.id;
        socket.join(group);
        socket.emit('group_state', sanitizeGroup(groups[group]));
        io.to(group).emit('member_joined', { userId, name });
      } catch (err) { console.error('join_group error', err); }
    });
    >> *)
Definition join_group (st : state) (socketId : string) (payload : value)
  : outcome :=
  default (Done st []) (
    g ← field payload "group";
    group ← normalizeGroup g;
    u ← field payload "userId";
    userId ← normalizeUserId u;
    n ← field payload "name";
    let name := js_or n (VString "Anonymous") in
    Some (
      if String.eqb group "" || String.eqb userId "" then
        Done st [ ToSocket socketId
                    (Ev_error "group and userId are required to join") ]
      else join_accepted st socketId group userId name)).

(** The part of [location_update] after validation. When [member] is a
    function, the five properties are put on the function. *)
Definition location_accepted (st : state) (socketId group userId : string)
    (lat lon : float) (sport timestamp : value) : outcome :=
  let st0 := ensured group st in
  let ms := members_of (groups st0) group in
  let write (m : member) :=
    let m := <["lat" := VNumber lat]> m in
    let m := <["lon" := VNumber lon]> m in
    let m := <["sport" := sport]> m in
    let m := <["updatedAt" := timestamp]> m in
    <["socketId" := VString socketId]> m in
  let record (m : member) :=
    let ms := <[userId := write m]> ms in
    Done {| groups := <[group := ms]> (groups st0);
            adopted := adopted st0;
            functions := functions st0;
            order := order st0;
            rooms := rooms st0 |}
         [ ToRoom group (subscribers (rooms st0) group) (Ev_group_locations ms) ]
  in
  match lookup_member ms userId with
  | Own m => record m
  | Absent => record {[ "userId" := VString userId ]}
  | Inherited =>
      if String.eqb userId "__proto__" then WritesObjectPrototype (groups st0)
      else
        let f := write (default ∅ (functions st0 !! userId)) in
        Done {| groups := groups st0;
                adopted := adopt group userId (adopted st0);
                functions := <[userId := f]> (functions st0);
                order := order st0;
                rooms := rooms st0 |}
             [ ToRoom group (subscribers (rooms st0) group)
                 (Ev_group_locations ms) ]
  end.

(** <<
    socket.on('location_update', (payload = {}) => {
      try {
        const group = normalizeGroup(payload.group);
        const userId = String(payload.userId || '').trim();
        const lat = typeof payload.lat === 'number' ? payload.lat : Number(payload.lat);
        const lon = typeof payload.lon === 'number' ? payload.lon : Number(payload.lon);
        const sport = payload.sport || 'unknown';
        const timestamp = payload.timestamp || Date.now();
        if (!group || !userId || Number.isNaN(lat) || Number.isNaN(lon)) {
          return;
        }
        if (!groups[group]) { groups[group] = { members: {} }; }
        const member = (groups[group].members[userId] =
                          groups[group].members[userId] || { userId });
        member.lat = lat; member.lon = lon; member.sport = sport;
        member.updatedAt = timestamp; member.socketId = socket.id;
        io.to(group).emit('group_locations', { members: groups[group].members });
      } catch (err) { console.error('location_update error', err); }
    });
    >>
    [now] is what [Date.now()] returns when the event is handled. *)
Definition location_update (st : state) (socketId : string) (now : float)
    (payload : value) : outcome :=
  default (Done st []) (
    g ← field payload "group";
    group ← normalizeGroup g;
    u ← field payload "userId";
    userId ← normalizeUserId u;
    la ← field payload "lat";
    lat ← coordinate la;
    lo ← field payload "lon";
    lon ← coordinate lo;
    sp ← field payload "sport";
    let sport := js_or sp (VString "unknown") in
    ts ← field payload "timestamp";
    let timestamp := js_or ts (VNumber now) in
    Some (
      if String.eqb group "" || String.eqb userId ""
         || Number_isNaN lat || Number_isNaN lon then Done st []
      else location_accepted st socketId group userId lat lon sport timestamp)).

(** <<
    socket.on('leave_group', (payload = {}) => {
      try {
        const group = normalizeGroup(payload.group);
        const userId = String(payload.userId || '').trim();
        if (!group || !userId) return;
        if (groups[group] && groups[group].members[userId]) {
          delete groups[group].members[userId];
          io.to(group).emit('group_locations', { members: groups[group].members });
        }
        socket.leave(group);
      } catch (err) { console.error('leave_group error', err); }
    });
    >>
    The test [groups[group].members[userId]] is also passed by a [userId]
    that names an inherited property; [delete] then removes the property of
    that name that the object has of its own, if it has one: the record, or
    the reference to the function, which stays as it is. *)
Definition leave_accepted (st : state) (socketId group userId : string)
  : state * list emission :=
  let rs := socket_leave socketId group (rooms st) in
  let unsubscribed :=
    {| groups := groups st; adopted := adopted st; functions := functions st;
       order := order st; rooms := rs |} in
  match groups st !! group with
  | None => (unsubscribed, [])
  | Some ms =>
      match lookup_member ms userId with
      | Absent => (unsubscribed, [])
      | Own _ | Inherited =>
          let ms := delete userId ms in
          ({| groups := <[group := ms]> (groups st);
              adopted := alter (λ names, names ∖ {[userId]}) group (adopted st);
              functions := functions st;
              order := order st;
              rooms := rs |},
           [ ToRoom group (subscribers (rooms st) group)
               (Ev_group_locations ms) ])
      end
  end.

Definition leave_group (st : state) (socketId : string) (payload : value)
  : state * list emission :=
  default (st, []) (
    g ← field payload "group";
    group ← normalizeGroup g;
    u ← field payload "userId";
    userId ← normalizeUserId u;
    Some (
      if String.eqb group "" || String.eqb userId "" then (st, [])
      else leave_accepted st socketId group userId)).

(** The inner loop of [disconnect] over one group:
    <<
    let changed = false;
    for (const [uid, m] of Object.entries(g.members)) {
      if (m.socketId === socket.id) { delete m.socketId; changed = true; }
    }
    >>
    on the entries that are member records. The records are updated in
    place, so the fold starts from the members as they are. *)
Definition mark_offline (socketId : string) (ms : members) : members * bool :=
  map_fold
    (λ uid m (acc : members * bool),
       if strict_eq_string (prop m "socketId") socketId
       then (<[uid := delete "socketId" m]> acc.1, true)
       else acc)
    (ms, false) ms.

(** The same loop on the entries that are functions, the names of which are
    [names]: [delete m.socketId] changes the function itself, for every
    group that holds it. *)
Definition mark_functions_offline (socketId : string) (names : gset string)
    (fs : gmap string member) : gmap string member * bool :=
  set_fold
    (λ k (acc : gmap string member * bool),
       if strict_eq_string (prop (function_object acc.1 k) "socketId") socketId
       then (<[k := delete "socketId" (default ∅ (acc.1 !! k))]> acc.1, true)
       else acc)
    (fs, false) names.

(** <<
    socket.on('disconnect', () => {
      try {
        for (const [groupName, g] of Object.entries(groups)) {
          let changed = false;
          ... inner loop ...
          if (changed) {
            io.to(groupName).emit('group_locations', { members: g.members });
          }
        }
      } catch (err) { console.error('disconnect handler error', err); }
    });
    >>
    The groups are visited in the order of [Object.entries], which is the
    order of the broadcasts. A function that several groups hold is one
    object: once the loop over one of them has removed its [socketId], the
    test fails in the others. *)
Definition sweep (st : state) (socketId : string)
    (rs : gmap string (gset string))
    (acc : registry * gmap string member * list emission)
    (entry : string * members) : registry * gmap string member * list emission :=
  let '(gs, fs, out) := acc in
  let '(groupName, g) := entry in
  let '(ms, changed) := mark_offline socketId g in
  let '(fs, changed') :=
    mark_functions_offline socketId (held st groupName) fs in
  (<[groupName := ms]> gs, fs,
   if changed || changed'
   then (out ++ [ ToRoom groupName (subscribers rs groupName)
                    (Ev_group_locations ms) ])%list
   else out).

Definition disconnect (st : state) (socketId : string)
  : state * list emission :=
  let rs := socket_leave_all socketId (rooms st) in
  let '(gs, fs, out) :=
    foldl (sweep st socketId rs) (groups st, functions st, [])
      (Object_entries (groups st) (order st)) in
  ({| groups := gs; adopted := adopted st; functions := fs;
      order := order st; rooms := rs |}, out).

End Handlers.

(** ** The runtime primitives on ASCII text *)

(** An instance of [Builtins] that follows ECMAScript on strings of ASCII
    characters: [trim] strips the six ASCII white space and line terminator
    characters, [toUpperCase] maps [a]-[z], [Number] reads a
    StringNumericLiteral and rounds its value to the nearest binary64 (ties
    to even), and [String] prints the shortest decimal that reads back as
    the same number. The handlers are run with it on the examples. *)
Module Ecma.

Definition code (c : ascii) : Z := Z.of_N (N_of_ascii c).

Definition is_space (c : ascii) : bool :=
  let n := code c in
  ((9 <=? n) && (n <=? 13) || (n =? 32))%Z.

Fixpoint drop_spaces (s : string) : string :=
  match s with
  | String c rest => if is_space c then drop_spaces rest else s
  | EmptyString => EmptyString
  end.

Definition reverse (s : string) : string :=
  string_of_list_ascii (rev (list_ascii_of_string s)).

Definition trim (s : string) : string :=
  reverse (drop_spaces (reverse (drop_spaces s))).

Definition upper (c : ascii) : ascii :=
  let n := code c in
  if ((97 <=? n) && (n <=? 122))%Z then ascii_of_N (Z.to_N (n - 32)) else c.

Fixpoint toUpperCase (s : string) : string :=
  match s with
  | String c rest => String (upper c) (toUpperCase rest)
  | EmptyString => EmptyString
  end.

(** *** Decimal to binary64 *)

(** The binary64 nearest to [m * 10 ^ e], for [m >= 0]. A quotient is
    computed with more than 64 bits and a sticky bit, so that the single
    rounding of [binary_normalize] is the rounding of the exact value. *)
Definition of_decimal (negative : bool) (m e : Z) : float :=
  let sign (x : Z) := if negative then (- x)%Z else x in
  if (m <=? 0)%Z then (if negative then (-0)%float else 0%float)
  else if (0 <=? e)%Z then
    if (400 <? e)%Z then (if negative then neg_infinity else infinity)
    else SF2Prim (binary_normalize 53 1024 (sign (m * 10 ^ e)%Z) 0 false)
  else
    let k := (- e)%Z in
    if (Z.log2 m / 3 + 1 - k <? -400)%Z
    then (if negative then (-0)%float else 0%float)
    else
      let d := (10 ^ k)%Z in
      let s := Z.max 0 (Z.log2 d + 66 - Z.log2 m) in
      let n := (m * 2 ^ s)%Z in
      let q := (n / d)%Z in
      let sticky := if (n mod d =? 0)%Z then 0%Z else 1%Z in
      SF2Prim (binary_normalize 53 1024 (sign (2 * q + sticky)%Z) (- s - 1) false).

Definition digit (base : Z) (c : ascii) : option Z :=
  let n := code c in
  let v := if ((48 <=? n) && (n <=? 57))%Z then (n - 48)%Z
           else if ((97 <=? n) && (n <=? 102))%Z then (n - 87)%Z
           else if ((65 <=? n) && (n <=? 70))%Z then (n - 55)%Z
           else 99%Z in
  if (v <? base)%Z then Some v else None.

(** Reads digits in [base]: the value, how many were read, and the rest. *)
Fixpoint digits (base : Z) (l : list ascii) (acc count : Z)
  : Z * Z * list ascii :=
  match l with
  | c :: rest =>
      match digit base c with
      | Some v => digits base rest (base * acc + v)%Z (count + 1)%Z
      | None => (acc, count, l)
      end
  | [] => (acc, count, [])
  end.

Definition is_char (c : ascii) (n : Z) : bool := (code c =? n)%Z.

(** ExponentPart, or nothing: the exponent, if the text is well formed. *)
Definition exponent_part (l : list ascii) : option Z :=
  match l with
  | [] => Some 0%Z
  | c :: rest =>
      if is_char c 101 || is_char c 69 then
        let '(negative, rest) :=
          match rest with
          | s :: rest' =>
              if is_char s 45 then (true, rest')
              else if is_char s 43 then (false, rest')
              else (false, rest)
          | [] => (false, rest)
          end in
        match digits 10 rest 0 0 with
        | (v, count, []) =>
            if (count =? 0)%Z then None
            else Some (if negative then (- v)%Z else v)
        | _ => None
        end
      else None
  end.

(** StrUnsignedDecimalLiteral *)
Definition unsigned_decimal (negative : bool) (l : list ascii) : float :=
  if String.eqb (string_of_list_ascii l) "Infinity"
  then (if negative then neg_infinity else infinity)
  else
    let '(ip, ic, rest) := digits 10 l 0 0 in
    let '(m, fc, rest) :=
      match rest with
      | c :: rest' =>
          if is_char c 46 then digits 10 rest' ip 0 else (ip, 0%Z, rest)
      | [] => (ip, 0%Z, rest)
      end in
    if (ic + fc =? 0)%Z then nan
    else match exponent_part rest with
         | Some e => of_decimal negative m (e - fc)
         | None => nan
         end.

(** NonDecimalIntegerLiteral after its two-character prefix. *)
Definition radix_literal (base : Z) (l : list ascii) : float :=
  match digits base l 0 0 with
  | (v, count, []) =>
      if (count =? 0)%Z then nan
      else SF2Prim (binary_normalize 53 1024 v 0 false)
  | _ => nan
  end.

Definition string_to_number (s : string) : float :=
  match list_ascii_of_string (trim s) with
  | [] => 0%float
  | c :: rest =>
      if is_char c 45 then unsigned_decimal true rest
      else if is_char c 43 then unsigned_decimal false rest
      else
        match rest with
        | p :: rest' =>
            if is_char c 48 && (is_char p 120 || is_char p 88)
            then radix_literal 16 rest'
            else if is_char c 48 && (is_char p 111 || is_char p 79)
            then radix_literal 8 rest'
            else if is_char c 48 && (is_char p 98 || is_char p 66)
            then radix_literal 2 rest'
            else unsigned_decimal false (c :: rest)
        | [] => unsigned_decimal false (c :: rest)
        end
  end.

(** *** Binary64 to decimal *)

Definition decimal (n : Z) : string :=
  NilZero.string_of_uint (N.to_uint (Z.to_N n)).

Fixpoint zeros (n : nat) : string :=
  match n with
  | O => ""
  | S n' => String "0" (zeros n')
  end.

Fixpoint strip_zeros (fuel : nat) (s : Z) : Z :=
  match fuel with
  | O => s
  | S fuel' => if (s mod 10 =? 0)%Z then strip_zeros fuel' (s / 10)%Z else s
  end.

(** The least [n] from [start] on with [num / den < 10 ^ n]. *)
Fixpoint magnitude (fuel : nat) (num den n : Z) : Z :=
  match fuel with
  | O => n
  | S fuel' =>
      let below :=
        if (0 <=? n)%Z then (num <? 10 ^ n * den)%Z
        else (num * 10 ^ (- n) <? den)%Z in
      if below then n else magnitude fuel' num den (n + 1)%Z
  end.

(** The digits [s] and the exponent [n] of Number::toString: the fewest
    digits [k] such that [s * 10 ^ (n - k)] reads back as [x], and among
    those the [s] nearest to [x]. [x = num / den > 0]. *)
Fixpoint shortest (fuel : nat) (x : float) (num den n0 k : Z) : Z * Z :=
  let j := (n0 - k)%Z in
  let a := if (j <? 0)%Z then (num * 10 ^ (- j))%Z else num in
  let b := if (j <? 0)%Z then den else (den * 10 ^ j)%Z in
  let lo := (a / b)%Z in
  let hi := (lo + 1)%Z in
  let r := (a mod b)%Z in
  match fuel with
  | O => (lo, j)
  | S fuel' =>
      let ok_lo := PrimFloat.eqb (of_decimal false lo j) x in
      let ok_hi := PrimFloat.eqb (of_decimal false hi j) x in
      if ok_lo && ok_hi then
        if (2 * r <? b)%Z then (lo, j)
        else if (b <? 2 * r)%Z then (hi, j)
        else if Z.even lo then (lo, j) else (hi, j)
      else if ok_lo then (lo, j)
      else if ok_hi then (hi, j)
      else shortest fuel' x num den n0 (k + 1)%Z
  end.

Definition layout (s n : Z) : string :=
  let ds := decimal s in
  let k := Z.of_nat (String.length ds) in
  if ((k <=? n) && (n <=? 21))%Z then ds ++ zeros (Z.to_nat (n - k))
  else if ((0 <? n) && (n <=? 21))%Z then
    substring 0 (Z.to_nat n) ds ++ "." ++
    substring (Z.to_nat n) (Z.to_nat (k - n)) ds
  else if ((-6 <? n) && (n <=? 0))%Z then
    "0." ++ zeros (Z.to_nat (- n)) ++ ds
  else
    let e := (n - 1)%Z in
    let tail := "e" ++ (if (e <? 0)%Z then "-" else "+") ++ decimal (Z.abs e) in
    if (k =? 1)%Z then ds ++ tail
    else substring 0 1 ds ++ "." ++ substring 1 (Z.to_nat (k - 1)) ds ++ tail.

Definition number_to_string (x : float) : string :=
  match Prim2SF x with
  | S754_nan => "NaN"
  | S754_zero _ => "0"
  | S754_infinity negative => if negative then "-Infinity" else "Infinity"
  | S754_finite negative m e =>
      let num := (Z.pos m * 2 ^ Z.max e 0)%Z in
      let den := (2 ^ Z.max (- e) 0)%Z in
      let est := ((Z.log2 num - Z.log2 den) * 30103 / 100000)%Z in
      let n0 := magnitude 6 num den (est - 1)%Z in
      let '(s, j) := shortest 17 (PrimFloat.abs x) num den n0 1 in
      let n := (j + Z.of_nat (String.length (decimal s)))%Z in
      (if negative then "-" else "") ++ layout (strip_zeros 400 s) n
  end.

#[export] Instance builtins : Builtins := {|
  String_trim := trim;
  String_toUpperCase := toUpperCase;
  Number_toString := number_to_string;
  StringToNumber := string_to_number;
|}.

End Ecma.

(** ** Reading an event *)

Section Readers.
Context `{rt : Builtins}.

(** The constants the handlers compute from the payload before they touch
    the registry. [None] is an exception, which the handler catches. *)
Definition group_of (payload : value) : option string :=
  g ← field payload "group"; normalizeGroup g.

Definition userId_of (payload : value) : option string :=
  u ← field payload "userId"; normalizeUserId u.

Definition lat_of (payload : value) : option float :=
  v ← field payload "lat"; coordinate v.

Definition lon_of (payload : value) : option float :=
  v ← field payload "lon"; coordinate v.

(** A coordinate the handler does not accept: its coercion threw, or gave
    NaN. *)
Definition unusable (coordinate_ : option float) : bool :=
  match coordinate_ with
  | Some x => Number_isNaN x
  | None => true
  end.

(** [payload.name || 'Anonymous'] *)
Definition name_of (payload : value) : value :=
  js_or (default VUndefined (field payload "name")) (VString "Anonymous").

(** [payload.sport || 'unknown'] *)
Definition sport_of (payload : value) : value :=
  js_or (default VUndefined (field payload "sport")) (VString "unknown").

(** The caller's [payload.timestamp]. *)
Definition supplied_timestamp (payload : value) : value :=
  default VUndefined (field payload "timestamp").

(** [payload.timestamp || Date.now()] *)
Definition timestamp_of (now : float) (payload : value) : value :=
  js_or (supplied_timestamp payload) (VNumber now).

End Readers.

(** ** Runs *)

(** What the connection listener hands to the handlers. *)
Inductive inbound :=
| In_join_group (socketId : string) (payload : value)
| In_location_update (socketId : string) (now : float) (payload : value)
| In_leave_group (socketId : string) (payload : value)
| In_disconnect (socketId : string).

Section Runs.
Context `{rt : Builtins}.

Definition step (st : state) (e : inbound) : outcome :=
  match e with
  | In_join_group sid p => join_group st sid p
  | In_location_update sid now p => location_update st sid now p
  | In_leave_group sid p => let '(st', out) := leave_group st sid p in Done st' out
  | In_disconnect sid => let '(st', out) := disconnect st sid in Done st' out
  end.

(** The state after a sequence of events, as long as no handler writes
    onto [Object.prototype]. *)
Fixpoint run (st : state) (es : list inbound) : option state :=
  match es with
  | [] => Some st
  | e :: rest =>
      match step st e with
      | Done st' _ => run st' rest
      | _ => None
      end
  end.

(** The states the process can be in. *)
Inductive reachable : state -> Prop :=
| reachable_initial : reachable initial
| reachable_step st e st' out :
    reachable st -> step st e = Done st' out -> reachable st'.

End Runs.

(** The state and the messages of a handler that did not write onto
    [Object.prototype]. *)
Definition state_of (o : outcome) : option state :=
  match o with Done st _ => Some st | _ => None end.

Definition emitted (o : outcome) : list emission :=
  match o with Done _ out => out | _ => [] end.

(** The member record stored for [userId] in [group]. *)
Definition plain_at (st : state) (group userId : string) : option member :=
  ms ← groups st !! group; ms !! userId.

(** The member stored for [userId] in [group]: what [members] holds under
    [userId] as a property of its own, a record or a function, with the
    properties of that object. *)
Definition member_at (st : state) (group userId : string) : option member :=
  ms ← group_view st group; ms !! userId.

(** [{ userId }] *)
Definition fresh_member (userId : string) : member :=
  {[ "userId" := VString userId ]}.

(** [groups[group].members[userId] || { userId }] for a [userId] that finds
    a record or nothing. *)
Definition existing_or_fresh (st : state) (group userId : string) : member :=
  default (fresh_member userId) (member_at st group userId).

(** The two assignments of [join_group] to the record. *)
Definition joined (socketId : string) (name : value) (m : member) : member :=
  <["socketId" := VString socketId]> (<["name" := name]> m).

(** The five assignments of [location_update] to the record. *)
Definition located (socketId : string) (lat lon : float)
    (sport timestamp : value) (m : member) : member :=
  <["socketId" := VString socketId]>
  (<["updatedAt" := timestamp]>
  (<["sport" := sport]>
  (<["lon" := VNumber lon]>
  (<["lat" := VNumber lat]> m)))).

(** [groups[group].members[userId] || { userId }]: the record found, the
    function found under an inherited name, or a fresh record. *)
Definition found_or_fresh (st : state) (group userId : string) : member :=
  match plain_at st group userId with
  | Some m => m
  | None =>
      if inherited userId then function_object (functions st) userId
      else fresh_member userId
  end.

(** What [join_group] leaves under [userId]: the record it finds, or a
    fresh one, with the name and the socket of the join; or the function it
    finds under that name, with the socket of the join and the name the
    function has. *)
Definition joined_member (st : state) (socketId group userId : string)
    (name : value) : member :=
  match plain_at st group userId with
  | Some m => joined socketId name m
  | None =>
      if inherited userId
      then <["socketId" := VString socketId]>
             (function_object (functions st) userId)
      else joined socketId name (fresh_member userId)
  end.

(** The registry with [m] stored for [userId] in [group]. *)
Definition put_member (gs : registry) (group userId : string) (m : member)
  : registry :=
  <[group := <[userId := m]> (default ∅ (gs !! group))]> gs.

(** A member is online on a socket when its record carries that socket's
    id. *)
Definition online_on (socketId : string) (m : member) : Prop :=
  m !! "socketId" = Some (VString socketId).

(** A group is affected by the closing of a socket when one of its members
    is online on it. *)
Definition affected (socketId : string) (ms : members) : Prop :=
  ∃ uid m, ms !! uid = Some m ∧ online_on socketId m.

(** [group_locations] broadcasts to one room among the emitted messages. *)
Definition is_locations_for (room : string) (e : emission) : bool :=
  match e with
  | ToRoom r _ (Ev_group_locations _) => String.eqb r room
  | _ => false
  end.

Definition broadcasts_for (room : string) (out : list emission) : nat :=
  length (filter (λ e, is_locations_for room e = true) out).

(** [disconnect] on one record. *)
Definition offline (socketId : string) (m : member) : member :=
  if strict_eq_string (prop m "socketId") socketId
  then delete "socketId" m else m.

(** [disconnect] on the records of one group. *)
Definition all_offline (socketId : string) (ms : members) : members :=
  offline socketId <$> ms.

(** The names of the functions that the groups of [entries] hold. *)
Definition held_names (st : state) (entries : list (string * members))
  : list string :=
  flat_map (λ entry, elements (held st entry.1)) entries.

(** A function is online on a socket when it carries that socket's id. *)
Definition function_online (socketId : string) (fs : gmap string member)
    (k : string) : Prop :=
  online_on socketId (function_object fs k).

(** Every group has a non-empty code; every member record is filed under a
    non-empty user id that names no inherited property. *)
Definition keys_ok (st : state) : Prop :=
  (∀ g, is_Some (groups st !! g) → g ≠ "") ∧
  (∀ g u m, plain_at st g u = Some m → u ≠ "" ∧ inherited u = false).

(** ** The scenario of the specification *)

(** Two clients, on the sockets [sA] and [sB], ride in the group RIDE32. Of
    the rooms only those of the groups are followed (a socket is also alone
    in a room named by its id). *)

Module Scenario.

Definition alice_joins : value :=
  VObject [("group", VString " ride32 "); ("userId", VString "alice-9f2k");
           ("name", VString "Alice")].

Definition bob_joins : value :=
  VObject [("group", VString "RIDE32"); ("userId", VString "bob-3q1x");
           ("name", VString "Bob")].

Definition alice_moves : value :=
  VObject [("group", VString "RIDE32"); ("userId", VString "alice-9f2k");
           ("lat", VNumber 45.25); ("lon", VNumber (-121.75));
           ("timestamp", VNumber 1700000000000)].

(** Receipt times. *)
Definition t1 : float := 1700000000123.
Definition t2 : float := 1700000000456.

(** A and B have joined RIDE32 and A has reported a position. *)
Definition events : list inbound :=
  [ In_join_group "sA" alice_joins;
    In_join_group "sB" bob_joins;
    In_location_update "sA" t1 alice_moves ].

Definition riding : state :=
  default initial (run (rt := Ecma.builtins) initial events).

(** A went offline. *)
Definition alice_offline : state :=
  (disconnect riding "sA").1.

Definition alice_rejoins : value :=
  VObject [("group", VString "ride32"); ("userId", VString " alice-9f2k ")].

Definition alice_moves_again : value :=
  VObject [("group", VString "RIDE32"); ("userId", VString "alice-9f2k");
           ("lat", VString "45.5"); ("lon", VNumber (-121.5));
           ("sport", VString "ski"); ("timestamp", VNumber 0)].

Definition no_group : value :=
  VObject [("group", VString "   "); ("userId", VString "carol")].

(** The group code is empty and the user id cannot be converted to a
    string: its own [toString] is not callable. *)
Definition unreadable_join : value :=
  VObject [("group", VString "");
           ("userId", VObject [("toString", VNumber 1)])].

Definition bad_fix : value :=
  VObject [("group", VString "RIDE32"); ("userId", VString "alice-9f2k");
           ("lat", VString "abc"); ("lon", VNumber (-121.75))].

Definition infinite_fix : value :=
  VObject [("group", VString "RIDE32"); ("userId", VString "alice-9f2k");
           ("lat", VString "Infinity"); ("lon", VNumber (-121.75));
           ("timestamp", VNumber 1700000000999)].

Definition dave_moves : value :=
  VObject [("group", VString "powder"); ("userId", VString "dave");
           ("lat", VNumber 46.5); ("lon", VNumber 7.75)].

Definition proto_moves : value :=
  VObject [("group", VString "powder"); ("userId", VString "__proto__");
           ("lat", VNumber 46.5); ("lon", VNumber 7.75)].

Definition bob_leaves : value :=
  VObject [("group", VString "RIDE32"); ("userId", VString "bob-3q1x")].

Definition toString_leaves : value :=
  VObject [("group", VString "RIDE32"); ("userId", VString "toString")].

(** A third client, on the socket [sT], calls itself [toString] and rides
    in two groups; a fourth, on [sD], rides in the second. *)
Definition tina_joins_ride : value :=
  VObject [("group", VString "RIDE32"); ("userId", VString "toString");
           ("name", VString "Tina")].

Definition dave_joins_powder : value :=
  VObject [("group", VString "POWDER"); ("userId", VString "dave");
           ("name", VString "Dave")].

Definition tina_joins_powder : value :=
  VObject [("group", VString "POWDER"); ("userId", VString "toString");
           ("name", VString "Tina")].

Definition two_groups : state :=
  default riding
    (run (rt := Ecma.builtins) riding
       [ In_join_group "sT" tina_joins_ride;
         In_join_group "sD" dave_joins_powder;
         In_join_group "sT" tina_joins_powder ]).

End Scenario.

(** ** The health endpoint *)

(** <<
    app.get('/health', (req, res) => {
      res.json({ ok: true, groups: Object.keys(groups).length });
    });
    >> *)
Record health_report := {
  ok : bool;
  group_count : nat;
}.

Definition health (st : state) : health_report :=
  {| ok := true; group_count := size (groups st) |}.

(** ** What the handlers leave behind *)

(** The state after an accepted [join_group]. *)
Definition join_effect (st : state) (socketId group userId : string)
    (name : value) : state :=
  {| groups := put_member (groups st) group userId
                 (joined socketId name (existing_or_fresh st group userId));
     adopted := adopted (ensured group st);
     functions := functions st;
     order := order (ensured group st);
     rooms := socket_join socketId group (rooms st) |}.

(** The state after an accepted [location_update]. *)
Definition location_effect (st : state) (socketId group userId : string)
    (lat lon : float) (sport timestamp : value) : state :=
  {| groups := put_member (groups st) group userId
                 (located socketId lat lon sport timestamp
                    (existing_or_fresh st group userId));
     adopted := adopted (ensured group st);
     functions := functions st;
     order := order (ensured group st);
     rooms := rooms st |}.

(** The state after an accepted [join_group] with a [userId] that finds
    the function of that name: the group holds the function, which gets
    the socket's id and keeps its name. *)
Definition join_adoption (st : state) (socketId group userId : string)
  : state :=
  {| groups := ensure_group group (groups st);
     adopted := adopt group userId (adopted (ensured group st));
     functions := <[userId := <["socketId" := VString socketId]>
                                (default ∅ (functions st !! userId))]>
                    (functions st);
     order := order (ensured group st);
     rooms := socket_join socketId group (rooms st) |}.

(** The state after an accepted [location_update] with such a [userId]. *)
Definition location_adoption (st : state) (socketId group userId : string)
    (lat lon : float) (sport timestamp : value) : state :=
  {| groups := ensure_group group (groups st);
     adopted := adopt group userId (adopted (ensured group st));
     functions := <[userId := located socketId lat lon sport timestamp
                                (default ∅ (functions st !! userId))]>
                    (functions st);
     order := order (ensured group st);
     rooms := rooms st |}.

(** The coordinates of a record: none, or two numbers that are not NaN. *)
Definition position_ok (m : member) : Prop :=
  match m !! "lat", m !! "lon" with
  | None, None => True
  | Some (VNumber x), Some (VNumber y) =>
      Number_isNaN x = false ∧ Number_isNaN y = false
  | _, _ => False
  end.

(** What every record of the registry looks like: it carries the user id it
    is filed under, its coordinates are both there or both missing, and the
    activity and the time come with the coordinates; the name and the
    activity are truthy, the socket id is a string; and it went through a
    join or an update. *)
Definition record_ok (userId : string) (m : member) : Prop :=
  m !! "userId" = Some (VString userId) ∧
  position_ok m ∧
  (is_Some (m !! "sport") ↔ is_Some (m !! "lat")) ∧
  (is_Some (m !! "updatedAt") ↔ is_Some (m !! "lat")) ∧
  (∀ v, m !! "name" = Some v → truthy v = true) ∧
  (∀ v, m !! "sport" = Some v → truthy v = true) ∧
  (∀ v, m !! "socketId" = Some v → ∃ sid, v = VString sid) ∧
  (is_Some (m !! "name") ∨ is_Some (m !! "lat")).

(** What the handlers leave on a function that a group holds: no user id
    (the function is found, so [{ userId }] is not made), and for the rest
    what they leave on a record. *)
Definition function_ok (props : member) : Prop :=
  props !! "userId" = None ∧
  position_ok props ∧
  (is_Some (props !! "sport") ↔ is_Some (props !! "lat")) ∧
  (is_Some (props !! "updatedAt") ↔ is_Some (props !! "lat")) ∧
  (∀ v, props !! "sport" = Some v → truthy v = true) ∧
  (∀ v, props !! "socketId" = Some v → ∃ sid, v = VString sid).

Definition records_ok (st : state) : Prop :=
  (∀ g u m, plain_at st g u = Some m → record_ok u m) ∧
  (∀ k props, functions st !! k = Some props → function_ok props).

(** Inbound events other than [leave_group]. *)
Definition is_leave (e : inbound) : bool :=
  match e with In_leave_group _ _ => true | _ => false end.

(** ** More events *)

(** No record carries the id of the socket: the test
    [m.socketId === socket.id] of [disconnect] fails for every member of
    every group, the functions that a group holds included. *)
Definition nobody_on (socketId : string) (st : state) : Prop :=
  map_Forall
    (λ (g : string) (ms : members),
       map_Forall
         (λ (_ : string) (m : member),
            strict_eq_string (prop m "socketId") socketId = false)
         ms ∧
       set_Forall
         (λ k, strict_eq_string
                 (prop (function_object (functions st) k) "socketId")
                 socketId = false)
         (held st g))
    (groups st).

Module Events.

Definition carol_joins_powder : value :=
  VObject [("group", VString "powder"); ("userId", VString "carol")].

Definition alice_leaves : value :=
  VObject [("group", VString "RIDE32"); ("userId", VString "alice-9f2k")].

(** [userId] cannot be converted to a string. *)
Definition opaque_user : value :=
  VObject [("group", VString "RIDE32");
           ("userId", VObject [("toString", VNumber 1)])].

Definition zero_group : value :=
  VObject [("group", VNumber 0); ("userId", VString "carol")].

Definition empty_user_moves : value :=
  VObject [("group", VString "RIDE32"); ("userId", VString "  ");
           ("lat", VNumber 45.25); ("lon", VNumber (-121.75))].

Definition alice_moves_on : value :=
  VObject [("group", VString "RIDE32"); ("userId", VString "alice-9f2k");
           ("lat", VNumber 45.5); ("lon", VNumber (-121.5));
           ("sport", VString "ski"); ("timestamp", VNumber 1700000001000)].

(** The state after one event; the state before it when the handler writes
    onto [Object.prototype] and the run is not followed. *)
Definition after (st : state) (e : inbound) : state :=
  default st (state_of (step (rt := Ecma.builtins) st e)).

Definition sent (st : state) (e : inbound) : list emission :=
  emitted (step (rt := Ecma.builtins) st e).

End Events.

(** ** The client *)

(** [App.jsx]: the part of the component that talks to the server. *)
Module App.

(** The state of the component that [join] and [leave] read and set. *)
Record app := {
  group : string;
  name : string;
  userId : string;
  members : gmap string (gmap string value);
  selectedFriend : option string;
}.

(** What a handler of the component does to its socket and its window. *)
Inductive action :=
| Alert (text : string)
| Connect
| Emit (eventName : string) (payload : value)
| Disconnect.

Section Handlers.
Context `{rt : Builtins}.

(** <<
    function join() {
      const trimmedGroup = String(group || '').trim().toUpperCase();
      if (!trimmedGroup) { alert('Please enter a group code'); return; }
      const trimmedName = String(name || '').trim() || 'anon';
      const uid = `${trimmedName}-${Math.random().toString(36).slice(2, 8)}`;
      setUserId(uid);
      s.connect();
      s.emit('join_group', { group: trimmedGroup, userId: uid, name: trimmedName });
      setGroup(trimmedGroup);
    }
    >>
    [group] and [name] are the strings of the two inputs. [random] is what
    [Math.random().toString(36).slice(2, 8)] gives: up to six digits in
    base 36. *)
Definition join (a : app) (random : string) : app * list action :=
  let trimmedGroup := String_toUpperCase (String_trim (group a)) in
  if String.eqb trimmedGroup "" then (a, [ Alert "Please enter a group code" ])
  else
    let trimmed := String_trim (name a) in
    let trimmedName := if String.eqb trimmed "" then "anon" else trimmed in
    let uid := trimmedName ++ "-" ++ random in
    ({| group := trimmedGroup; name := name a; userId := uid;
        members := members a; selectedFriend := selectedFriend a |},
     [ Connect;
       Emit "join_group"
         (VObject [("group", VString trimmedGroup); ("userId", VString uid);
                   ("name", VString trimmedName)]) ]).


(** The callback of the geolocation watch, set up once [group] and [userId]
    are there:
    <<
    (pos) => {
      const lat = pos.coords.latitude;
      const lon = pos.coords.longitude;
      const now = Date.now();
      setYou({ lat, lon, updatedAt: now });
      s.emit('location_update', { group, userId, lat, lon, timestamp: now, sport: 'ski' });
    }
    >> *)
Definition report (a : app) (lat lon now : float) : list action :=
  if String.eqb (group a) "" || String.eqb (userId a) "" then []
  else [ Emit "location_update"
           (VObject [("group", VString (group a)); ("userId", VString (userId a));
                     ("lat", VNumber lat); ("lon", VNumber lon);
                     ("timestamp", VNumber now); ("sport", VString "ski")]) ].

End Handlers.

(** What the server is handed when the actions are carried out on the
    socket [socketId]; [received] is the server's clock. *)
Definition deliver (socketId : string) (received : float) (acts : list action)
  : list inbound :=
  flat_map
    (λ act,
       match act with
       | Emit eventName payload =>
           if String.eqb eventName "join_group"
           then [ In_join_group socketId payload ]
           else if String.eqb eventName "location_update"
           then [ In_location_update socketId received payload ]
           else if String.eqb eventName "leave_group"
           then [ In_leave_group socketId payload ]
           else []
       | Disconnect => [ In_disconnect socketId ]
       | Alert _ | Connect => []
       end)
    acts.

(** The listeners of the socket:
    <<
    s.on('group_locations', ({ members: incoming = {} } = {}) => {
      setMembers(incoming);
    });
    s.on('group_state', ({ members: incoming = {} } = {}) => {
      setMembers(incoming);
    });
    s.on('error', (err) => { console.warn('socket error', err); });
    >>
    No listener is registered for [member_joined]. [incoming] is the
    object the server passed to [emit]; a property whose value is
    [undefined] is not sent, and reads as [undefined] on either side. *)
Definition receive (a : app) (ev : event) : app :=
  match ev with
  | Ev_group_locations incoming | Ev_group_state incoming =>
      {| group := group a; name := name a; userId := userId a;
         members := incoming; selectedFriend := selectedFriend a |}
  | Ev_error _ | Ev_member_joined _ _ => a
  end.

(** The events among [out] that reach the socket [socketId], in the order
    of the calls. *)
Definition inbox (socketId : string) (out : list emission) : list event :=
  flat_map
    (λ em,
       match em with
       | ToSocket sid ev => if String.eqb sid socketId then [ ev ] else []
       | ToRoom _ recipients ev =>
           if bool_decide (socketId ∈ recipients) then [ ev ] else []
       end)
    out.

Definition hear (a : app) (socketId : string) (out : list emission) : app :=
  foldl receive a (inbox socketId out).

(** The component after a [join] that went through: [group] and [userId]
    are set, the server's normalization leaves both alone, and [userId]
    names nothing that an object literal inherits. *)
Definition enrolled (a : app) : bool :=
  negb (String.eqb (group a) "") && negb (String.eqb (userId a) "") &&
  String.eqb (Ecma.toUpperCase (Ecma.trim (group a))) (group a) &&
  String.eqb (Ecma.trim (userId a)) (userId a) &&
  negb (inherited (userId a)).

(** A string without white space, as the digits of [random] are. *)
Definition spaceless (s : string) : bool :=
  forallb (λ c, negb (Ecma.is_space c)) (list_ascii_of_string s).

(** A string that does not begin with white space. *)
Definition tidy (s : string) : Prop :=
  match s with
  | String c _ => Ecma.is_space c = false
  | EmptyString => True
  end.

(** A string with a hyphen in it, as every user id made by [join] is. *)
Definition hyphenated (s : string) : bool :=
  existsb (λ c, Ascii.eqb c "-"%char) (list_ascii_of_string s).

(** A visitor who typed a group and a nickname. *)
Definition visitor : app :=
  {| group := " ride32"; name := " Carol "; userId := "";
     members := ∅; selectedFriend := None |}.

(** The component once the visitor has joined, with the digits "k3x9p2". *)
Definition carol : app :=
  {| group := "RIDE32"; name := " Carol "; userId := "Carol-k3x9p2";
     members := ∅; selectedFriend := None |}.

(** The server of [Scenario.riding] once the visitor has joined on the
    socket "sC". *)
Definition with_carol : state :=
  default Scenario.riding
    (run (rt := Ecma.builtins) Scenario.riding
       (deliver "sC" Scenario.t2
          (join (rt := Ecma.builtins) visitor "k3x9p2").2)).

End App.

(** ** Properties *)

(** *** Reading the payload *)

Section ReaderFacts.
Context `{rt : Builtins}.

Lemma field_defined (p : value) (k : string) :
  p ≠ VNull → field p k = Some (default VUndefined (field p k)).
Proof. destruct p; simpl; congruence. Qed.

Lemma group_of_not_null (p : value) (g : string) :
  group_of p = Some g → p ≠ VNull.
Proof. intros Hg ->. discriminate Hg. Qed.

Lemma String_eqb_false (a b : string) : a ≠ b → String.eqb a b = false.
Proof. intros Hne. by apply String.eqb_neq. Qed.

(** A join that passes validation runs the body of the handler. *)
Lemma join_group_valid (st : state) (sid : string) (p : value)
    (g u : string) :
  group_of p = Some g → userId_of p = Some u → g ≠ "" → u ≠ "" →
  join_group st sid p = join_accepted st sid g u (name_of p).
Proof.
  intros Hg Hu Hg0 Hu0. pose proof (group_of_not_null _ _ Hg) as Hp.
  unfold join_group, group_of, userId_of, name_of in *.
  rewrite (field_defined p "group" Hp) in Hg |- *.
  rewrite (field_defined p "userId" Hp) in Hu |- *.
  rewrite (field_defined p "name" Hp). simpl in *.
  rewrite Hg. simpl. rewrite Hu. simpl.
  by rewrite !String_eqb_false.
Qed.

(** A join that fails validation answers the sender and does nothing
    else. *)
Lemma join_group_invalid (st : state) (sid : string) (p : value)
    (g u : string) :
  group_of p = Some g → userId_of p = Some u → g = "" ∨ u = "" →
  join_group st sid p =
    Done st [ ToSocket sid (Ev_error "group and userId are required to join") ].
Proof.
  intros Hg Hu Hempty. pose proof (group_of_not_null _ _ Hg) as Hp.
  unfold join_group, group_of, userId_of in *.
  rewrite (field_defined p "group" Hp) in Hg |- *.
  rewrite (field_defined p "userId" Hp) in Hu |- *.
  rewrite (field_defined p "name" Hp). simpl in *.
  rewrite Hg. simpl. rewrite Hu. simpl.
  destruct Hempty as [-> | ->]; simpl; [done |].
  by rewrite orb_true_r.
Qed.

(** A location update that passes validation runs the body of the
    handler. *)
Lemma location_update_valid (st : state) (sid : string) (now : float)
    (p : value) (g u : string) (lat lon : float) :
  group_of p = Some g → userId_of p = Some u → g ≠ "" → u ≠ "" →
  lat_of p = Some lat → lon_of p = Some lon →
  Number_isNaN lat = false → Number_isNaN lon = false →
  location_update st sid now p =
    location_accepted st sid g u lat lon (sport_of p) (timestamp_of now p).
Proof.
  intros Hg Hu Hg0 Hu0 Hlat Hlon Hn1 Hn2.
  pose proof (group_of_not_null _ _ Hg) as Hp.
  unfold location_update, group_of, userId_of, lat_of, lon_of, sport_of,
    timestamp_of, supplied_timestamp in *.
  rewrite (field_defined p "group" Hp) in Hg |- *.
  rewrite (field_defined p "userId" Hp) in Hu |- *.
  rewrite (field_defined p "lat" Hp) in Hlat |- *.
  rewrite (field_defined p "lon" Hp) in Hlon |- *.
  rewrite (field_defined p "sport" Hp), (field_defined p "timestamp" Hp).
  simpl in *. rewrite Hg. simpl. rewrite Hu. simpl. rewrite Hlat. simpl.
  rewrite Hlon. simpl. by rewrite !String_eqb_false, Hn1, Hn2.
Qed.

(** A coordinate that is NaN, or whose coercion throws, makes the handler
    return at once, whatever the rest of the payload is. *)
Lemma location_update_nan (st : state) (sid : string) (now : float)
    (p : value) :
  unusable (lat_of p) = true ∨ unusable (lon_of p) = true →
  location_update st sid now p = Done st [].
Proof.
  unfold location_update, lat_of, lon_of, unusable.
  destruct (field p "group") as [g|]; simpl; [|done].
  destruct (normalizeGroup g) as [group|]; simpl; [|done].
  destruct (field p "userId") as [u|]; simpl; [|done].
  destruct (normalizeUserId u) as [userId|]; simpl; [|done].
  destruct (field p "lat") as [la|]; simpl; [|done].
  destruct (coordinate la) as [lat|]; simpl; [|done].
  destruct (field p "lon") as [lo|]; simpl; [|done].
  destruct (coordinate lo) as [lon|]; simpl; [|done].
  destruct (field p "sport") as [sp|]; simpl; [|done].
  destruct (field p "timestamp") as [ts|]; simpl; [|done].
  intros [-> | ->].
  - by rewrite orb_true_r, orb_true_l.
  - by rewrite orb_true_r.
Qed.

Lemma leave_group_valid (st : state) (sid : string) (p : value)
    (g u : string) :
  group_of p = Some g → userId_of p = Some u → g ≠ "" → u ≠ "" →
  leave_group st sid p = leave_accepted st sid g u.
Proof.
  intros Hg Hu Hg0 Hu0. pose proof (group_of_not_null _ _ Hg) as Hp.
  unfold leave_group, group_of, userId_of in *.
  rewrite (field_defined p "group" Hp) in Hg |- *.
  rewrite (field_defined p "userId" Hp) in Hu |- *. simpl in *.
  rewrite Hg. simpl. rewrite Hu. simpl.
  by rewrite !String_eqb_false.
Qed.

End ReaderFacts.

(** *** The handlers by cases *)

Section HandlerCases.
Context `{rt : Builtins}.

(** [leave_group] either returns at once or runs its body on the
    normalized group and user id. *)
Lemma leave_group_cases (sid : string) (p : value) :
  (∀ st, leave_group st sid p = (st, [])) ∨
  (∃ g u, userId_of p = Some u ∧
          ∀ st, leave_group st sid p = leave_accepted st sid g u).
Proof.
  unfold leave_group, userId_of.
  destruct (field p "group") as [gv|]; simpl; [|by left].
  destruct (normalizeGroup gv) as [g|]; simpl; [|by left].
  destruct (field p "userId") as [uv|]; simpl; [|by left].
  destruct (normalizeUserId uv) as [u|]; simpl; [|by left].
  destruct (String.eqb g "" || String.eqb u ""); [by left |].
  right. by exists g, u.
Qed.

(** [join_group] either does nothing, or answers with an error, or runs
    its body on a non-empty group and user id. *)
Lemma join_group_cases (sid : string) (p : value) :
  (∀ st, join_group st sid p = Done st []) ∨
  (∃ message, ∀ st,
      join_group st sid p = Done st [ ToSocket sid (Ev_error message) ]) ∨
  (∃ g u name, g ≠ "" ∧ u ≠ "" ∧
      ∀ st, join_group st sid p = join_accepted st sid g u name).
Proof.
  unfold join_group.
  destruct (field p "group") as [gv|]; simpl; [|by left].
  destruct (normalizeGroup gv) as [g|]; simpl; [|by left].
  destruct (field p "userId") as [uv|]; simpl; [|by left].
  destruct (normalizeUserId uv) as [u|]; simpl; [|by left].
  destruct (field p "name") as [nv|]; simpl; [|by left].
  destruct (String.eqb g "") eqn:Eg; simpl; [right; left; by eexists |].
  destruct (String.eqb u "") eqn:Eu; simpl; [right; left; by eexists |].
  right; right. exists g, u, (js_or nv (VString "Anonymous")).
  apply String.eqb_neq in Eg, Eu. by split; [|split].
Qed.

(** [location_update] either does nothing or runs its body on a non-empty
    group and user id. *)
Lemma location_update_cases (sid : string) (now : float) (p : value) :
  (∀ st, location_update st sid now p = Done st []) ∨
  (∃ g u lat lon sport ts, g ≠ "" ∧ u ≠ "" ∧
      ∀ st, location_update st sid now p =
              location_accepted st sid g u lat lon sport ts).
Proof.
  unfold location_update.
  destruct (field p "group") as [gv|]; simpl; [|by left].
  destruct (normalizeGroup gv) as [g|]; simpl; [|by left].
  destruct (field p "userId") as [uv|]; simpl; [|by left].
  destruct (normalizeUserId uv) as [u|]; simpl; [|by left].
  destruct (field p "lat") as [la|]; simpl; [|by left].
  destruct (coordinate la) as [lat|]; simpl; [|by left].
  destruct (field p "lon") as [lo|]; simpl; [|by left].
  destruct (coordinate lo) as [lon|]; simpl; [|by left].
  destruct (field p "sport") as [sp|]; simpl; [|by left].
  destruct (field p "timestamp") as [ts|]; simpl; [|by left].
  destruct (String.eqb g "") eqn:Eg; simpl; [by left |].
  destruct (String.eqb u "") eqn:Eu; simpl; [by left |].
  destruct (Number_isNaN lat || Number_isNaN lon); [by left |].
  right. eexists g, u, lat, lon, _, _.
  apply String.eqb_neq in Eg, Eu. by split; [|split].
Qed.

End HandlerCases.

(** *** Loops over the registry *)

Lemma online_on_strict_eq (sid : string) (m : member) :
  strict_eq_string (prop m "socketId") sid = true ↔ online_on sid m.
Proof.
  unfold online_on, prop. destruct (m !! "socketId") as [v|]; simpl.
  - destruct v; simpl; try (split; [discriminate | congruence]).
    rewrite String.eqb_eq. split; [by intros -> | congruence].
  - split; discriminate.
Qed.

Lemma offline_online (sid : string) (m : member) :
  online_on sid m → offline sid m = delete "socketId" m.
Proof.
  intros Hon. unfold offline.
  by rewrite (proj2 (online_on_strict_eq sid m) Hon).
Qed.

Lemma offline_not_online (sid : string) (m : member) :
  ¬ online_on sid m → offline sid m = m.
Proof.
  intros Hoff. unfold offline.
  destruct (strict_eq_string (prop m "socketId") sid) eqn:E; [|done].
  by apply online_on_strict_eq in E.
Qed.

(** Going offline touches the one property. *)
Lemma offline_other_property (sid : string) (m : member) (k : string) :
  k ≠ "socketId" → offline sid m !! k = m !! k.
Proof.
  intros Hk. unfold offline.
  destruct (strict_eq_string _ _); [|done]. by rewrite lookup_delete_ne.
Qed.

(** The inner loop of [disconnect] rewrites every record in place and
    reports whether it found the socket. *)
Lemma mark_offline_spec (sid : string) (ms : members) :
  (mark_offline sid ms).1 = offline sid <$> ms ∧
  ((mark_offline sid ms).2 = true ↔ affected sid ms).
Proof.
  unfold mark_offline.
  set (f := λ (uid : string) (m : member) (acc : members * bool),
              if strict_eq_string (prop m "socketId") sid
              then (<[uid := delete "socketId" m]> acc.1, true) else acc).
  assert (∀ seen : members,
             seen ⊆ ms →
             (map_fold f (ms, false) seen).1 = (offline sid <$> seen) ∪ ms ∧
             ((map_fold f (ms, false) seen).2 = true ↔ affected sid seen))
    as Hloop.
  { intros seen.
    apply (map_fold_weak_ind
             (λ acc seen, seen ⊆ ms →
                acc.1 = (offline sid <$> seen) ∪ ms ∧
                (acc.2 = true ↔ affected sid seen))).
    - intros _. rewrite fmap_empty, (left_id_L ∅ (∪)). split; [done |].
      split; [discriminate |]. intros (uid & m & Hm & _).
      by rewrite lookup_empty in Hm.
    - intros uid m seen' acc Hfresh IH Hsub.
      assert (ms !! uid = Some m) as Hin.
      { eapply lookup_weaken; [|exact Hsub]. apply lookup_insert_eq. }
      assert (seen' ⊆ ms) as Hsub'.
      { etrans; [|exact Hsub]. by apply insert_subseteq. }
      destruct (IH Hsub') as [IH1 IH2]. unfold f at 1 2.
      rewrite fmap_insert. unfold offline at 1.
      destruct (strict_eq_string (prop m "socketId") sid) eqn:E; simpl.
      + split.
        * by rewrite IH1, insert_union_l.
        * split; [|done]. intros _. exists uid, m.
          split; [apply lookup_insert_eq | by apply online_on_strict_eq].
      + split.
        * rewrite IH1, <- insert_union_l. symmetry. apply insert_id.
          rewrite lookup_union_r; [done |]. by rewrite lookup_fmap, Hfresh.
        * rewrite IH2. split.
          -- intros (uid' & m' & Hm' & Hon). exists uid', m'. split; [|done].
             rewrite lookup_insert_ne; [done |]. intros ->. congruence.
          -- intros (uid' & m' & Hm' & Hon).
             destruct (decide (uid = uid')) as [<- | Hne].
             ++ rewrite lookup_insert_eq in Hm'. injection Hm' as <-.
                apply online_on_strict_eq in Hon. congruence.
             ++ rewrite lookup_insert_ne in Hm' by done. by exists uid', m'. }
  destruct (Hloop ms) as [H1 H2]; [done |]. split; [|done].
  rewrite H1. apply map_eq. intros uid.
  rewrite lookup_union, lookup_fmap. by destruct (ms !! uid).
Qed.

Lemma mark_offline_members (sid : string) (ms : members) :
  (mark_offline sid ms).1 = offline sid <$> ms.
Proof. apply mark_offline_spec. Qed.

Lemma mark_offline_changed (sid : string) (ms : members) :
  (mark_offline sid ms).2 = true ↔ affected sid ms.
Proof. apply mark_offline_spec. Qed.

Lemma fmap_union_self {A} (f : A → A) (m : gmap string A) :
  (f <$> m) ∪ m = f <$> m.
Proof.
  apply map_eq. intros k. rewrite lookup_union, lookup_fmap.
  by destruct (m !! k).
Qed.

Lemma broadcasts_for_app (room : string) (out1 out2 : list emission) :
  broadcasts_for room (out1 ++ out2) =
    broadcasts_for room out1 + broadcasts_for room out2.
Proof. unfold broadcasts_for. by rewrite filter_app, length_app. Qed.

Lemma broadcasts_for_locations (room r : string) (to : gset string)
    (ms : members) :
  broadcasts_for room [ToRoom r to (Ev_group_locations ms)] =
    if decide (r = room) then 1 else 0.
Proof.
  unfold broadcasts_for. rewrite filter_cons, filter_nil. simpl.
  destruct (decide (r = room)) as [-> | Hne].
  - rewrite String.eqb_refl. by rewrite decide_True.
  - apply String.eqb_neq in Hne. rewrite Hne. by rewrite decide_False.
Qed.

(** Going offline twice is going offline once. *)
Lemma offline_idemp (sid : string) (m : member) :
  offline sid (offline sid m) = offline sid m.
Proof.
  unfold offline at 2 3.
  destruct (strict_eq_string (prop m "socketId") sid) eqn:E.
  - unfold offline, prop. by rewrite lookup_delete_eq.
  - unfold offline. by rewrite E.
Qed.

(** After [offline], the record is not online on the socket. *)
Lemma offline_not_online_after (sid : string) (m : member) :
  ¬ online_on sid (offline sid m).
Proof.
  unfold offline. destruct (strict_eq_string (prop m "socketId") sid) eqn:E.
  - unfold online_on. by rewrite lookup_delete_eq.
  - intros Hon. apply online_on_strict_eq in Hon. congruence.
Qed.

(** *** The functions a group holds *)

Lemma function_object_lookup (fs : gmap string member) (k p : string) :
  function_object fs k !! p =
    if decide (p = "name") then Some (VString (function_name k))
    else default ∅ (fs !! k) !! p.
Proof.
  unfold function_object. destruct (decide (p = "name")) as [-> | Hne].
  - by rewrite lookup_insert_eq.
  - by rewrite lookup_insert_ne.
Qed.

Lemma function_object_socketId (fs : gmap string member) (k : string) :
  prop (function_object fs k) "socketId" = prop (default ∅ (fs !! k)) "socketId".
Proof. unfold prop. by rewrite function_object_lookup. Qed.

(** The function whose stored properties went through [offline]. *)
Lemma function_object_offline (sid : string) (fs fs' : gmap string member)
    (k : string) :
  fs' !! k = offline sid <$> fs !! k →
  function_object fs' k = offline sid (function_object fs k).
Proof.
  intros Hk. unfold function_object. rewrite Hk.
  unfold offline at 2. unfold prop at 1.
  rewrite lookup_insert_ne by done. fold (prop (default ∅ (fs !! k)) "socketId").
  destruct (fs !! k) as [props|]; simpl.
  - unfold offline. destruct (strict_eq_string (prop props "socketId") sid); [|done].
    by rewrite delete_insert_ne.
  - unfold prop. by rewrite lookup_empty.
Qed.

Lemma function_online_alt (sid : string) (fs : gmap string member) (k : string) :
  function_online sid fs k ↔
  ∃ props, fs !! k = Some props ∧ online_on sid props.
Proof.
  unfold function_online, online_on. rewrite function_object_lookup.
  rewrite decide_False by done. destruct (fs !! k) as [props|]; simpl.
  - split; [by exists props | by intros (? & [= <-] & ?)].
  - rewrite lookup_empty. split; [done | by intros (? & ? & _)].
Qed.

Lemma function_online_strict_eq (sid : string) (fs : gmap string member)
    (k : string) :
  strict_eq_string (prop (function_object fs k) "socketId") sid = true ↔
  function_online sid fs k.
Proof. apply online_on_strict_eq. Qed.

(** The loop over the functions that a group holds: each of them goes
    through [offline], and the loop reports whether one was on the socket. *)
Lemma mark_functions_offline_spec (sid : string) (names : gset string)
    (fs : gmap string member) :
  (∀ k, (mark_functions_offline sid names fs).1 !! k =
          if decide (k ∈ names) then offline sid <$> fs !! k else fs !! k) ∧
  ((mark_functions_offline sid names fs).2 = true ↔
   ∃ k, k ∈ names ∧ function_online sid fs k).
Proof.
  unfold mark_functions_offline.
  set (P := λ (acc : gmap string member * bool) (X : gset string),
              (∀ k, acc.1 !! k =
                      if decide (k ∈ X) then offline sid <$> fs !! k
                      else fs !! k) ∧
              (acc.2 = true ↔ ∃ k, k ∈ X ∧ function_online sid fs k)).
  revert names. apply (set_fold_ind_L P); unfold P; clear P.
  - split.
    + intros k. by rewrite decide_False by apply not_elem_of_empty.
    + split; [discriminate |]. intros (k & Hk & _).
      by apply not_elem_of_empty in Hk.
  - intros x X acc Hfresh [IH1 IH2].
    assert (acc.1 !! x = fs !! x) as Hx.
    { by rewrite IH1, decide_False. }
    assert (function_object acc.1 x = function_object fs x) as Hobj.
    { unfold function_object. by rewrite Hx. }
    rewrite Hobj.
    destruct (strict_eq_string (prop (function_object fs x) "socketId") sid)
      eqn:E; simpl.
    + pose proof (proj1 (function_online_strict_eq sid fs x) E) as Hon.
      apply function_online_alt in Hon as (props & Hprops & Hon).
      split.
      * intros k. destruct (decide (k = x)) as [-> | Hne].
        -- rewrite lookup_insert_eq, decide_True
             by (apply elem_of_union_l; by apply elem_of_singleton).
           rewrite Hx, Hprops. simpl. by rewrite offline_online.
        -- rewrite lookup_insert_ne by done. rewrite IH1.
           destruct (decide (k ∈ X)) as [Hin | Hout].
           ++ by rewrite decide_True by (by apply elem_of_union_r).
           ++ rewrite decide_False; [done |].
              intros [Hk | Hk]%elem_of_union; [|done].
              by apply elem_of_singleton in Hk.
      * split; [|done]. intros _. exists x.
        split; [apply elem_of_union_l; by apply elem_of_singleton |].
        by apply function_online_strict_eq.
    + assert (¬ function_online sid fs x) as Hoff.
      { intros Hon. apply function_online_strict_eq in Hon. congruence. }
      split.
      * intros k. rewrite IH1. destruct (decide (k = x)) as [-> | Hne].
        -- rewrite decide_False by done.
           rewrite decide_True
             by (apply elem_of_union_l; by apply elem_of_singleton).
           destruct (fs !! x) as [props|] eqn:Hprops; [|done]. simpl.
           rewrite offline_not_online; [done |]. intros Hon. apply Hoff.
           apply function_online_alt. by exists props.
        -- destruct (decide (k ∈ X)) as [Hin | Hout].
           ++ by rewrite decide_True by (by apply elem_of_union_r).
           ++ rewrite decide_False; [done |].
              intros [Hk | Hk]%elem_of_union; [|done].
              by apply elem_of_singleton in Hk.
      * rewrite IH2. split.
        -- intros (k & Hk & Hon). exists k. split; [|done].
           by apply elem_of_union_r.
        -- intros (k & [Hk | Hk]%elem_of_union & Hon).
           ++ apply elem_of_singleton in Hk. by subst k.
           ++ by exists k.
Qed.

(** *** The order of the groups *)

Lemma Object_entries_Permutation (gs : registry) (created : list string) :
  Object_entries gs created ≡ₚ map_to_list gs.
Proof. apply merge_sort_Permutation. Qed.

Lemma Object_entries_NoDup (gs : registry) (created : list string) :
  NoDup (Object_entries gs created).*1.
Proof.
  rewrite (Object_entries_Permutation gs created).
  apply NoDup_fst_map_to_list.
Qed.

Lemma elem_of_Object_entries (gs : registry) (created : list string)
    (g : string) (ms : members) :
  (g, ms) ∈ Object_entries gs created ↔ gs !! g = Some ms.
Proof.
  rewrite (Object_entries_Permutation gs created).
  apply elem_of_map_to_list.
Qed.

Lemma list_to_map_Object_entries (gs : registry) (created : list string) :
  list_to_map (Object_entries gs created) = gs.
Proof.
  rewrite (list_to_map_proper _ (map_to_list gs)).
  - apply list_to_map_to_list.
  - apply Object_entries_NoDup.
  - apply Object_entries_Permutation.
Qed.

Lemma elem_of_held_names (st : state) (l : list (string * members))
    (k : string) :
  k ∈ held_names st l ↔ ∃ g ms, (g, ms) ∈ l ∧ k ∈ held st g.
Proof.
  unfold held_names. rewrite list_elem_of_In, in_flat_map. split.
  - intros ([g ms] & Hin & Hk). exists g, ms.
    split; [by apply list_elem_of_In |].
    apply list_elem_of_In in Hk. by apply elem_of_elements in Hk.
  - intros (g & ms & Hin & Hk). exists (g, ms).
    split; [by apply list_elem_of_In |].
    apply list_elem_of_In. by apply elem_of_elements.
Qed.

(** A function is held by some group. *)
Lemma elem_of_held_names_entries (st : state) (k : string) :
  k ∈ held_names st (Object_entries (groups st) (order st)) ↔
  ∃ g, k ∈ held st g.
Proof.
  rewrite elem_of_held_names. split.
  - intros (g & ms & _ & Hk). by exists g.
  - intros (g & Hk). unfold held in Hk.
    destruct (groups st !! g) as [ms|] eqn:Hg.
    + exists g, ms. split; [by apply elem_of_Object_entries |].
      unfold held. by rewrite Hg.
    + by apply not_elem_of_empty in Hk.
Qed.

(** *** The sweep of [disconnect] *)

Lemma sweep_entry (st : state) (sid : string) (rs : gmap string (gset string))
    (gs : registry) (fs : gmap string member) (out : list emission)
    (g : string) (ms : members) :
  sweep st sid rs (gs, fs, out) (g, ms) =
    (<[g := all_offline sid ms]> gs,
     (mark_functions_offline sid (held st g) fs).1,
     if (mark_offline sid ms).2 || (mark_functions_offline sid (held st g) fs).2
     then (out ++ [ ToRoom g (subscribers rs g)
                      (Ev_group_locations (all_offline sid ms)) ])%list
     else out).
Proof.
  unfold sweep. pose proof (mark_offline_members sid ms) as Hms.
  destruct (mark_offline sid ms) as [ms' changed]. simpl in Hms. subst ms'.
  by destruct (mark_functions_offline sid (held st g) fs) as [fs' changed'].
Qed.

(** A function that is online after some functions went through [offline]
    was online before, and is not one of them. *)
Lemma function_online_after (sid : string) (names : gset string)
    (fs : gmap string member) (k : string) :
  function_online sid (mark_functions_offline sid names fs).1 k →
  function_online sid fs k ∧ k ∉ names.
Proof.
  intros Hon. apply function_online_alt in Hon as (props & Hprops & Hon).
  destruct (mark_functions_offline_spec sid names fs) as [Hfs _].
  rewrite Hfs in Hprops. destruct (decide (k ∈ names)) as [Hin | Hout].
  - destruct (fs !! k) as [props0|]; [|done]. injection Hprops as <-.
    by apply offline_not_online_after in Hon.
  - split; [|done]. apply function_online_alt. by exists props.
Qed.

(** What the sweep has done once it has visited the groups of [l], from
    the registry, the functions and the messages of [acc]: the records of
    these groups and the functions they hold went through [offline]; every
    message added is the broadcast to one of these groups, which had a
    record or a function on the socket; a group with a record on the socket
    got one broadcast, and a group with neither a record nor a function on
    the socket got none. *)
Lemma sweep_foldl (st : state) (sid : string) (rs : gmap string (gset string))
    (l : list (string * members))
    (acc : registry * gmap string member * list emission) :
  NoDup l.*1 →
  let r := foldl (sweep st sid rs) acc l in
  r.1.1 = (all_offline sid <$> list_to_map l) ∪ acc.1.1 ∧
  (∀ k, r.1.2 !! k =
          if decide (k ∈ held_names st l) then offline sid <$> acc.1.2 !! k
          else acc.1.2 !! k) ∧
  (∀ e, e ∈ r.2 →
     e ∈ acc.2 ∨
     ∃ g ms, (g, ms) ∈ l ∧
       e = ToRoom g (subscribers rs g)
             (Ev_group_locations (all_offline sid ms)) ∧
       (affected sid ms ∨ ∃ k, k ∈ held st g ∧ function_online sid acc.1.2 k)) ∧
  (∀ g, (g ∉ l.*1 → broadcasts_for g r.2 = broadcasts_for g acc.2) ∧
        (∀ ms, (g, ms) ∈ l → affected sid ms →
               broadcasts_for g r.2 = S (broadcasts_for g acc.2)) ∧
        (∀ ms, (g, ms) ∈ l → ¬ affected sid ms →
               (∀ k, k ∈ held st g → ¬ function_online sid acc.1.2 k) →
               broadcasts_for g r.2 = broadcasts_for g acc.2)).
Proof.
  revert acc. induction l as [| [g0 ms0] l IH]; intros [[gs fs] out] Hnd r;
    subst r.
  - simpl. split; [by rewrite fmap_empty, (left_id_L ∅ (∪)) |].
    split; [done |].
    split; [intros e He; by left |].
    intros g. split; [done |].
    split; intros ms Hin; by apply elem_of_nil in Hin.
  - rewrite fmap_cons in Hnd. apply NoDup_cons in Hnd as [Hfresh Hnd].
    simpl in Hfresh. cbn [foldl fst snd]. rewrite sweep_entry.
    set (changed := (mark_offline sid ms0).2 ||
                    (mark_functions_offline sid (held st g0) fs).2).
    set (fs1 := (mark_functions_offline sid (held st g0) fs).1).
    set (out1 := if changed
                 then (out ++ [ToRoom g0 (subscribers rs g0)
                                 (Ev_group_locations (all_offline sid ms0))])%list
                 else out).
    destruct (IH (<[g0 := all_offline sid ms0]> gs, fs1, out1) Hnd)
      as (IH1 & IH2 & IH3 & IH4). cbn [fst snd] in IH1, IH2, IH3, IH4.
    destruct (mark_functions_offline_spec sid (held st g0) fs) as [Hfs Hch'].
    fold fs1 in Hfs.
    pose proof (mark_offline_changed sid ms0) as Hch.
    assert (changed = true ↔
            affected sid ms0 ∨ ∃ k, k ∈ held st g0 ∧ function_online sid fs k)
      as Hchanged.
    { unfold changed. rewrite orb_true_iff, Hch, Hch'. done. }
    assert (∀ g, broadcasts_for g out1 =
                 if decide (g0 = g ∧ changed = true)
                 then S (broadcasts_for g out) else broadcasts_for g out)
      as Hcount.
    { intros g. unfold out1. destruct changed.
      - rewrite broadcasts_for_app, broadcasts_for_locations.
        destruct (decide (g0 = g)) as [<- | Hne].
        + rewrite decide_True by done. lia.
        + rewrite decide_False by (by intros [? _]). lia.
      - by rewrite decide_False by (by intros [_ ?]). }
    split; [|split; [|split]].
    + rewrite IH1. cbn [list_to_map foldr fst snd].
      rewrite fmap_insert. rewrite <- insert_union_l.
      symmetry. apply insert_union_r. rewrite lookup_fmap.
      by rewrite (not_elem_of_list_to_map_1 l g0 Hfresh).
    + intros k. rewrite IH2, Hfs. unfold held_names. cbn [flat_map fst].
      fold (held_names st l).
      destruct (decide (k ∈ held_names st l)) as [Hin | Hout];
        destruct (decide (k ∈ held st g0)) as [Hin0 | Hout0].
      * rewrite decide_True by (apply elem_of_app; by right).
        rewrite <- option_fmap_compose. apply option_fmap_ext.
        intros m. apply offline_idemp.
      * by rewrite decide_True by (apply elem_of_app; by right).
      * rewrite decide_True; [done |].
        apply elem_of_app. left. by apply elem_of_elements.
      * rewrite decide_False; [done |].
        intros [Hk | Hk]%elem_of_app; [|done].
        by apply elem_of_elements in Hk.
    + intros e He. destruct (IH3 e He) as [Hold | (g & ms & Hin & -> & Hwhy)].
      * unfold out1 in Hold. destruct changed eqn:Ec; [|by left].
        apply elem_of_app in Hold as [Hold | Hnew]; [by left |].
        apply list_elem_of_singleton in Hnew as ->. right.
        exists g0, ms0. split; [by left |]. split; [done |].
        by apply Hchanged.
      * right. exists g, ms. split; [by right |]. split; [done |].
        destruct Hwhy as [Haff | (k & Hk & Hon)]; [by left |].
        right. exists k. split; [done |].
        by apply (function_online_after sid (held st g0) fs k).
    + intros g. destruct (IH4 g) as (IHa & IHb & IHc).
      split; [|split].
      * intros Hout. rewrite fmap_cons in Hout.
        apply not_elem_of_cons in Hout as [Hne Hout]. simpl in Hne.
        rewrite (IHa Hout), Hcount.
        by rewrite decide_False by (intros [? _]; congruence).
      * intros ms [Heq | Hin]%elem_of_cons Haff.
        -- injection Heq as -> ->. rewrite (IHa Hfresh), Hcount.
           rewrite decide_True; [done |]. split; [done |].
           apply Hchanged. by left.
        -- rewrite (IHb ms Hin Haff), Hcount.
           rewrite decide_False; [done |]. intros [<- _]. apply Hfresh.
           apply list_elem_of_fmap. by exists (g0, ms).
      * intros ms [Heq | Hin]%elem_of_cons Hnaff Hnone.
        -- injection Heq as -> ->. rewrite (IHa Hfresh), Hcount.
           rewrite decide_False; [done |]. intros [_ Hc].
           apply Hchanged in Hc as [Haff | (k & Hk & Hon)]; [done |].
           by apply (Hnone k).
        -- rewrite (IHc ms Hin Hnaff), Hcount.
           ++ rewrite decide_False; [done |]. intros [<- _]. apply Hfresh.
              apply list_elem_of_fmap. by exists (g0, ms).
           ++ intros k Hk Hon.
              apply (function_online_after sid (held st g0) fs k) in Hon
                as [Hon _].
              by apply (Hnone k).
Qed.

(** *** What a group holds under a user id *)

Lemma held_objects_lookup (st : state) (g u : string) :
  held_objects st g !! u =
    if decide (u ∈ held st g) then Some (function_object (functions st) u)
    else None.
Proof.
  apply option_eq. intros m. unfold held_objects.
  rewrite lookup_set_to_map by (by intros y y' _ _ Heq).
  destruct (decide (u ∈ held st g)) as [Hin | Hout].
  - split; [by intros (y & _ & [= -> <-]) | intros [= <-]; by exists u].
  - split; [by intros (y & Hy & [= -> _]) | done].
Qed.

Lemma member_at_cases (st : state) (g u : string) :
  member_at st g u =
    match plain_at st g u with
    | Some m => Some m
    | None => if decide (u ∈ held st g)
              then Some (function_object (functions st) u) else None
    end.
Proof.
  unfold member_at, group_view, plain_at.
  destruct (groups st !! g) as [ms|] eqn:Hg; simpl.
  - rewrite lookup_union, held_objects_lookup.
    destruct (ms !! u) as [m|]; [by destruct (decide _) |].
    by destruct (decide _).
  - rewrite decide_False; [done |]. unfold held. rewrite Hg.
    apply not_elem_of_empty.
Qed.

Lemma held_inherited (st : state) (g u : string) :
  u ∈ held st g → inherited_function u = true.
Proof.
  unfold held. destruct (groups st !! g); [|by intros ?%not_elem_of_empty].
  by intros [? _]%elem_of_filter.
Qed.

Lemma inherited_function_inherited (u : string) :
  inherited_function u = true → inherited u = true ∧ u ≠ "__proto__".
Proof.
  unfold inherited_function. intros [Hinh Hp]%andb_true_iff.
  split; [done |]. apply negb_true_iff in Hp. by apply String.eqb_neq.
Qed.

(** A record is what the group holds under a user id that names no
    inherited property. *)
Lemma member_at_plain (st : state) (g u : string) :
  inherited u = false ∨ is_Some (plain_at st g u) →
  member_at st g u = plain_at st g u.
Proof.
  intros Hplain. rewrite member_at_cases.
  destruct (plain_at st g u) as [m|]; [done |].
  destruct Hplain as [Hinh | [m Hm]]; [|done].
  rewrite decide_False; [done |]. intros Hin.
  apply held_inherited, inherited_function_inherited in Hin as [Hin _].
  congruence.
Qed.

Lemma member_at_proto (st : state) (g : string) :
  member_at st g "__proto__" = plain_at st g "__proto__".
Proof.
  rewrite member_at_cases. destruct (plain_at st g "__proto__"); [done |].
  rewrite decide_False; [done |]. intros Hin.
  by apply held_inherited in Hin.
Qed.

(** Two states hold the same under a user id when they have the same
    record there, hold the same functions in the group, and the function
    of that name has the same properties. *)
Lemma member_at_ext (st st' : state) (g g' u u' : string) :
  plain_at st' g' u' = plain_at st g u →
  (u' ∈ held st' g' ↔ u ∈ held st g) →
  function_object (functions st') u' = function_object (functions st) u →
  member_at st' g' u' = member_at st g u.
Proof.
  intros Hplain Hheld Hfn. rewrite !member_at_cases, Hplain, Hfn.
  destruct (plain_at st g u); [done |].
  destruct (decide (u ∈ held st g)) as [Hin | Hout].
  - by rewrite decide_True by (by apply Hheld).
  - by rewrite decide_False by (by rewrite Hheld).
Qed.

(** *** The state after [disconnect] *)

Lemma disconnect_unfold (st : state) (sid : string) :
  let rs := socket_leave_all sid (rooms st) in
  let r := foldl (sweep st sid rs) (groups st, functions st, [])
             (Object_entries (groups st) (order st)) in
  disconnect st sid =
    ({| groups := r.1.1; adopted := adopted st; functions := r.1.2;
        order := order st; rooms := rs |}, r.2).
Proof.
  intros rs r. unfold disconnect. fold rs. fold r.
  by destruct r as [[gs fs] out].
Qed.

(** The registry after [disconnect]: every record, in every group, went
    through [offline]. *)
Lemma disconnect_groups (st : state) (sid : string) :
  groups (disconnect st sid).1 = all_offline sid <$> groups st.
Proof.
  rewrite disconnect_unfold. simpl.
  destruct (sweep_foldl st sid (socket_leave_all sid (rooms st))
              (Object_entries (groups st) (order st))
              (groups st, functions st, []) (Object_entries_NoDup _ _))
    as (H1 & _). simpl in H1.
  by rewrite H1, list_to_map_Object_entries, fmap_union_self.
Qed.

Lemma disconnect_adopted (st : state) (sid : string) :
  adopted (disconnect st sid).1 = adopted st.
Proof. by rewrite disconnect_unfold. Qed.

Lemma disconnect_order (st : state) (sid : string) :
  order (disconnect st sid).1 = order st.
Proof. by rewrite disconnect_unfold. Qed.

Lemma disconnect_rooms (st : state) (sid : string) :
  rooms (disconnect st sid).1 = socket_leave_all sid (rooms st).
Proof. by rewrite disconnect_unfold. Qed.

(** The functions after [disconnect]: those that some group holds went
    through [offline]. *)
Lemma disconnect_functions (st : state) (sid : string) (k : string) :
  functions (disconnect st sid).1 !! k =
    if decide (k ∈ held_names st (Object_entries (groups st) (order st)))
    then offline sid <$> functions st !! k else functions st !! k.
Proof.
  rewrite disconnect_unfold. simpl.
  destruct (sweep_foldl st sid (socket_leave_all sid (rooms st))
              (Object_entries (groups st) (order st))
              (groups st, functions st, []) (Object_entries_NoDup _ _))
    as (_ & H2 & _). simpl in H2. apply H2.
Qed.

Lemma disconnect_held (st : state) (sid g : string) :
  held (disconnect st sid).1 g = held st g.
Proof.
  unfold held. rewrite disconnect_groups, disconnect_adopted, lookup_fmap.
  by destruct (groups st !! g).
Qed.

Lemma disconnect_plain_at (st : state) (sid g uid : string) :
  plain_at (disconnect st sid).1 g uid = offline sid <$> plain_at st g uid.
Proof.
  unfold plain_at. rewrite disconnect_groups, lookup_fmap.
  destruct (groups st !! g) as [ms|]; simpl; [|done].
  unfold all_offline. by rewrite lookup_fmap.
Qed.

(** Every member, record or function, went through [offline]. *)
Lemma disconnect_member_at (st : state) (sid g uid : string) :
  member_at (disconnect st sid).1 g uid = offline sid <$> member_at st g uid.
Proof.
  rewrite !member_at_cases, disconnect_plain_at, disconnect_held.
  destruct (plain_at st g uid) as [m|]; simpl; [done |].
  destruct (decide (uid ∈ held st g)) as [Hin | Hout]; simpl; [|done].
  f_equal. apply function_object_offline.
  rewrite disconnect_functions, decide_True; [done |].
  apply elem_of_held_names_entries. by exists g.
Qed.

(** The messages of [disconnect]: each is the broadcast of the records of a
    group that had a record or a function on the socket. *)
Lemma disconnect_emitted (st : state) (sid : string) (e : emission) :
  e ∈ (disconnect st sid).2 →
  ∃ g ms, groups st !! g = Some ms ∧
    e = ToRoom g (subscribers (socket_leave_all sid (rooms st)) g)
          (Ev_group_locations (all_offline sid ms)) ∧
    (affected sid ms ∨
     ∃ k, k ∈ held st g ∧ function_online sid (functions st) k).
Proof.
  rewrite disconnect_unfold. simpl. intros He.
  destruct (sweep_foldl st sid (socket_leave_all sid (rooms st))
              (Object_entries (groups st) (order st))
              (groups st, functions st, []) (Object_entries_NoDup _ _))
    as (_ & _ & H3 & _). simpl in H3.
  destruct (H3 e He) as [Hnil | (g & ms & Hin & -> & Hwhy)].
  - by apply elem_of_nil in Hnil.
  - exists g, ms. split; [by apply elem_of_Object_entries in Hin | done].
Qed.

(** How many broadcasts a room gets. *)
Lemma disconnect_counts (st : state) (sid g : string) :
  (groups st !! g = None → broadcasts_for g (disconnect st sid).2 = 0) ∧
  (∀ ms, groups st !! g = Some ms → affected sid ms →
         broadcasts_for g (disconnect st sid).2 = 1) ∧
  (∀ ms, groups st !! g = Some ms → ¬ affected sid ms →
         (∀ k, k ∈ held st g → ¬ function_online sid (functions st) k) →
         broadcasts_for g (disconnect st sid).2 = 0).
Proof.
  rewrite disconnect_unfold. simpl.
  destruct (sweep_foldl st sid (socket_leave_all sid (rooms st))
              (Object_entries (groups st) (order st))
              (groups st, functions st, []) (Object_entries_NoDup _ _))
    as (_ & _ & _ & H4). simpl in H4.
  destruct (H4 g) as (Ha & Hb & Hc). split; [|split].
  - intros Hg. apply Ha. intros Hin.
    apply list_elem_of_fmap in Hin as ([g' ms] & -> & Hin).
    apply elem_of_Object_entries in Hin. simpl in Hg. congruence.
  - intros ms Hg Haff. apply (Hb ms); [|done].
    by apply elem_of_Object_entries.
  - intros ms Hg Hnaff Hnone. apply (Hc ms); [|done|done].
    by apply elem_of_Object_entries.
Qed.

(** *** The snapshot *)

(** The snapshot of [sanitizeGroup] holds the sanitized copy of every
    record, under its user id; a property named [__proto__] cannot be
    copied. *)
Lemma sanitizeGroup_lookup (ms : members) (uid : string) :
  sanitizeGroup (Some ms) !! uid =
    if String.eqb uid "__proto__" then None else sanitizeMember <$> ms !! uid.
Proof.
  unfold sanitizeGroup.
  apply (map_fold_weak_ind
           (λ (out seen : members),
              out !! uid = if String.eqb uid "__proto__" then None
                           else sanitizeMember <$> seen !! uid)).
  - rewrite !lookup_empty. by destruct (String.eqb uid "__proto__").
  - intros k m seen out Hfresh IH. unfold assign.
    destruct (decide (k = uid)) as [-> | Hne].
    + destruct (String.eqb uid "__proto__") eqn:E; [done |].
      by rewrite !lookup_insert_eq.
    + rewrite (lookup_insert_ne seen) by done.
      destruct (String.eqb k "__proto__"); [done |].
      by rewrite lookup_insert_ne.
Qed.

(** A sanitized record has the six properties of the object literal and no
    other; in particular it has no [socketId]. *)
Lemma sanitizeMember_lookup (m : member) (k : string) :
  sanitizeMember m !! k =
    if bool_decide (k ∈ ["userId"; "name"; "lat"; "lon"; "sport"; "updatedAt"])
    then Some (prop m k) else None.
Proof.
  unfold sanitizeMember. rewrite !lookup_insert, lookup_empty.
  destruct (bool_decide _) eqn:E.
  - apply bool_decide_eq_true in E.
    rewrite !elem_of_cons, elem_of_nil in E.
    destruct E as [-> | [-> | [-> | [-> | [-> | [-> | []]]]]]]; done.
  - apply bool_decide_eq_false in E.
    rewrite !elem_of_cons, elem_of_nil in E.
    repeat (destruct (decide (_ = k)) as [<- | ?]; [exfalso; naive_solver |]).
    done.
Qed.

Lemma sanitizeMember_no_socketId (m : member) :
  sanitizeMember m !! "socketId" = None.
Proof. by rewrite sanitizeMember_lookup. Qed.

(** *** The bodies of the handlers *)

Lemma members_of_ensure_group (gs : registry) (g : string) :
  members_of (ensure_group g gs) g = members_of gs g.
Proof.
  unfold members_of, ensure_group.
  destruct (gs !! g) as [ms|] eqn:E; [by rewrite E |].
  by rewrite lookup_insert_eq.
Qed.

Lemma insert_ensure_group (gs : registry) (g : string) (ms : members) :
  <[g := ms]> (ensure_group g gs) = <[g := ms]> gs.
Proof.
  unfold ensure_group. destruct (gs !! g); [done |].
  by rewrite insert_insert_eq.
Qed.

Lemma ensure_group_lookup (gs : registry) (g g' : string) :
  ensure_group g gs !! g' =
    if decide (g = g') then Some (members_of gs g) else gs !! g'.
Proof.
  unfold ensure_group, members_of.
  destruct (decide (g = g')) as [<- | Hne].
  - destruct (gs !! g) as [ms|] eqn:E; [by rewrite E |].
    by rewrite lookup_insert_eq.
  - destruct (gs !! g); [done |]. by rewrite lookup_insert_ne.
Qed.

Lemma members_of_plain_at (st : state) (g u : string) :
  members_of (groups st) g !! u = plain_at st g u.
Proof.
  unfold members_of, plain_at. by destruct (groups st !! g).
Qed.

(** The functions a group holds once the group is there: none, if it has
    just been created. *)
Lemma adopted_ensured (st : state) (g g' : string) :
  default ∅ (adopted (ensured g st) !! g') =
    if decide (g = g' ∧ groups st !! g = None) then ∅
    else default ∅ (adopted st !! g').
Proof.
  unfold ensured, is_new. simpl.
  destruct (groups st !! g) as [ms|] eqn:Hg.
  - rewrite bool_decide_eq_false_2 by done.
    by rewrite decide_False by (by intros [_ ?]).
  - rewrite bool_decide_eq_true_2 by done.
    destruct (decide (g = g')) as [<- | Hne].
    + rewrite lookup_delete_eq. by rewrite decide_True.
    + rewrite lookup_delete_ne by done.
      by rewrite decide_False by (by intros [? _]).
Qed.

Lemma held_ensured (st : state) (g g' : string) :
  held (ensured g st) g' = held st g'.
Proof.
  unfold held. rewrite adopted_ensured. simpl. rewrite ensure_group_lookup.
  destruct (decide (g = g')) as [<- | Hne].
  - destruct (groups st !! g) as [ms|] eqn:Hg.
    + by rewrite decide_False by (by intros [_ ?]).
    + rewrite decide_True by done. apply set_eq. intros k.
      rewrite elem_of_filter. split; [intros [_ Hk] | intros Hk];
        by apply not_elem_of_empty in Hk.
  - by rewrite decide_False by (by intros [? _]).
Qed.

(** A state that has the functions of [st], and holds them where [st]
    does, once the group [g] is there. *)
Lemma held_same (st st' : state) (g g' : string) :
  adopted st' = adopted (ensured g st) →
  (∀ h, is_Some (groups st' !! h) ↔ is_Some (ensure_group g (groups st) !! h)) →
  held st' g' = held st g'.
Proof.
  intros Had Hex. rewrite <- (held_ensured st g g'). unfold held.
  rewrite Had. simpl. specialize (Hex g').
  destruct (groups st' !! g') as [ms|], (ensure_group g (groups st) !! g')
    as [ms'|]; try done.
  - destruct Hex as [Hex _]. by destruct Hex.
  - destruct Hex as [_ Hex]. by destruct Hex.
Qed.

Lemma put_member_lookup (gs : registry) (g u : string) (m : member)
    (g' : string) :
  put_member gs g u m !! g' =
    if decide (g = g') then Some (<[u := m]> (default ∅ (gs !! g)))
    else gs !! g'.
Proof.
  unfold put_member. destruct (decide (g = g')) as [<- | Hne].
  - by rewrite lookup_insert_eq.
  - by rewrite lookup_insert_ne.
Qed.

Lemma put_member_is_Some (gs : registry) (g u : string) (m : member)
    (h : string) :
  is_Some (put_member gs g u m !! h) ↔ is_Some (ensure_group g gs !! h).
Proof.
  rewrite put_member_lookup, ensure_group_lookup.
  destruct (decide (g = h)); [|done]. split; by eexists.
Qed.

Lemma plain_at_put (st st' : state) (g u : string) (m : member)
    (g' u' : string) :
  groups st' = put_member (groups st) g u m →
  plain_at st' g' u' =
    if decide (g = g' ∧ u = u') then Some m else plain_at st g' u'.
Proof.
  intros Hgs. unfold plain_at. rewrite Hgs, put_member_lookup.
  destruct (decide (g = g')) as [<- | Hg]; simpl.
  - destruct (decide (u = u')) as [<- | Hu].
    + rewrite lookup_insert_eq. by rewrite decide_True.
    + rewrite lookup_insert_ne by done.
      rewrite decide_False by (by intros [_ ?]).
      by destruct (groups st !! g).
  - by rewrite decide_False by (by intros [? _]).
Qed.

(** The members of a state that differs from [st] by the record [m],
    stored for [u] in [g]. *)
Lemma member_at_put (st st' : state) (g u : string) (m : member)
    (g' u' : string) :
  groups st' = put_member (groups st) g u m →
  adopted st' = adopted (ensured g st) →
  functions st' = functions st →
  member_at st' g' u' =
    if decide (g = g' ∧ u = u') then Some m else member_at st g' u'.
Proof.
  intros Hgs Had Hfs.
  assert (held st' g' = held st g') as Hheld.
  { apply (held_same st st' g g' Had). intros h. rewrite Hgs.
    apply put_member_is_Some. }
  rewrite !member_at_cases, (plain_at_put st st' g u m g' u' Hgs), Hheld, Hfs.
  by destruct (decide (g = g' ∧ u = u')).
Qed.

(** [members[userId]] finds the record, or nothing, unless the name is an
    inherited one and no record is stored under it. *)
Lemma lookup_member_plain (st : state) (g u : string) :
  inherited u = false ∨ is_Some (plain_at st g u) →
  lookup_member (members_of (groups st) g) u =
    match plain_at st g u with Some m => Own m | None => Absent end.
Proof.
  intros Hplain. unfold lookup_member. rewrite members_of_plain_at.
  destruct (plain_at st g u) as [m|]; [done |].
  destruct Hplain as [-> | [m Hm]]; [done | discriminate].
Qed.

Lemma lookup_member_inherited (st : state) (g u : string) :
  plain_at st g u = None → inherited u = true →
  lookup_member (members_of (groups st) g) u = Inherited.
Proof.
  intros Hnone Hinh. unfold lookup_member.
  by rewrite members_of_plain_at, Hnone, Hinh.
Qed.

Lemma existing_or_fresh_plain (st : state) (g u : string) :
  inherited u = false ∨ is_Some (plain_at st g u) →
  existing_or_fresh st g u = default (fresh_member u) (plain_at st g u).
Proof.
  intros Hplain. unfold existing_or_fresh. by rewrite member_at_plain.
Qed.

(** What an accepted join does when [members[userId]] is a record or
    nothing. *)
Lemma join_accepted_done (st : state) (sid g u : string) (name : value) :
  inherited u = false ∨ is_Some (plain_at st g u) →
  join_accepted st sid g u name =
    let st' := join_effect st sid g u name in
    Done st'
      [ ToSocket sid (Ev_group_state (sanitizeGroup (group_view st' g)));
        ToRoom g (subscribers (rooms st') g) (Ev_member_joined u name) ].
Proof.
  intros Hplain. unfold join_accepted. cbn [groups rooms ensured].
  rewrite members_of_ensure_group, (lookup_member_plain st g u Hplain).
  unfold join_effect. rewrite (existing_or_fresh_plain st g u Hplain).
  unfold put_member, joined, fresh_member, members_of.
  destruct (plain_at st g u); simpl; by rewrite !insert_ensure_group.
Qed.

(** What an accepted join does when [members[userId]] is a function. *)
Lemma join_accepted_adopts (st : state) (sid g u : string) (name : value) :
  plain_at st g u = None → inherited_function u = true →
  join_accepted st sid g u name =
    let st' := join_adoption st sid g u in
    Done st'
      [ ToSocket sid (Ev_group_state (sanitizeGroup (group_view st' g)));
        ToRoom g (subscribers (rooms st') g) (Ev_member_joined u name) ].
Proof.
  intros Hnone Hfn.
  apply inherited_function_inherited in Hfn as [Hinh Hproto].
  unfold join_accepted. cbn [groups rooms ensured].
  rewrite members_of_ensure_group, (lookup_member_inherited st g u Hnone Hinh).
  by rewrite (String_eqb_false u "__proto__" Hproto).
Qed.

(** What an accepted location update does when [members[userId]] is a record
    or nothing. *)
Lemma location_accepted_done (st : state) (sid g u : string)
    (lat lon : float) (sport timestamp : value) :
  inherited u = false ∨ is_Some (plain_at st g u) →
  location_accepted st sid g u lat lon sport timestamp =
    let st' := location_effect st sid g u lat lon sport timestamp in
    Done st'
      [ ToRoom g (subscribers (rooms st) g)
          (Ev_group_locations (default ∅ (groups st' !! g))) ].
Proof.
  intros Hplain. unfold location_accepted. cbn [groups rooms ensured].
  rewrite members_of_ensure_group, (lookup_member_plain st g u Hplain).
  unfold location_effect. rewrite (existing_or_fresh_plain st g u Hplain).
  unfold put_member, located, fresh_member, members_of.
  destruct (plain_at st g u); simpl;
    by rewrite !insert_ensure_group, lookup_insert_eq.
Qed.

(** What an accepted location update does when [members[userId]] is a
    function: the broadcast has the records of the group. *)
Lemma location_accepted_adopts (st : state) (sid g u : string)
    (lat lon : float) (sport timestamp : value) :
  plain_at st g u = None → inherited_function u = true →
  location_accepted st sid g u lat lon sport timestamp =
    Done (location_adoption st sid g u lat lon sport timestamp)
      [ ToRoom g (subscribers (rooms st) g)
          (Ev_group_locations (members_of (groups st) g)) ].
Proof.
  intros Hnone Hfn.
  apply inherited_function_inherited in Hfn as [Hinh Hproto].
  unfold location_accepted. cbn [groups rooms ensured].
  rewrite members_of_ensure_group, (lookup_member_inherited st g u Hnone Hinh).
  by rewrite (String_eqb_false u "__proto__" Hproto).
Qed.

(** A location update for [__proto__] stores no record. *)
Lemma location_accepted_proto (st : state) (sid g : string)
    (lat lon : float) (sport timestamp : value) :
  plain_at st g "__proto__" = None →
  location_accepted st sid g "__proto__" lat lon sport timestamp =
    WritesObjectPrototype (ensure_group g (groups st)).
Proof.
  intros Hnone. unfold location_accepted, lookup_member.
  cbn [groups ensured].
  rewrite members_of_ensure_group, members_of_plain_at, Hnone. done.
Qed.

(** The three ways of an accepted join. *)
Lemma join_accepted_cases (st : state) (sid g u : string) (name : value) :
  (inherited u = false ∨ is_Some (plain_at st g u)) ∨
  (plain_at st g u = None ∧ inherited_function u = true) ∨
  (plain_at st g u = None ∧ u = "__proto__").
Proof.
  destruct (plain_at st g u) as [m|]; [left; right; by eexists |].
  destruct (inherited u) eqn:Hinh; [|by left; left].
  right. destruct (decide (u = "__proto__")) as [-> | Hne]; [by right |].
  left. split; [done |]. unfold inherited_function. rewrite Hinh.
  by rewrite (String_eqb_false u "__proto__" Hne).
Qed.

Lemma join_accepted_proto (st : state) (sid g : string) (name : value) :
  plain_at st g "__proto__" = None →
  join_accepted st sid g "__proto__" name =
    WritesObjectPrototype (ensure_group g (groups st)).
Proof.
  intros Hnone. unfold join_accepted, lookup_member.
  cbn [groups ensured].
  rewrite members_of_ensure_group, members_of_plain_at, Hnone. done.
Qed.

(** *** The body of [leave_group] *)

(** Leaving with a [userId] under which nothing is stored and that names no
    inherited property changes the rooms and nothing else. *)
Lemma leave_accepted_absent (st : state) (sid g u : string) :
  plain_at st g u = None → inherited u = false →
  leave_accepted st sid g u =
    ({| groups := groups st; adopted := adopted st; functions := functions st;
        order := order st; rooms := socket_leave sid g (rooms st) |}, []).
Proof.
  intros Hnone Hplain. unfold leave_accepted, plain_at, lookup_member in *.
  destruct (groups st !! g) as [ms|]; simpl in *; [|done].
  by rewrite Hnone, Hplain.
Qed.

(** Leaving removes the record and broadcasts what is left. *)
Lemma leave_accepted_member (st : state) (sid g u : string) (ms : members) :
  groups st !! g = Some ms → is_Some (ms !! u) →
  leave_accepted st sid g u =
    ({| groups := <[g := delete u ms]> (groups st);
        adopted := alter (λ names, names ∖ {[u]}) g (adopted st);
        functions := functions st;
        order := order st;
        rooms := socket_leave sid g (rooms st) |},
     [ ToRoom g (subscribers (rooms st) g) (Ev_group_locations (delete u ms)) ]).
Proof.
  intros Hg [m Hm]. unfold leave_accepted, lookup_member.
  by rewrite Hg, Hm.
Qed.

(** Leaving with a [userId] that is no record but names an inherited
    property: the records stay as they are, the group does not hold the
    function of that name any more, and the room gets a broadcast. *)
Lemma leave_accepted_inherited (st : state) (sid g u : string) (ms : members) :
  groups st !! g = Some ms → ms !! u = None → inherited u = true →
  leave_accepted st sid g u =
    ({| groups := groups st;
        adopted := alter (λ names, names ∖ {[u]}) g (adopted st);
        functions := functions st;
        order := order st;
        rooms := socket_leave sid g (rooms st) |},
     [ ToRoom g (subscribers (rooms st) g) (Ev_group_locations ms) ]).
Proof.
  intros Hg Hu Hinh. unfold leave_accepted, lookup_member.
  rewrite Hg, Hu, Hinh. rewrite (delete_id ms u Hu).
  by rewrite (insert_id (groups st) g ms Hg).
Qed.

(** Leaving twice: [socket.leave] is idempotent. *)
Lemma socket_leave_idemp (sid g : string) (rs : gmap string (gset string)) :
  socket_leave sid g (socket_leave sid g rs) = socket_leave sid g rs.
Proof.
  unfold socket_leave at 2 3. destruct (rs !! g) as [ids|] eqn:E.
  - destruct (decide (ids ∖ {[sid]} = ∅)) as [Hempty | Hne].
    + unfold socket_leave. by rewrite lookup_delete_eq.
    + unfold socket_leave. rewrite lookup_insert_eq.
      assert (ids ∖ {[sid]} ∖ {[sid]} = ids ∖ {[sid]}) as ->.
      { apply set_eq. intros x. rewrite !elem_of_difference. tauto. }
      rewrite decide_False by done. by rewrite insert_insert_eq.
  - unfold socket_leave. by rewrite E.
Qed.

(** The fields of the state after the body of [leave_group]. *)
Lemma leave_accepted_registry (st : state) (sid g u : string) :
  groups (leave_accepted st sid g u).1 =
    match groups st !! g with
    | Some ms => <[g := delete u ms]> (groups st)
    | None => groups st
    end.
Proof.
  unfold leave_accepted. destruct (groups st !! g) as [ms|] eqn:Hg; [|done].
  unfold lookup_member. destruct (ms !! u) as [m|] eqn:Hm; [done |].
  destruct (inherited u); simpl; [done |].
  by rewrite (delete_id ms u Hm), (insert_id (groups st) g ms Hg).
Qed.

Lemma leave_accepted_rooms (st : state) (sid g u : string) :
  rooms (leave_accepted st sid g u).1 = socket_leave sid g (rooms st).
Proof.
  unfold leave_accepted. destruct (groups st !! g) as [ms|]; [|done].
  by destruct (lookup_member ms u).
Qed.

Lemma leave_accepted_functions (st : state) (sid g u : string) :
  functions (leave_accepted st sid g u).1 = functions st.
Proof.
  unfold leave_accepted. destruct (groups st !! g) as [ms|]; [|done].
  by destruct (lookup_member ms u).
Qed.

Lemma leave_accepted_order (st : state) (sid g u : string) :
  order (leave_accepted st sid g u).1 = order st.
Proof.
  unfold leave_accepted. destruct (groups st !! g) as [ms|]; [|done].
  by destruct (lookup_member ms u).
Qed.

Lemma leave_accepted_is_Some (st : state) (sid g u h : string) :
  is_Some (groups (leave_accepted st sid g u).1 !! h) ↔
  is_Some (groups st !! h).
Proof.
  rewrite leave_accepted_registry.
  destruct (groups st !! g) as [ms|] eqn:Hg; [|done].
  destruct (decide (g = h)) as [<- | Hne].
  - rewrite lookup_insert_eq, Hg. split; by eexists.
  - by rewrite lookup_insert_ne.
Qed.

(** The body of [leave_group] either changes the rooms only, or takes away
    what the group holds under the user id. *)
Lemma leave_accepted_state (st : state) (sid g u : string) :
  ((groups st !! g = None ∨ (plain_at st g u = None ∧ inherited u = false)) ∧
   leave_accepted st sid g u =
     ({| groups := groups st; adopted := adopted st;
         functions := functions st; order := order st;
         rooms := socket_leave sid g (rooms st) |}, [])) ∨
  (∃ ms, groups st !! g = Some ms ∧
     leave_accepted st sid g u =
       ({| groups := <[g := delete u ms]> (groups st);
           adopted := alter (λ names, names ∖ {[u]}) g (adopted st);
           functions := functions st;
           order := order st;
           rooms := socket_leave sid g (rooms st) |},
        [ ToRoom g (subscribers (rooms st) g)
            (Ev_group_locations (delete u ms)) ])).
Proof.
  unfold leave_accepted, plain_at, lookup_member.
  destruct (groups st !! g) as [ms|] eqn:Hg; simpl; [|left; split; [by left | done]].
  destruct (ms !! u) as [m|] eqn:Hm; [right; by exists ms |].
  destruct (inherited u) eqn:Hinh; [right; by exists ms |].
  left. split; [by right | done].
Qed.

Lemma elem_of_held (st : state) (g k : string) :
  k ∈ held st g ↔
  is_Some (groups st !! g) ∧ inherited_function k = true ∧
  k ∈ default ∅ (adopted st !! g).
Proof.
  unfold held. destruct (groups st !! g) as [ms|].
  - rewrite elem_of_filter. split; [intros [? ?]; split; [by eexists | done] |].
    by intros (_ & ? & ?).
  - split; [by intros ?%not_elem_of_empty | by intros ([? ?] & _)].
Qed.

(** The functions a group holds after the body of [leave_group]: the one
    named by the user id is not among them. *)
Lemma leave_accepted_held (st : state) (sid g u g' k : string) :
  k ∈ held (leave_accepted st sid g u).1 g' ↔
  k ∈ held st g' ∧ ¬ (g = g' ∧ k = u).
Proof.
  rewrite !elem_of_held, leave_accepted_is_Some.
  destruct (leave_accepted_state st sid g u)
    as [[Hwhy ->] | (ms & Hg & ->)]; simpl.
  - split; [|by intros [? _]]. intros (Hex & Hfn & Hk).
    split; [done |]. intros [<- ->].
    destruct Hwhy as [Hnone | [_ Hinh]].
    + rewrite Hnone in Hex. by destruct Hex.
    + apply inherited_function_inherited in Hfn as [Hfn _]. congruence.
  - destruct (decide (g = g')) as [<- | Hne].
    + rewrite lookup_alter_eq. destruct (adopted st !! g) as [X|]; simpl.
      * rewrite elem_of_difference, elem_of_singleton. split.
        -- intros (? & ? & ? & ?). split; [done |]. by intros [_ ?].
        -- intros ((? & ? & ?) & Hn). split; [done |]. split; [done |].
           split; [done |]. intros ->. by apply Hn.
      * split; [by intros (_ & _ & ?%not_elem_of_empty) |].
        by intros ((_ & _ & ?%not_elem_of_empty) & _).
    + rewrite lookup_alter_ne by done. split; [|by intros [? _]].
      intros ?. split; [done |]. by intros [? _].
Qed.

Lemma plain_at_leave (st : state) (sid g u g' u' : string) :
  plain_at (leave_accepted st sid g u).1 g' u' =
    if decide (g = g' ∧ u = u') then None else plain_at st g' u'.
Proof.
  unfold plain_at. rewrite leave_accepted_registry.
  destruct (groups st !! g) as [ms|] eqn:Hg.
  - destruct (decide (g = g')) as [<- | Hne].
    + rewrite lookup_insert_eq, Hg. simpl.
      destruct (decide (u = u')) as [<- | Hu].
      * rewrite lookup_delete_eq. by rewrite decide_True.
      * rewrite lookup_delete_ne by done.
        by rewrite decide_False by (by intros [_ ?]).
    + rewrite lookup_insert_ne by done.
      by rewrite decide_False by (by intros [? _]).
  - destruct (decide (g = g' ∧ u = u')) as [[<- _] | _]; [|done].
    by rewrite Hg.
Qed.

(** After the body of [leave_group] the group holds nothing under the user
    id, and the other members are as before. *)
Lemma member_at_leave (st : state) (sid g u g' u' : string) :
  member_at (leave_accepted st sid g u).1 g' u' =
    if decide (g = g' ∧ u = u') then None else member_at st g' u'.
Proof.
  rewrite !member_at_cases, plain_at_leave, leave_accepted_functions.
  destruct (decide (g = g' ∧ u = u')) as [[<- <-] | Hne].
  - rewrite decide_False; [done |]. rewrite leave_accepted_held.
    intros [_ Hn]. by apply Hn.
  - destruct (plain_at st g' u'); [done |].
    destruct (decide (u' ∈ held st g')) as [Hin | Hout].
    + rewrite decide_True; [done |]. apply leave_accepted_held.
      split; [done |]. intros [<- ->]. by apply Hne.
    + rewrite decide_False; [done |]. rewrite leave_accepted_held.
      by intros [? _].
Qed.

(** *** What a handler returns *)

Section HandlerShapes.
Context `{rt : Builtins}.

Lemma truthy_js_or (a b : value) : truthy b = true → truthy (js_or a b) = true.
Proof. intros Hb. unfold js_or. by destruct (truthy a) eqn:E. Qed.

Lemma name_of_truthy (p : value) : truthy (name_of p) = true.
Proof. by apply truthy_js_or. Qed.

Lemma sport_of_truthy (p : value) : truthy (sport_of p) = true.
Proof. by apply truthy_js_or. Qed.

(** Every way [join_group] can end short of writing onto
    [Object.prototype]. *)
Lemma join_group_shape (st : state) (sid : string) (p : value) (st' : state)
    (out : list emission) :
  join_group st sid p = Done st' out →
  (st' = st ∧ (out = [] ∨ ∃ message, out = [ToSocket sid (Ev_error message)])) ∨
  (∃ g u, group_of p = Some g ∧ userId_of p = Some u ∧ g ≠ "" ∧ u ≠ "" ∧
          out = [ ToSocket sid (Ev_group_state (sanitizeGroup (group_view st' g)));
                  ToRoom g (subscribers (rooms st') g)
                    (Ev_member_joined u (name_of p)) ] ∧
          (((inherited u = false ∨ is_Some (plain_at st g u)) ∧
            st' = join_effect st sid g u (name_of p)) ∨
           (plain_at st g u = None ∧ inherited_function u = true ∧
            st' = join_adoption st sid g u))).
Proof.
  intros Hrun.
  destruct (group_of p) as [g|] eqn:Hg.
  2:{ left. unfold join_group, group_of in *.
      destruct (field p "group") as [gv|]; simpl in *;
        [rewrite Hg in Hrun|]; simpl in Hrun; injection Hrun as <- <-; auto. }
  pose proof (group_of_not_null _ _ Hg) as Hp.
  destruct (userId_of p) as [u|] eqn:Hu.
  2:{ left. unfold join_group, group_of, userId_of in *.
      rewrite (field_defined p "group" Hp) in Hg, Hrun.
      rewrite (field_defined p "userId" Hp) in Hu, Hrun. simpl in *.
      rewrite Hg in Hrun. simpl in Hrun. rewrite Hu in Hrun. simpl in Hrun.
      injection Hrun as <- <-; auto. }
  destruct (decide (g = "" ∨ u = "")) as [Hempty | Hfull].
  { left. rewrite (join_group_invalid st sid p g u Hg Hu Hempty) in Hrun.
    injection Hrun as <- <-. split; [done |]. right. by eexists. }
  assert (g ≠ "") as Hg0 by (intros ->; apply Hfull; by left).
  assert (u ≠ "") as Hu0 by (intros ->; apply Hfull; by right).
  right. exists g, u.
  rewrite (join_group_valid st sid p g u Hg Hu Hg0 Hu0) in Hrun.
  destruct (join_accepted_cases st sid g u (name_of p))
    as [Hplain | [[Hnone Hfn] | [Hnone ->]]].
  - rewrite join_accepted_done in Hrun by done. cbv zeta in Hrun.
    injection Hrun as <- <-. repeat (split; [done |]). by left.
  - rewrite join_accepted_adopts in Hrun by done. cbv zeta in Hrun.
    injection Hrun as <- <-. repeat (split; [done |]). by right.
  - by rewrite join_accepted_proto in Hrun.
Qed.

(** Every way [location_update] can end short of writing onto
    [Object.prototype]. *)
Lemma location_update_shape (st : state) (sid : string) (now : float)
    (p : value) (st' : state) (out : list emission) :
  location_update st sid now p = Done st' out →
  (st' = st ∧ out = []) ∨
  (∃ g u lat lon,
      group_of p = Some g ∧ userId_of p = Some u ∧ g ≠ "" ∧ u ≠ "" ∧
      lat_of p = Some lat ∧ lon_of p = Some lon ∧
      Number_isNaN lat = false ∧ Number_isNaN lon = false ∧
      out = [ ToRoom g (subscribers (rooms st) g)
                (Ev_group_locations (default ∅ (groups st' !! g))) ] ∧
      (((inherited u = false ∨ is_Some (plain_at st g u)) ∧
        st' = location_effect st sid g u lat lon (sport_of p)
                (timestamp_of now p)) ∨
       (plain_at st g u = None ∧ inherited_function u = true ∧
        st' = location_adoption st sid g u lat lon (sport_of p)
                (timestamp_of now p)))).
Proof.
  intros Hrun.
  destruct (decide (unusable (lat_of p) = true ∨ unusable (lon_of p) = true))
    as [Hbad | Hgood].
  { left. rewrite (location_update_nan st sid now p Hbad) in Hrun.
    by injection Hrun as <- <-. }
  destruct (lat_of p) as [lat|] eqn:Hlat; [|exfalso; apply Hgood; by left].
  destruct (lon_of p) as [lon|] eqn:Hlon; [|exfalso; apply Hgood; by right].
  simpl in Hgood.
  assert (Number_isNaN lat = false) as Hn1.
  { destruct (Number_isNaN lat) eqn:E; [|done]. exfalso. apply Hgood. by left. }
  assert (Number_isNaN lon = false) as Hn2.
  { destruct (Number_isNaN lon) eqn:E; [|done]. exfalso. apply Hgood. by right. }
  destruct (group_of p) as [g|] eqn:Hg.
  2:{ left. unfold location_update, group_of in *.
      destruct (field p "group") as [gv|]; simpl in *;
        [rewrite Hg in Hrun|]; simpl in Hrun; by injection Hrun as <- <-. }
  pose proof (group_of_not_null _ _ Hg) as Hp.
  destruct (userId_of p) as [u|] eqn:Hu.
  2:{ left. unfold location_update, group_of, userId_of in *.
      rewrite (field_defined p "group" Hp) in Hg, Hrun.
      rewrite (field_defined p "userId" Hp) in Hu, Hrun. simpl in *.
      rewrite Hg in Hrun. simpl in Hrun. rewrite Hu in Hrun. simpl in Hrun.
      by injection Hrun as <- <-. }
  destruct (decide (g = "")) as [-> | Hg0].
  { left. unfold location_update, group_of, userId_of, lat_of, lon_of in *.
    rewrite (field_defined p "group" Hp) in Hg, Hrun.
    rewrite (field_defined p "userId" Hp) in Hu, Hrun.
    rewrite (field_defined p "lat" Hp) in Hlat, Hrun.
    rewrite (field_defined p "lon" Hp) in Hlon, Hrun.
    rewrite (field_defined p "sport" Hp), (field_defined p "timestamp" Hp) in Hrun.
    simpl in *. rewrite Hg in Hrun. simpl in Hrun. rewrite Hu in Hrun.
    simpl in Hrun. rewrite Hlat in Hrun. simpl in Hrun. rewrite Hlon in Hrun.
    simpl in Hrun. by injection Hrun as <- <-. }
  destruct (decide (u = "")) as [-> | Hu0].
  { left. unfold location_update, group_of, userId_of, lat_of, lon_of in *.
    rewrite (field_defined p "group" Hp) in Hg, Hrun.
    rewrite (field_defined p "userId" Hp) in Hu, Hrun.
    rewrite (field_defined p "lat" Hp) in Hlat, Hrun.
    rewrite (field_defined p "lon" Hp) in Hlon, Hrun.
    rewrite (field_defined p "sport" Hp), (field_defined p "timestamp" Hp) in Hrun.
    simpl in *. rewrite Hg in Hrun. simpl in Hrun. rewrite Hu in Hrun.
    simpl in Hrun. rewrite Hlat in Hrun. simpl in Hrun. rewrite Hlon in Hrun.
    simpl in Hrun. rewrite orb_true_r in Hrun. simpl in Hrun.
    by injection Hrun as <- <-. }
  right. exists g, u, lat, lon.
  rewrite (location_update_valid st sid now p g u lat lon) in Hrun by done.
  destruct (join_accepted_cases st sid g u (name_of p))
    as [Hplain | [[Hnone Hfn] | [Hnone ->]]].
  - rewrite location_accepted_done in Hrun by done. cbv zeta in Hrun.
    injection Hrun as <- <-. repeat (split; [done |]). by left.
  - rewrite location_accepted_adopts in Hrun by done.
    injection Hrun as <- <-. repeat (split; [done |]).
    split; [|by right]. simpl. rewrite ensure_group_lookup.
    by rewrite decide_True.
  - by rewrite location_accepted_proto in Hrun.
Qed.

(** Every way [leave_group] can end. *)
Lemma leave_group_shape (st : state) (sid : string) (p : value) :
  leave_group st sid p = (st, []) ∨
  (∃ g u, group_of p = Some g ∧ userId_of p = Some u ∧ g ≠ "" ∧ u ≠ "" ∧
          leave_group st sid p = leave_accepted st sid g u).
Proof.
  destruct (group_of p) as [g|] eqn:Hg.
  2:{ left. unfold leave_group, group_of in *.
      destruct (field p "group") as [gv|]; simpl in *; [by rewrite Hg | done]. }
  pose proof (group_of_not_null _ _ Hg) as Hp.
  destruct (userId_of p) as [u|] eqn:Hu.
  2:{ left. unfold leave_group, group_of, userId_of in *.
      rewrite (field_defined p "group" Hp) in Hg |- *.
      rewrite (field_defined p "userId" Hp) in Hu |- *. simpl in *.
      rewrite Hg. simpl. by rewrite Hu. }
  destruct (decide (g = "")) as [-> | Hg0].
  { left. unfold leave_group, group_of, userId_of in *.
    rewrite (field_defined p "group" Hp) in Hg |- *.
    rewrite (field_defined p "userId" Hp) in Hu |- *. simpl in *.
    rewrite Hg. simpl. by rewrite Hu. }
  destruct (decide (u = "")) as [-> | Hu0].
  { left. unfold leave_group, group_of, userId_of in *.
    rewrite (field_defined p "group" Hp) in Hg |- *.
    rewrite (field_defined p "userId" Hp) in Hu |- *. simpl in *.
    rewrite Hg. simpl. rewrite Hu. simpl. by rewrite orb_true_r. }
  right. exists g, u. repeat (split; [done |]).
  by apply leave_group_valid.
Qed.

End HandlerShapes.

(** *** The keys of the registry *)

Lemma plain_at_ensure (st st' : state) (g g' u' : string) :
  groups st' = ensure_group g (groups st) →
  plain_at st' g' u' = plain_at st g' u'.
Proof.
  intros Hgs. unfold plain_at. rewrite Hgs, ensure_group_lookup.
  case_decide as Hd; [|done]. subst g'. simpl.
  rewrite members_of_plain_at. done.
Qed.

Lemma keys_ok_put (st st' : state) (g u : string) (m : member) :
  keys_ok st → g ≠ "" → u ≠ "" →
  inherited u = false ∨ is_Some (plain_at st g u) →
  groups st' = put_member (groups st) g u m → keys_ok st'.
Proof.
  intros [Hgroups Hok] Hg0 Hu0 Hplain Hgs. split.
  - intros h Hh. rewrite Hgs in Hh.
    apply put_member_is_Some in Hh. rewrite ensure_group_lookup in Hh.
    case_decide as Hd; [by subst h | by apply Hgroups].
  - intros g' u' m' Hm'.
    rewrite (plain_at_put st st' g u m g' u' Hgs) in Hm'.
    case_decide as Hd; [|by apply (Hok g' u' m')].
    destruct Hd as [<- <-]. split; [done |].
    destruct Hplain as [Hplain | [m0 Hm0]]; [done |].
    by apply (Hok g u m0).
Qed.

Lemma keys_ok_ensure (st st' : state) (g : string) :
  keys_ok st → g ≠ "" →
  groups st' = ensure_group g (groups st) → keys_ok st'.
Proof.
  intros [Hgroups Hok] Hg0 Hgs. split.
  - intros h Hh. rewrite Hgs, ensure_group_lookup in Hh.
    case_decide as Hd; [by subst h | by apply Hgroups].
  - intros g' u' m' Hm'. rewrite (plain_at_ensure st st' g g' u' Hgs) in Hm'.
    by apply (Hok g' u' m').
Qed.

Lemma keys_ok_leave (st : state) (sid g u : string) :
  keys_ok st → keys_ok (leave_accepted st sid g u).1.
Proof.
  intros [Hgroups Hok]. split.
  - intros h Hh. apply leave_accepted_is_Some in Hh. by apply Hgroups.
  - intros g' u' m Hm. rewrite plain_at_leave in Hm.
    case_decide; [done |]. by apply (Hok g' u' m).
Qed.

Lemma keys_ok_disconnect (st : state) (sid : string) :
  keys_ok st → keys_ok (disconnect st sid).1.
Proof.
  intros [Hgroups Hok]. split.
  - intros h Hh. rewrite disconnect_groups, lookup_fmap in Hh.
    apply Hgroups. by apply fmap_is_Some in Hh.
  - intros g u m Hm. rewrite disconnect_plain_at in Hm.
    destruct (plain_at st g u) as [m0|] eqn:Hm0; [|done].
    by apply (Hok g u m0).
Qed.

Section Reachable.
Context `{rt : Builtins}.

(** The handlers keep the registry within the keys of [keys_ok]. *)
Lemma keys_ok_step (st : state) (e : inbound) (st' : state)
    (out : list emission) :
  keys_ok st → step st e = Done st' out → keys_ok st'.
Proof.
  intros Hok Hstep. destruct e as [sid p | sid now p | sid p | sid]; simpl in Hstep.
  - destruct (join_group_shape st sid p st' out Hstep)
      as [[-> _] | (g & u & _ & _ & Hg0 & Hu0 & _ & [[Hplain ->] | (_ & _ & ->)])];
      [done | |].
    + by apply (keys_ok_put st _ g u
                  (joined sid (name_of p) (existing_or_fresh st g u))).
    + by apply (keys_ok_ensure st _ g).
  - destruct (location_update_shape st sid now p st' out Hstep)
      as [[-> _] | (g & u & lat & lon & _ & _ & Hg0 & Hu0 & _ & _ & _ & _ & _ &
                    [[Hplain ->] | (_ & _ & ->)])]; [done | |].
    + by apply (keys_ok_put st _ g u
                  (located sid lat lon (sport_of p) (timestamp_of now p)
                     (existing_or_fresh st g u))).
    + by apply (keys_ok_ensure st _ g).
  - destruct (leave_group st sid p) as [st1 out1] eqn:Hleave.
    injection Hstep as <- _.
    destruct (leave_group_shape st sid p) as [Hdrop | (g & u & _ & _ & _ & _ & Hrun)].
    + rewrite Hdrop in Hleave. by injection Hleave as <- _.
    + rewrite Hrun in Hleave.
      replace st1 with (leave_accepted st sid g u).1 by (by rewrite Hleave).
      by apply keys_ok_leave.
  - destruct (disconnect st sid) as [st1 out1] eqn:Hdis.
    injection Hstep as <- _.
    replace st1 with (disconnect st sid).1 by (by rewrite Hdis).
    by apply keys_ok_disconnect.
Qed.

(** In every state the process can reach, groups have non-empty codes and
    member records are filed under non-empty ids that name no inherited
    property; in particular no group has a member named [__proto__]. *)
Lemma reachable_keys_ok (st : state) : reachable st → keys_ok st.
Proof.
  induction 1 as [| st e st' out _ IH Hstep].
  - split.
    + intros g [ms Hg]. unfold initial in Hg. simpl in Hg.
      by rewrite lookup_empty in Hg.
    + intros g u m Hm. unfold plain_at, initial in Hm. simpl in Hm.
      by rewrite lookup_empty in Hm.
  - by apply (keys_ok_step st e st' out).
Qed.

Lemma reachable_no_proto_member (st : state) (g : string) :
  reachable st → member_at st g "__proto__" = None.
Proof.
  intros Hreach. rewrite member_at_proto.
  destruct (plain_at st g "__proto__") as [m|] eqn:Hm; [|done].
  destruct (reachable_keys_ok st Hreach) as [_ Hok].
  destruct (Hok g "__proto__" m Hm) as (_ & Hinh).
  discriminate Hinh.
Qed.

(** What a reachable state stores for a user id is a record, under a name
    that is not inherited, or a function, under the name of an inherited
    one. *)
Lemma reachable_member_at (st : state) (g u : string) (m : member) :
  reachable st → member_at st g u = Some m →
  g ≠ "" ∧ u ≠ "" ∧
  ((inherited u = false ∧ plain_at st g u = Some m) ∨
   (inherited_function u = true ∧ plain_at st g u = None ∧ u ∈ held st g ∧
    m = function_object (functions st) u)).
Proof.
  intros Hreach Hm. destruct (reachable_keys_ok st Hreach) as [Hgroups Hok].
  rewrite member_at_cases in Hm.
  destruct (plain_at st g u) as [m0|] eqn:Hm0.
  - injection Hm as <-. destruct (Hok g u m0 Hm0) as [Hu Hinh].
    split; [|by split; [|left]].
    apply Hgroups. unfold plain_at in Hm0.
    destruct (groups st !! g); [by eexists | done].
  - case_decide as Hheld; [|done]. injection Hm as <-.
    pose proof (held_inherited st g u Hheld) as Hfun.
    apply elem_of_held in Hheld as Hheld'. destruct Hheld' as (Hg & _ & _).
    split; [by apply Hgroups |]. split; [by intros -> |].
    right. done.
Qed.

Lemma run_reachable (es : list inbound) (st st' : state) :
  reachable st → run st es = Some st' → reachable st'.
Proof.
  revert st. induction es as [| e es IH]; intros st Hreach Hrun; simpl in Hrun.
  - by injection Hrun as <-.
  - destruct (step st e) as [st1 out |] eqn:Hstep; [|done].
    apply (IH st1); [|done]. by apply (reachable_step st e st1 out).
Qed.

End Reachable.

(** The states of the scenario are states the process reaches. *)
Lemma riding_reachable : reachable (rt := Ecma.builtins) Scenario.riding.
Proof.
  apply (run_reachable (rt := Ecma.builtins) Scenario.events initial);
    [constructor |].
  vm_compute. reflexivity.
Qed.

Lemma two_groups_reachable : reachable (rt := Ecma.builtins) Scenario.two_groups.
Proof.
  apply (run_reachable (rt := Ecma.builtins)
           [ In_join_group "sT" Scenario.tina_joins_ride;
             In_join_group "sD" Scenario.dave_joins_powder;
             In_join_group "sT" Scenario.tina_joins_powder ]
           Scenario.riding);
    [apply riding_reachable |].
  vm_compute. reflexivity.
Qed.

(** *** What a group holds after a handler has found a function *)

Lemma elem_of_held_adoption (st st' : state) (g u g' k : string) :
  groups st' = ensure_group g (groups st) →
  adopted st' = adopt g u (adopted (ensured g st)) →
  inherited_function u = true →
  k ∈ held st' g' ↔ k ∈ held st g' ∨ (g' = g ∧ k = u).
Proof.
  intros Hgs Had Hfn. rewrite !elem_of_held, Hgs, Had, ensure_group_lookup.
  unfold adopt. destruct (decide (g = g')) as [<- | Hne].
  - rewrite lookup_insert_eq, adopted_ensured. cbn [default from_option id].
    rewrite elem_of_union, elem_of_singleton.
    destruct (groups st !! g) as [ms|] eqn:Hg.
    + rewrite decide_False by (by intros [_ ?]). split.
      * intros (_ & Hk & [-> | Hin]); [by right | left].
        split; [by eexists | done].
      * intros [(_ & Hk & Hin) | [_ ->]].
        -- split; [by eexists |]. split; [done | by right].
        -- split; [by eexists |]. split; [done | by left].
    + rewrite decide_True by done. split.
      * intros (_ & Hk & [-> | Hin]); [by right |].
        by apply not_elem_of_empty in Hin.
      * intros [([? ?] & _) | [_ ->]]; [done |].
        split; [by eexists |]. split; [done | by left].
  - rewrite lookup_insert_ne by done. rewrite adopted_ensured.
    rewrite decide_False by (by intros [? _]). split; [by left |].
    intros [? | [-> _]]; done.
Qed.

(** A function that gets a property is the same function wherever it is
    held: every group that holds it sees the property. *)
Lemma member_at_adoption (st st' : state) (g u : string) (props' : member)
    (g' u' : string) :
  groups st' = ensure_group g (groups st) →
  adopted st' = adopt g u (adopted (ensured g st)) →
  functions st' = <[u := props']> (functions st) →
  inherited_function u = true →
  plain_at st g u = None →
  member_at st' g' u' =
    if decide (u' = u ∧ plain_at st g' u = None ∧ (g' = g ∨ u ∈ held st g'))
    then Some (<["name" := VString (function_name u)]> props')
    else member_at st g' u'.
Proof.
  intros Hgs Had Hfs Hfn Hplain.
  rewrite !member_at_cases, (plain_at_ensure st st' g g' u' Hgs).
  destruct (decide (u' = u)) as [-> | Hne].
  - destruct (plain_at st g' u) as [m|] eqn:Hm.
    + by rewrite decide_False by (by intros (_ & ? & _)).
    + destruct (decide (u ∈ held st' g')) as [Hin | Hout].
      * apply (elem_of_held_adoption st st' g u g' u Hgs Had Hfn) in Hin.
        rewrite decide_True.
        -- unfold function_object. by rewrite Hfs, lookup_insert_eq.
        -- split; [done |]. split; [done |].
           destruct Hin as [? | [? _]]; [by right | by left].
      * assert (¬ (g' = g ∨ u ∈ held st g')) as Hno.
        { intros Hor. apply Hout.
          apply (elem_of_held_adoption st st' g u g' u Hgs Had Hfn).
          destruct Hor as [-> | ?]; [by right | by left]. }
        rewrite decide_False by (by intros (_ & _ & ?)).
        rewrite decide_False; [done |]. intros Hin. apply Hno. by right.
  - rewrite (decide_False (P := u' = u ∧ _)) by (by intros [? _]).
    destruct (plain_at st g' u'); [done |].
    assert (u' ∈ held st' g' ↔ u' ∈ held st g') as Hheld.
    { rewrite (elem_of_held_adoption st st' g u g' u' Hgs Had Hfn).
      split; [|by left]. by intros [? | [_ ?]]. }
    assert (function_object (functions st') u' =
            function_object (functions st) u') as Hobj.
    { unfold function_object. by rewrite Hfs, lookup_insert_ne. }
    rewrite Hobj.
    destruct (decide (u' ∈ held st' g')), (decide (u' ∈ held st g'));
      try done; exfalso; tauto.
Qed.

Lemma function_object_insert (fs : gmap string member) (k p : string)
    (v : value) :
  p ≠ "name" →
  <["name" := VString (function_name k)]> (<[p := v]> (default ∅ (fs !! k))) =
  <[p := v]> (function_object fs k).
Proof. intros Hp. unfold function_object. by apply insert_insert_ne. Qed.

(** The snapshot of a group holds the sanitized copy of everything the
    group holds, records and functions, when nothing is held under
    [__proto__]. *)
Lemma snapshot_lookup (st : state) (g uid : string) :
  member_at st g "__proto__" = None →
  sanitizeGroup (group_view st g) !! uid = sanitizeMember <$> member_at st g uid.
Proof.
  unfold member_at. intros Hproto.
  destruct (group_view st g) as [ms|]; [|apply lookup_empty].
  rewrite sanitizeGroup_lookup. cbn [mbind option_bind] in *.
  destruct (String.eqb uid "__proto__") eqn:E; [|done].
  apply String.eqb_eq in E. subst uid. by rewrite Hproto.
Qed.

(** *** What the bodies of the handlers store *)

Lemma subscribers_socket_join (sid g : string) (rs : gmap string (gset string)) :
  subscribers (socket_join sid g rs) g = {[sid]} ∪ subscribers rs g.
Proof. unfold subscribers at 1, socket_join. by rewrite lookup_insert_eq. Qed.

Lemma located_lookup (sid : string) (lat lon : float) (sport ts : value)
    (m : member) (k : string) :
  located sid lat lon sport ts m !! k =
    if decide (k = "socketId") then Some (VString sid)
    else if decide (k = "updatedAt") then Some ts
    else if decide (k = "sport") then Some sport
    else if decide (k = "lon") then Some (VNumber lon)
    else if decide (k = "lat") then Some (VNumber lat)
    else m !! k.
Proof.
  unfold located. rewrite !lookup_insert.
  repeat (destruct (decide (_ = k)) as [<- | ?]; [done |]).
  repeat (destruct (decide (k = _)) as [-> | ?]; [done |]). done.
Qed.

Lemma joined_lookup (sid : string) (name : value) (m : member) (k : string) :
  joined sid name m !! k =
    if decide (k = "socketId") then Some (VString sid)
    else if decide (k = "name") then Some name
    else m !! k.
Proof.
  unfold joined. rewrite !lookup_insert.
  repeat (destruct (decide (_ = k)) as [<- | ?]; [done |]).
  repeat (destruct (decide (k = _)) as [-> | ?]; [done |]). done.
Qed.

(** The five assignments of [location_update] leave the name of a function
    as it is. *)
Lemma function_object_located (fs : gmap string member) (k sid : string)
    (lat lon : float) (sport ts : value) :
  <["name" := VString (function_name k)]>
    (located sid lat lon sport ts (default ∅ (fs !! k))) =
  located sid lat lon sport ts (function_object fs k).
Proof.
  apply map_eq. intros p. unfold function_object.
  rewrite lookup_insert, !located_lookup, lookup_insert.
  destruct (decide ("name" = p)) as [<- | ?]; done.
Qed.

Lemma found_or_fresh_existing (st : state) (g u : string) :
  inherited u = false ∨ is_Some (plain_at st g u) →
  found_or_fresh st g u = existing_or_fresh st g u.
Proof.
  intros Hplain. rewrite existing_or_fresh_plain by done.
  unfold found_or_fresh. destruct (plain_at st g u) as [m|]; [done |].
  by destruct Hplain as [-> | [? ?]].
Qed.

(** The body of [join_group], for every user id but [__proto__]. *)
Lemma join_accepted_member (st : state) (sid g u : string) (name : value) :
  u ≠ "__proto__" ∨ is_Some (plain_at st g u) →
  ∃ st',
    join_accepted st sid g u name =
      Done st'
        [ ToSocket sid (Ev_group_state (sanitizeGroup (group_view st' g)));
          ToRoom g ({[sid]} ∪ subscribers (rooms st) g)
            (Ev_member_joined u name) ] ∧
    member_at st' g u = Some (joined_member st sid g u name) ∧
    (∀ uid, uid ≠ u → member_at st' g uid = member_at st g uid) ∧
    (((inherited u = false ∨ is_Some (plain_at st g u)) ∧
      st' = join_effect st sid g u name) ∨
     (plain_at st g u = None ∧ inherited_function u = true ∧
      st' = join_adoption st sid g u)).
Proof.
  intros Hok.
  destruct (join_accepted_cases st sid g u name)
    as [Hplain | [[Hnone Hfn] | [Hnone ->]]].
  - rewrite join_accepted_done by done. cbv zeta.
    exists (join_effect st sid g u name). split.
    { assert (rooms (join_effect st sid g u name) =
              socket_join sid g (rooms st)) as -> by done.
      by rewrite subscribers_socket_join. }
    split; [|split; [|by left]].
    + rewrite (member_at_put st _ g u
                 (joined sid name (existing_or_fresh st g u))) by done.
      rewrite decide_True by done. f_equal.
      rewrite <- found_or_fresh_existing by done.
      unfold joined_member, found_or_fresh.
      destruct (plain_at st g u) as [m|]; [done |].
      by destruct Hplain as [-> | [? ?]].
    + intros uid Hne.
      rewrite (member_at_put st _ g u
                 (joined sid name (existing_or_fresh st g u))) by done.
      by rewrite decide_False by (by intros [_ ?]).
  - rewrite join_accepted_adopts by done. cbv zeta.
    exists (join_adoption st sid g u). split.
    { assert (rooms (join_adoption st sid g u) =
              socket_join sid g (rooms st)) as -> by done.
      by rewrite subscribers_socket_join. }
    apply inherited_function_inherited in Hfn as Hinh. destruct Hinh as [Hinh _].
    split; [|split; [|by right]].
    + rewrite (member_at_adoption st _ g u
                 (<["socketId" := VString sid]> (default ∅ (functions st !! u))))
        by done.
      rewrite decide_True by (split; [done |]; split; [done | by left]).
      rewrite function_object_insert by done.
      unfold joined_member. by rewrite Hnone, Hinh.
    + intros uid Hne.
      rewrite (member_at_adoption st _ g u
                 (<["socketId" := VString sid]> (default ∅ (functions st !! u))))
        by done.
      by rewrite decide_False by (by intros [? _]).
  - destruct Hok as [? | [m Hm]]; [done | congruence].
Qed.

(** The body of [location_update], for every user id but [__proto__]. *)
Lemma location_accepted_member (st : state) (sid g u : string)
    (lat lon : float) (sport ts : value) :
  u ≠ "__proto__" ∨ is_Some (plain_at st g u) →
  ∃ st',
    location_accepted st sid g u lat lon sport ts =
      Done st'
        [ ToRoom g (subscribers (rooms st) g)
            (Ev_group_locations (default ∅ (groups st' !! g))) ] ∧
    member_at st' g u =
      Some (located sid lat lon sport ts (found_or_fresh st g u)) ∧
    (∀ uid, uid ≠ u → member_at st' g uid = member_at st g uid) ∧
    rooms st' = rooms st.
Proof.
  intros Hok.
  destruct (join_accepted_cases st sid g u VUndefined)
    as [Hplain | [[Hnone Hfn] | [Hnone ->]]].
  - rewrite location_accepted_done by done. cbv zeta.
    exists (location_effect st sid g u lat lon sport ts).
    split; [done |]. split; [|split; [|done]].
    + rewrite (member_at_put st _ g u
                 (located sid lat lon sport ts (existing_or_fresh st g u)))
        by done.
      rewrite decide_True by done.
      by rewrite found_or_fresh_existing.
    + intros uid Hne.
      rewrite (member_at_put st _ g u
                 (located sid lat lon sport ts (existing_or_fresh st g u)))
        by done.
      by rewrite decide_False by (by intros [_ ?]).
  - rewrite location_accepted_adopts by done.
    exists (location_adoption st sid g u lat lon sport ts). split.
    { assert (groups (location_adoption st sid g u lat lon sport ts) =
              ensure_group g (groups st)) as -> by done.
      rewrite ensure_group_lookup. by rewrite decide_True. }
    apply inherited_function_inherited in Hfn as Hinh. destruct Hinh as [Hinh _].
    split; [|split; [|done]].
    + rewrite (member_at_adoption st _ g u
                 (located sid lat lon sport ts (default ∅ (functions st !! u))))
        by done.
      rewrite decide_True by (split; [done |]; split; [done | by left]).
      rewrite function_object_located.
      unfold found_or_fresh. by rewrite Hnone, Hinh.
    + intros uid Hne.
      rewrite (member_at_adoption st _ g u
                 (located sid lat lon sport ts (default ∅ (functions st !! u))))
        by done.
      by rewrite decide_False by (by intros [? _]).
  - destruct Hok as [? | [m Hm]]; [done | congruence].
Qed.

(** What is found under a user id for which the group holds something. *)
Lemma found_or_fresh_member (st : state) (g u : string) (m : member) :
  member_at st g u = Some m → found_or_fresh st g u = m.
Proof.
  rewrite member_at_cases. unfold found_or_fresh.
  destruct (plain_at st g u) as [m0|]; [by intros [= <-] |].
  case_decide as Hheld; [|done]. intros [= <-].
  apply held_inherited, inherited_function_inherited in Hheld as [-> _]. done.
Qed.

Lemma member_at_not_proto (st : state) (g u : string) :
  is_Some (member_at st g u) →
  u ≠ "__proto__" ∨ is_Some (plain_at st g u).
Proof.
  intros [m Hm]. destruct (decide (u = "__proto__")) as [-> | ?]; [|by left].
  right. rewrite member_at_proto in Hm. by eexists.
Qed.

(** ** The claims *)

(** *** The claims about [join_group] *)

(** C7, as the code has it. A join whose payload is read and converted
    without an exception, and whose group code is empty after trimming and
    upper-casing, or whose user id is empty after trimming, is answered
    with one [error] message to the socket that sent it; the state of the
    process is the one before the event, so no group and no member is
    created, and nothing is sent to a room. *)
Theorem join_rejects_empty_identifiers `{rt : Builtins} (st : state)
    (sid : string) (p : value) (g u : string) :
  group_of p = Some g → userId_of p = Some u → g = "" ∨ u = "" →
  ∃ message,
    join_group st sid p = Done st [ ToSocket sid (Ev_error message) ].
Proof.
  intros Hg Hu Hempty. eexists. by apply (join_group_invalid st sid p g u).
Qed.

Lemma join_rejects_empty_identifiers_witness :
  ∃ message,
    join_group (rt := Ecma.builtins) Scenario.riding "sC" Scenario.no_group =
      Done Scenario.riding [ ToSocket "sC" (Ev_error message) ].
Proof.
  apply (join_rejects_empty_identifiers (rt := Ecma.builtins)
           Scenario.riding "sC" Scenario.no_group "" "carol").
  - vm_compute. reflexivity.
  - vm_compute. reflexivity.
  - left. reflexivity.
Defined.

(** C7, as stated, fails: the group code of this join is empty, and the
    conversion of its user id to a string throws. The handler catches the
    exception and logs it; the socket gets no [error] message. *)
Lemma join_unreadable_user_gets_no_error :
  let p := Scenario.unreadable_join in
  let result := join_group (rt := Ecma.builtins) Scenario.riding "sC" p in
  group_of (rt := Ecma.builtins) p = Some "" ∧
  userId_of (rt := Ecma.builtins) p = None ∧
  result = Done Scenario.riding [] ∧
  ∀ message, result ≠ Done Scenario.riding [ ToSocket "sC" (Ev_error message) ].
Proof.
  cbv zeta. split; [vm_compute; reflexivity |].
  split; [vm_compute; reflexivity |].
  assert (join_group (rt := Ecma.builtins) Scenario.riding "sC"
            Scenario.unreadable_join = Done Scenario.riding []) as ->
    by reflexivity.
  split; [reflexivity |]. intros message Heq.
  apply (f_equal emitted) in Heq. discriminate Heq.
Qed.

(** C8. A join that passes validation emits two messages, in this order:
    [group_state] with the snapshot, to the joining socket, and then
    [member_joined] with the user id and the name, to the room of the group.
    The room is read after [socket.join], so its recipients are the sockets
    that were in the room together with the joining socket. (The user id
    names no inherited property.) *)
Theorem join_snapshot_precedes_member_joined `{rt : Builtins} (st : state)
    (sid : string) (p : value) (g u : string) :
  group_of p = Some g → userId_of p = Some u → g ≠ "" → u ≠ "" →
  inherited u = false →
  ∃ st' snapshot recipients,
    join_group st sid p =
      Done st' [ ToSocket sid (Ev_group_state snapshot);
                 ToRoom g recipients (Ev_member_joined u (name_of p)) ] ∧
    recipients = subscribers (rooms st') g ∧
    recipients = {[sid]} ∪ subscribers (rooms st) g ∧
    sid ∈ recipients.
Proof.
  intros Hg Hu Hg0 Hu0 Hplain.
  rewrite (join_group_valid st sid p g u Hg Hu Hg0 Hu0).
  rewrite join_accepted_done by (by left). cbv zeta.
  eexists _, _, _. split; [reflexivity |].
  assert (rooms (join_effect st sid g u (name_of p)) =
          socket_join sid g (rooms st)) as -> by done.
  rewrite subscribers_socket_join. split; [done |]. split; [done |].
  apply elem_of_union_l. by apply elem_of_singleton.
Qed.

Lemma join_snapshot_precedes_member_joined_witness :
  ∃ st' snapshot recipients,
    join_group (rt := Ecma.builtins) Scenario.alice_offline "sA2"
        Scenario.alice_rejoins =
      Done st' [ ToSocket "sA2" (Ev_group_state snapshot);
                 ToRoom "RIDE32" recipients
                   (Ev_member_joined "alice-9f2k" (VString "Anonymous")) ] ∧
    recipients = subscribers (rooms st') "RIDE32" ∧
    recipients = {["sA2"]} ∪ subscribers (rooms Scenario.alice_offline) "RIDE32" ∧
    "sA2" ∈ recipients.
Proof.
  apply (join_snapshot_precedes_member_joined (rt := Ecma.builtins)
           Scenario.alice_offline "sA2" Scenario.alice_rejoins
           "RIDE32" "alice-9f2k").
  - vm_compute. reflexivity.
  - vm_compute. reflexivity.
  - discriminate.
  - discriminate.
  - vm_compute. reflexivity.
Defined.

(** C2. A join that passes validation, from [sid] for the user id [u] in
    the group [g], sends to [sid] the [group_state] snapshot of the group
    as the join leaves it, and then [member_joined] to the room. The state
    it leaves is [join_effect], or [join_adoption] when what it found under
    [u] is a function. What the group holds under [u] is what the join made
    of what it found there ([joined_member]: the record with the name and
    the socket of the join); under every other user id it holds what it
    held before. The snapshot has one entry for each of these and no other
    entry; the entry of a member is the copy of its [userId], [name],
    [lat], [lon], [sport] and [updatedAt], whether or not the member has a
    [socketId], so a member that went offline is there with the position
    and the time it had; and no entry has a [socketId] property. (The user
    id is not [__proto__], and the group has no own property named
    [__proto__], which no handler creates: [reachable_no_proto_member].) *)
Theorem join_snapshot_covers_members `{rt : Builtins} (st : state)
    (sid : string) (p : value) (g u : string) :
  group_of p = Some g → userId_of p = Some u → g ≠ "" → u ≠ "" →
  u ≠ "__proto__" → member_at st g "__proto__" = None →
  ∃ st' snapshot,
    join_group st sid p =
      Done st' [ ToSocket sid (Ev_group_state snapshot);
                 ToRoom g ({[sid]} ∪ subscribers (rooms st) g)
                   (Ev_member_joined u (name_of p)) ] ∧
    (inherited u = false → st' = join_effect st sid g u (name_of p)) ∧
    (inherited u = true → plain_at st g u = None →
     st' = join_adoption st sid g u) ∧
    member_at st' g u = Some (joined_member st sid g u (name_of p)) ∧
    (∀ uid, uid ≠ u → member_at st' g uid = member_at st g uid) ∧
    (∀ uid, snapshot !! uid = sanitizeMember <$> member_at st' g uid) ∧
    (∀ uid, is_Some (snapshot !! uid) ↔
            uid = u ∨ is_Some (member_at st g uid)) ∧
    (∀ uid m, member_at st' g uid = Some m →
       ∃ entry, snapshot !! uid = Some entry ∧
         entry !! "socketId" = None ∧
         entry !! "userId" = Some (prop m "userId") ∧
         entry !! "name" = Some (prop m "name") ∧
         entry !! "lat" = Some (prop m "lat") ∧
         entry !! "lon" = Some (prop m "lon") ∧
         entry !! "sport" = Some (prop m "sport") ∧
         entry !! "updatedAt" = Some (prop m "updatedAt")) ∧
    (∀ uid entry, snapshot !! uid = Some entry → entry !! "socketId" = None).
Proof.
  intros Hg Hu Hg0 Hu0 Hproto Hnone.
  rewrite (join_group_valid st sid p g u Hg Hu Hg0 Hu0).
  destruct (join_accepted_member st sid g u (name_of p))
    as (st' & -> & Hjoined & Hothers & Hstate); [by left |].
  eexists st', _. split; [reflexivity |].
  split.
  { intros Hinh. destruct Hstate as [[_ ->] | (_ & Hfn & _)]; [done |].
    apply inherited_function_inherited in Hfn as [Hfn _]. congruence. }
  split.
  { intros Hinh Hnone'. destruct Hstate as [[Hplain _] | (_ & _ & ->)]; [|done].
    destruct Hplain as [Hplain | [m Hm]]; congruence. }
  split; [exact Hjoined |]. split; [exact Hothers |].
  assert (∀ uid, sanitizeGroup (group_view st' g) !! uid =
                 sanitizeMember <$> member_at st' g uid) as Hsnap.
  { intros uid. apply snapshot_lookup.
    rewrite Hothers by (intros Heq; by apply Hproto). exact Hnone. }
  split; [exact Hsnap |]. split; [|split].
  - intros uid. rewrite Hsnap, fmap_is_Some.
    destruct (decide (uid = u)) as [-> | Hne].
    + rewrite Hjoined. split; [by left | by eexists].
    + rewrite Hothers by done. split; [by right |]. by intros [? | ?].
  - intros uid m Hm. exists (sanitizeMember m).
    rewrite Hsnap, Hm. split; [done |].
    by rewrite !sanitizeMember_lookup.
  - intros uid entry Hentry. rewrite Hsnap in Hentry.
    destruct (member_at st' g uid) as [m|]; [|discriminate].
    injection Hentry as <-. apply sanitizeMember_no_socketId.
Qed.

Lemma join_snapshot_covers_members_witness :
  ∃ st' snapshot,
    join_group (rt := Ecma.builtins) Scenario.alice_offline "sB2"
        Scenario.bob_joins =
      Done st' [ ToSocket "sB2" (Ev_group_state snapshot);
                 ToRoom "RIDE32"
                   ({["sB2"]} ∪ subscribers (rooms Scenario.alice_offline) "RIDE32")
                   (Ev_member_joined "bob-3q1x"
                      (name_of Scenario.bob_joins)) ] ∧
    (inherited "bob-3q1x" = false →
     st' = join_effect Scenario.alice_offline "sB2" "RIDE32" "bob-3q1x"
             (name_of Scenario.bob_joins)) ∧
    (inherited "bob-3q1x" = true →
     plain_at Scenario.alice_offline "RIDE32" "bob-3q1x" = None →
     st' = join_adoption Scenario.alice_offline "sB2" "RIDE32" "bob-3q1x") ∧
    member_at st' "RIDE32" "bob-3q1x" =
      Some (joined_member Scenario.alice_offline "sB2" "RIDE32" "bob-3q1x"
              (name_of Scenario.bob_joins)) ∧
    (∀ uid, uid ≠ "bob-3q1x" →
       member_at st' "RIDE32" uid = member_at Scenario.alice_offline "RIDE32" uid) ∧
    (∀ uid, snapshot !! uid = sanitizeMember <$> member_at st' "RIDE32" uid) ∧
    (∀ uid, is_Some (snapshot !! uid) ↔
            uid = "bob-3q1x" ∨
            is_Some (member_at Scenario.alice_offline "RIDE32" uid)) ∧
    (∀ uid m, member_at st' "RIDE32" uid = Some m →
       ∃ entry, snapshot !! uid = Some entry ∧
         entry !! "socketId" = None ∧
         entry !! "userId" = Some (prop m "userId") ∧
         entry !! "name" = Some (prop m "name") ∧
         entry !! "lat" = Some (prop m "lat") ∧
         entry !! "lon" = Some (prop m "lon") ∧
         entry !! "sport" = Some (prop m "sport") ∧
         entry !! "updatedAt" = Some (prop m "updatedAt")) ∧
    (∀ uid entry, snapshot !! uid = Some entry → entry !! "socketId" = None).
Proof.
  apply (join_snapshot_covers_members (rt := Ecma.builtins)
           Scenario.alice_offline "sB2" Scenario.bob_joins
           "RIDE32" "bob-3q1x").
  - vm_compute. reflexivity.
  - vm_compute. reflexivity.
  - discriminate.
  - discriminate.
  - discriminate.
  - vm_compute. reflexivity.
Defined.

(** The snapshot of the scenario, entry by entry: A is offline and is there
    with the position it reported; B is there under the name it gave. *)
Example bob_rejoins_snapshot :
  let result :=
    join_group (rt := Ecma.builtins) Scenario.alice_offline "sB2"
      Scenario.bob_joins in
  emitted result =
    [ ToSocket "sB2"
        (Ev_group_state
           {[ "alice-9f2k" :=
                {[ "userId" := VString "alice-9f2k"; "name" := VString "Alice";
                   "lat" := VNumber 45.25; "lon" := VNumber (-121.75);
                   "sport" := VString "unknown";
                   "updatedAt" := VNumber 1700000000000 ]};
              "bob-3q1x" :=
                {[ "userId" := VString "bob-3q1x"; "name" := VString "Bob";
                   "lat" := VUndefined; "lon" := VUndefined;
                   "sport" := VUndefined; "updatedAt" := VUndefined ]} ]});
      ToRoom "RIDE32" {[ "sB"; "sB2" ]}
        (Ev_member_joined "bob-3q1x" (VString "Bob")) ].
Proof. cbv zeta. reflexivity. Qed.

(** A join under the name of an inherited function completes: the group
    holds the function, and the snapshot has an entry for it, with the name
    of the function and no user id. *)
Example tina_joins_snapshot :
  let result :=
    join_group (rt := Ecma.builtins) Scenario.riding "sT"
      Scenario.tina_joins_ride in
  (state_of result ≫= λ st, member_at st "RIDE32" "toString") =
    Some {[ "name" := VString "toString"; "socketId" := VString "sT" ]} ∧
  (∃ snapshot notice,
     emitted result = [ ToSocket "sT" (Ev_group_state snapshot); notice ] ∧
     snapshot !! "toString" =
       Some {[ "userId" := VUndefined; "name" := VString "toString";
               "lat" := VUndefined; "lon" := VUndefined;
               "sport" := VUndefined; "updatedAt" := VUndefined ]} ∧
     notice = ToRoom "RIDE32" {[ "sA"; "sB"; "sT" ]}
                (Ev_member_joined "toString" (VString "Tina"))).
Proof.
  cbv zeta. split; [reflexivity |].
  eexists _, _. split; [reflexivity |]. split; reflexivity.
Qed.

(** *** The claims about [location_update] *)

(** C3, as the code has it. A location update whose latitude or longitude
    is NaN after coercion (an absent value, a string that is no numeric
    literal), or cannot be coerced at all, leaves the state of the process
    as it was and emits nothing: no broadcast and no error message. *)
Theorem location_update_ignores_nan `{rt : Builtins} (st : state)
    (sid : string) (now : float) (p : value) :
  unusable (lat_of p) = true ∨ unusable (lon_of p) = true →
  location_update st sid now p = Done st [].
Proof. intros Hbad. by apply location_update_nan. Qed.

Lemma location_update_ignores_nan_witness :
  lat_of (rt := Ecma.builtins) Scenario.bad_fix = Some nan ∧
  location_update (rt := Ecma.builtins) Scenario.riding "sA" Scenario.t2
    Scenario.bad_fix = Done Scenario.riding [] ∧
  lat_of (rt := Ecma.builtins) Scenario.bob_leaves = Some nan ∧
  location_update (rt := Ecma.builtins) Scenario.riding "sA" Scenario.t2
    Scenario.bob_leaves = Done Scenario.riding [].
Proof.
  split; [vm_compute; reflexivity |]. split.
  - apply (location_update_ignores_nan (rt := Ecma.builtins)
             Scenario.riding "sA" Scenario.t2 Scenario.bad_fix).
    left. vm_compute. reflexivity.
  - split; [vm_compute; reflexivity |].
    apply (location_update_ignores_nan (rt := Ecma.builtins)
             Scenario.riding "sA" Scenario.t2 Scenario.bob_leaves).
    left. vm_compute. reflexivity.
Defined.

(** C3, as stated, fails: the string [Infinity] does not coerce to a finite
    number, it is not NaN either, and the update is stored and broadcast. *)
Lemma location_update_stores_infinity :
  let before := Scenario.riding in
  let result :=
    location_update (rt := Ecma.builtins) before "sA" Scenario.t2
      Scenario.infinite_fix in
  lat_of (rt := Ecma.builtins) Scenario.infinite_fix = Some infinity ∧
  Number_isFinite infinity = false ∧
  member_at before "RIDE32" "alice-9f2k" ≫= (.!! "lat") =
    Some (VNumber 45.25) ∧
  (state_of result ≫= λ after,
     member_at after "RIDE32" "alice-9f2k" ≫= (.!! "lat")) =
    Some (VNumber infinity) ∧
  broadcasts_for "RIDE32" (emitted result) = 1 ∧
  result ≠ Done before [].
Proof.
  cbv zeta. repeat (split; [vm_compute; reflexivity |]).
  intros Heq.
  assert (broadcasts_for "RIDE32"
            (emitted (location_update (rt := Ecma.builtins) Scenario.riding
                        "sA" Scenario.t2 Scenario.infinite_fix)) = 1)
    as Hone by (vm_compute; reflexivity).
  rewrite Heq in Hone. discriminate Hone.
Qed.

(** The update of the auto-join for a user id that names no inherited
    property: the group comes to exist, the member has a record with the
    position, the activity, the time and the socket of the update, and the
    room of the group gets the full member mapping. *)
Lemma location_update_materializes `{rt : Builtins} (st : state)
    (sid : string) (now : float) (p : value) (g u : string)
    (lat lon : float) :
  group_of p = Some g → userId_of p = Some u → g ≠ "" → u ≠ "" →
  lat_of p = Some lat → lon_of p = Some lon →
  Number_isNaN lat = false → Number_isNaN lon = false →
  inherited u = false ∨ is_Some (plain_at st g u) →
  ∃ st' ms,
    location_update st sid now p =
      Done st' [ ToRoom g (subscribers (rooms st) g) (Ev_group_locations ms) ] ∧
    groups st' !! g = Some ms ∧
    ms !! u = Some (located sid lat lon (sport_of p) (timestamp_of now p)
                      (existing_or_fresh st g u)) ∧
    rooms st' = rooms st.
Proof.
  intros Hg Hu Hg0 Hu0 Hlat Hlon Hn1 Hn2 Hplain.
  rewrite (location_update_valid st sid now p g u lat lon) by done.
  rewrite location_accepted_done by done. cbv zeta.
  eexists _, _. split; [reflexivity |].
  assert (groups (location_effect st sid g u lat lon (sport_of p)
                    (timestamp_of now p)) =
          put_member (groups st) g u
            (located sid lat lon (sport_of p) (timestamp_of now p)
               (existing_or_fresh st g u))) as -> by done.
  rewrite put_member_lookup, decide_True by done.
  cbn [default from_option id]. split; [done |].
  by rewrite lookup_insert_eq.
Qed.

(** A first update from [dave] in a group nobody joined: the group and the
    record come to exist; nobody is in the room. *)
Example dave_is_materialized :
  let result :=
    location_update (rt := Ecma.builtins) initial "sD" Scenario.t2
      Scenario.dave_moves in
  (state_of result ≫= λ st, member_at st "POWDER" "dave") =
    Some {[ "userId" := VString "dave"; "lat" := VNumber 46.5;
            "lon" := VNumber 7.75; "sport" := VString "unknown";
            "updatedAt" := VNumber Scenario.t2; "socketId" := VString "sD" ]} ∧
  broadcasts_for "POWDER" (emitted result) = 1.
Proof. cbv zeta. split; vm_compute; reflexivity. Qed.

(** C4 on the code: with the user id [__proto__] no record is stored. The
    group is created and stays empty; the position goes to the prototype of
    all objects. *)
Lemma location_update_proto_stores_no_member :
  location_update (rt := Ecma.builtins) initial "sD" Scenario.t2
    Scenario.proto_moves = WritesObjectPrototype {[ "POWDER" := ∅ ]}.
Proof. vm_compute. reflexivity. Qed.

(** C10. An accepted location update stores the caller's timestamp when it
    is truthy and the time of receipt otherwise; the number 0 is not truthy,
    so a caller that supplies 0 gets the time of receipt. (The user id names
    no inherited property.) *)
Theorem location_update_timestamp `{rt : Builtins} (st : state)
    (sid : string) (now : float) (p : value) (g u : string)
    (lat lon : float) :
  group_of p = Some g → userId_of p = Some u → g ≠ "" → u ≠ "" →
  lat_of p = Some lat → lon_of p = Some lon →
  Number_isNaN lat = false → Number_isNaN lon = false →
  inherited u = false →
  ∃ st' out m,
    location_update st sid now p = Done st' out ∧
    member_at st' g u = Some m ∧
    m !! "updatedAt" =
      Some (if truthy (supplied_timestamp p) then supplied_timestamp p
            else VNumber now) ∧
    (supplied_timestamp p = VNumber 0 → m !! "updatedAt" = Some (VNumber now)).
Proof.
  intros Hg Hu Hg0 Hu0 Hlat Hlon Hn1 Hn2 Hplain.
  rewrite (location_update_valid st sid now p g u lat lon) by done.
  destruct (location_accepted_member st sid g u lat lon (sport_of p)
              (timestamp_of now p))
    as (st' & -> & Hm & _); [left; by intros -> |].
  eexists st', _, _. split; [reflexivity |]. split; [exact Hm |].
  rewrite located_lookup. simpl. unfold timestamp_of, js_or.
  split; [done |]. by intros ->.
Qed.

Lemma location_update_timestamp_witness :
  ∃ st' out m,
    location_update (rt := Ecma.builtins) Scenario.alice_offline "sA2"
      Scenario.t2 Scenario.alice_moves_again = Done st' out ∧
    member_at st' "RIDE32" "alice-9f2k" = Some m ∧
    m !! "updatedAt" =
      Some (if truthy (supplied_timestamp Scenario.alice_moves_again)
            then supplied_timestamp Scenario.alice_moves_again
            else VNumber Scenario.t2) ∧
    (supplied_timestamp Scenario.alice_moves_again = VNumber 0 →
     m !! "updatedAt" = Some (VNumber Scenario.t2)).
Proof.
  apply (location_update_timestamp (rt := Ecma.builtins)
           Scenario.alice_offline "sA2" Scenario.t2
           Scenario.alice_moves_again "RIDE32" "alice-9f2k" 45.5 (-121.5)).
  - vm_compute. reflexivity.
  - vm_compute. reflexivity.
  - discriminate.
  - discriminate.
  - vm_compute. reflexivity.
  - vm_compute. reflexivity.
  - vm_compute. reflexivity.
  - vm_compute. reflexivity.
  - vm_compute. reflexivity.
Defined.

(** *** The claims about [disconnect] and [leave_group] *)

(** C1. When the socket of a member closes, the member stays in its group:
    its record loses [socketId] and keeps every other property, so the
    position, [updatedAt] and the name are the ones stored before. A later
    join with that user id in that group finds this record and sets
    [socketId] again, the position and [updatedAt] being still the stored
    ones; a later accepted location update finds this record too, sets
    [socketId] again and replaces the position by the one it reports. *)
Theorem disconnect_keeps_member `{rt : Builtins} (st : state)
    (sid g u : string) (m : member) :
  member_at st g u = Some m → online_on sid m →
  let offline_st := (disconnect st sid).1 in
  member_at offline_st g u = Some (delete "socketId" m) ∧
  (∀ k, k ≠ "socketId" → delete "socketId" m !! k = m !! k) ∧
  delete "socketId" m !! "socketId" = None ∧
  (∀ sid' p, group_of p = Some g → userId_of p = Some u → g ≠ "" → u ≠ "" →
     ∃ st' out m',
       join_group offline_st sid' p = Done st' out ∧
       member_at st' g u = Some m' ∧
       online_on sid' m' ∧
       m' !! "lat" = m !! "lat" ∧ m' !! "lon" = m !! "lon" ∧
       m' !! "updatedAt" = m !! "updatedAt") ∧
  (∀ sid' now p lat lon,
     group_of p = Some g → userId_of p = Some u → g ≠ "" → u ≠ "" →
     lat_of p = Some lat → lon_of p = Some lon →
     Number_isNaN lat = false → Number_isNaN lon = false →
     ∃ st' out m',
       location_update offline_st sid' now p = Done st' out ∧
       member_at st' g u = Some m' ∧
       online_on sid' m' ∧
       m' !! "lat" = Some (VNumber lat) ∧ m' !! "lon" = Some (VNumber lon) ∧
       m' !! "name" = m !! "name" ∧ m' !! "userId" = m !! "userId").
Proof.
  intros Hm Hon offline_st.
  assert (member_at offline_st g u = Some (delete "socketId" m)) as Hoff.
  { unfold offline_st. rewrite disconnect_member_at, Hm. simpl.
    by rewrite offline_online. }
  assert (u ≠ "__proto__" ∨ is_Some (plain_at offline_st g u)) as Hok.
  { apply member_at_not_proto. rewrite Hoff. by eexists. }
  pose proof (found_or_fresh_member offline_st g u _ Hoff) as Hfound.
  split; [exact Hoff |].
  split; [intros k Hk; by rewrite lookup_delete_ne |].
  split; [apply lookup_delete_eq |]. split.
  - intros sid' p Hg Hu Hg0 Hu0.
    rewrite (join_group_valid offline_st sid' p g u Hg Hu Hg0 Hu0).
    destruct (join_accepted_member offline_st sid' g u (name_of p) Hok)
      as (st' & -> & Hjoined & _).
    eexists st', _, _. split; [reflexivity |]. split; [exact Hjoined |].
    unfold online_on, joined_member. unfold found_or_fresh in Hfound.
    destruct (plain_at offline_st g u) as [m0|].
    + subst m0. rewrite !joined_lookup. simpl.
      by rewrite !lookup_delete_ne.
    + destruct (inherited u).
      * rewrite Hfound, lookup_insert_eq, !lookup_insert_ne by done.
        by rewrite !lookup_delete_ne.
      * rewrite !joined_lookup. simpl. rewrite Hfound.
        by rewrite !lookup_delete_ne.
  - intros sid' now p lat lon Hg Hu Hg0 Hu0 Hlat Hlon Hn1 Hn2.
    rewrite (location_update_valid offline_st sid' now p g u lat lon) by done.
    destruct (location_accepted_member offline_st sid' g u lat lon (sport_of p)
                (timestamp_of now p) Hok) as (st' & -> & Hlocated & _).
    eexists st', _, _. split; [reflexivity |]. split; [exact Hlocated |].
    unfold online_on. rewrite Hfound, !located_lookup. simpl.
    by rewrite !lookup_delete_ne.
Qed.

Lemma disconnect_keeps_member_witness :
  member_at Scenario.alice_offline "RIDE32" "alice-9f2k" =
    Some {[ "userId" := VString "alice-9f2k"; "name" := VString "Alice";
            "lat" := VNumber 45.25; "lon" := VNumber (-121.75);
            "sport" := VString "unknown";
            "updatedAt" := VNumber 1700000000000 ]} ∧
  (∃ st' out m',
     join_group (rt := Ecma.builtins) Scenario.alice_offline "sA2"
       Scenario.alice_rejoins = Done st' out ∧
     member_at st' "RIDE32" "alice-9f2k" = Some m' ∧
     online_on "sA2" m' ∧
     m' !! "lat" = Some (VNumber 45.25) ∧
     m' !! "lon" = Some (VNumber (-121.75)) ∧
     m' !! "updatedAt" = Some (VNumber 1700000000000)) ∧
  (∃ st' out m',
     location_update (rt := Ecma.builtins) Scenario.alice_offline "sA2"
       Scenario.t2 Scenario.alice_moves_again = Done st' out ∧
     member_at st' "RIDE32" "alice-9f2k" = Some m' ∧
     online_on "sA2" m' ∧
     m' !! "lat" = Some (VNumber 45.5) ∧
     m' !! "lon" = Some (VNumber (-121.5)) ∧
     m' !! "name" = Some (VString "Alice") ∧
     m' !! "userId" = Some (VString "alice-9f2k")).
Proof.
  destruct (disconnect_keeps_member (rt := Ecma.builtins) Scenario.riding
              "sA" "RIDE32" "alice-9f2k"
              {[ "userId" := VString "alice-9f2k"; "name" := VString "Alice";
                 "lat" := VNumber 45.25; "lon" := VNumber (-121.75);
                 "sport" := VString "unknown";
                 "updatedAt" := VNumber 1700000000000;
                 "socketId" := VString "sA" ]})
    as (Hoff & _ & _ & Hjoin & Hmove).
  - vm_compute. reflexivity.
  - vm_compute. reflexivity.
  - split; [vm_compute; reflexivity |]. split.
    + apply (Hjoin "sA2" Scenario.alice_rejoins).
      * vm_compute. reflexivity.
      * vm_compute. reflexivity.
      * discriminate.
      * discriminate.
    + apply (Hmove "sA2" Scenario.t2 Scenario.alice_moves_again 45.5%float (-121.5)%float).
      * vm_compute. reflexivity.
      * vm_compute. reflexivity.
      * discriminate.
      * discriminate.
      * vm_compute. reflexivity.
      * vm_compute. reflexivity.
      * vm_compute. reflexivity.
      * vm_compute. reflexivity.
Defined.

(** Where no group holds a function that carries the id of the closed
    socket, [disconnect] emits [group_locations] broadcasts and nothing
    else: one to the room of every group that had a member on the closed
    socket, however many such members the group had, and none to any other
    room. *)
Lemma disconnect_broadcasts_per_group (st : state) (sid : string) :
  (∀ g k, k ∈ held st g → ¬ function_online sid (functions st) k) →
  let out := (disconnect st sid).2 in
  (∀ g ms, groups st !! g = Some ms → affected sid ms →
           broadcasts_for g out = 1) ∧
  (∀ g ms, groups st !! g = Some ms → ¬ affected sid ms →
           broadcasts_for g out = 0) ∧
  (∀ g, groups st !! g = None → broadcasts_for g out = 0) ∧
  (∀ e, e ∈ out →
     ∃ g ms recipients,
       groups st !! g = Some ms ∧ affected sid ms ∧
       e = ToRoom g recipients (Ev_group_locations (all_offline sid ms))).
Proof.
  intros Hnone out. unfold out. split; [|split; [|split]].
  - intros g ms Hg Haff.
    destruct (disconnect_counts st sid g) as (_ & Hone & _). by apply (Hone ms).
  - intros g ms Hg Haff.
    destruct (disconnect_counts st sid g) as (_ & _ & Hzero).
    apply (Hzero ms); [done | done |]. intros k. apply Hnone.
  - intros g Hg. destruct (disconnect_counts st sid g) as (Hzero & _).
    by apply Hzero.
  - intros e He.
    destruct (disconnect_emitted st sid e He)
      as (g & ms & Hg & -> & [Haff | (k & Hk & Hon)]).
    + by eexists g, ms, _.
    + by destruct (Hnone g k Hk).
Qed.

(** Two groups with members on one socket, one of them with two. *)
Example disconnect_two_groups :
  let alice := {[ "userId" := VString "alice"; "socketId" := VString "sA" ]} in
  let alex := {[ "userId" := VString "alex"; "socketId" := VString "sA" ]} in
  let bob := {[ "userId" := VString "bob"; "socketId" := VString "sB" ]} in
  let st := {| groups := {[ "RIDE32" := {[ "alice" := alice; "alex" := alex ]};
                             "POWDER" := {[ "alice" := alice; "bob" := bob ]};
                             "APRES" := {[ "bob" := bob ]} ]};
               adopted := ∅;
               functions := ∅;
               order := ["RIDE32"; "POWDER"; "APRES"];
               rooms := ∅ |} in
  map (λ g, broadcasts_for g (disconnect st "sA").2)
      ["RIDE32"; "POWDER"; "APRES"] = [1; 1; 0] ∧
  length (disconnect st "sA").2 = 2.
Proof. vm_compute. done. Qed.

(** C6 on the code: a client on the socket [sT] has joined RIDE32 and
    POWDER under the user id [toString]. Both groups hold, under that name,
    the one function that every [members] object inherits, and the function
    carries the id of the socket. When the socket closes, the sweep of
    RIDE32 deletes the id from the function and broadcasts; the sweep of
    POWDER finds the function without the id, so POWDER, whose member went
    offline too, gets no broadcast. *)
Lemma disconnect_skips_group_sharing_function :
  let st := Scenario.two_groups in
  let closed := disconnect st "sT" in
  (member_at st "RIDE32" "toString" ≫= (.!! "socketId")) =
    Some (VString "sT") ∧
  (member_at st "POWDER" "toString" ≫= (.!! "socketId")) =
    Some (VString "sT") ∧
  (member_at closed.1 "RIDE32" "toString" ≫= (.!! "socketId")) = None ∧
  (member_at closed.1 "POWDER" "toString" ≫= (.!! "socketId")) = None ∧
  closed.2 =
    [ ToRoom "RIDE32" {[ "sA"; "sB" ]}
        (Ev_group_locations (members_of (groups st) "RIDE32")) ] ∧
  broadcasts_for "RIDE32" closed.2 = 1 ∧
  broadcasts_for "POWDER" closed.2 = 0.
Proof. cbv zeta. repeat split; reflexivity. Qed.

(** C9 on the code: after A and B joined and A reported a position, the
    closing of A's socket broadcasts the records as they are stored. A's
    entry keeps the position and [updatedAt] and has no [socketId]; B's
    entry carries the id of B's socket. *)
Lemma disconnect_broadcast_carries_socketId :
  let ms := all_offline "sA" (members_of (groups Scenario.riding) "RIDE32") in
  (disconnect Scenario.riding "sA").2 =
    [ ToRoom "RIDE32" {[ "sB" ]} (Ev_group_locations ms) ] ∧
  ms !! "alice-9f2k" ≫= (.!! "lat") = Some (VNumber 45.25) ∧
  ms !! "alice-9f2k" ≫= (.!! "lon") = Some (VNumber (-121.75)) ∧
  ms !! "alice-9f2k" ≫= (.!! "updatedAt") = Some (VNumber 1700000000000) ∧
  ms !! "alice-9f2k" ≫= (.!! "socketId") = None ∧
  ms !! "bob-3q1x" ≫= (.!! "socketId") = Some (VString "sB").
Proof. cbv zeta. repeat split; vm_compute; reflexivity. Qed.

(** Leaving twice with a user id that names no inherited property: the
    second leave finds the state the first one left and emits nothing. *)
Lemma leave_group_twice `{rt : Builtins} (st : state) (sid : string)
    (p : value) :
  (∀ u, userId_of p = Some u → inherited u = false) →
  leave_group (leave_group st sid p).1 sid p = ((leave_group st sid p).1, []).
Proof.
  intros Hplain.
  destruct (leave_group_cases sid p) as [Hdrop | (g & u & Hu & Hrun)].
  { by rewrite !Hdrop. }
  specialize (Hplain u Hu). rewrite !Hrun.
  rewrite (leave_accepted_absent (leave_accepted st sid g u).1 sid g u).
  - f_equal. rewrite leave_accepted_rooms, socket_leave_idemp.
    rewrite <- (leave_accepted_rooms st sid g u).
    by destruct (leave_accepted st sid g u).1.
  - rewrite plain_at_leave. by rewrite decide_True.
  - done.
Qed.

(** C5 on the code: [toString] is not a member of RIDE32, yet a leave for
    it passes the membership test, removes nothing and broadcasts; so does
    the second leave. *)
Lemma leave_inherited_name_broadcasts_again :
  let first :=
    leave_group (rt := Ecma.builtins) Scenario.riding "sB"
      Scenario.toString_leaves in
  let second :=
    leave_group (rt := Ecma.builtins) first.1 "sB" Scenario.toString_leaves in
  member_at Scenario.riding "RIDE32" "toString" = None ∧
  groups first.1 = groups Scenario.riding ∧
  groups second.1 = groups Scenario.riding ∧
  broadcasts_for "RIDE32" first.2 = 1 ∧
  broadcasts_for "RIDE32" second.2 = 1.
Proof. cbv zeta. repeat split; vm_compute; reflexivity. Qed.

(** ** Further properties of the handlers *)

(** *** Where a handler writes *)

Lemma put_member_size (gs : registry) (g u : string) (m : member) :
  size (put_member gs g u m) =
    match gs !! g with Some _ => size gs | None => S (size gs) end.
Proof.
  unfold put_member. destruct (gs !! g) as [ms|] eqn:Hg.
  - by apply map_size_insert_Some.
  - by apply map_size_insert_None.
Qed.

Lemma ensure_group_size (gs : registry) (g : string) :
  size (ensure_group g gs) =
    match gs !! g with Some _ => size gs | None => S (size gs) end.
Proof.
  unfold ensure_group. destruct (gs !! g) as [ms|] eqn:Hg; [done |].
  by apply map_size_insert_None.
Qed.

Lemma subscribers_socket_leave (sid g : string) (rs : gmap string (gset string))
    (r : string) :
  subscribers (socket_leave sid g rs) r =
    if decide (g = r) then subscribers rs r ∖ {[sid]} else subscribers rs r.
Proof.
  unfold subscribers, socket_leave.
  destruct (rs !! g) as [ids|] eqn:Hg.
  - destruct (decide (ids ∖ {[sid]} = ∅)) as [Hempty | Hne].
    + destruct (decide (g = r)) as [<- | Hgr].
      * by rewrite lookup_delete_eq, Hg.
      * by rewrite lookup_delete_ne.
    + destruct (decide (g = r)) as [<- | Hgr].
      * by rewrite lookup_insert_eq, Hg.
      * by rewrite lookup_insert_ne.
  - destruct (decide (g = r)) as [<- | Hgr]; [|done].
    rewrite Hg. simpl. apply set_eq. intros x.
    rewrite elem_of_difference, elem_of_empty. tauto.
Qed.

Lemma subscribers_socket_join_other (sid g : string)
    (rs : gmap string (gset string)) (r : string) :
  g ≠ r → subscribers (socket_join sid g rs) r = subscribers rs r.
Proof.
  intros Hne. unfold subscribers at 1, socket_join.
  by rewrite lookup_insert_ne.
Qed.

Lemma all_offline_lookup (sid : string) (ms : members) (u : string) :
  all_offline sid ms !! u = offline sid <$> ms !! u.
Proof. unfold all_offline. apply lookup_fmap. Qed.

Lemma all_offline_unaffected (sid : string) (ms : members) :
  ¬ affected sid ms → all_offline sid ms = ms.
Proof.
  intros Hno. apply map_eq. intros u. rewrite all_offline_lookup.
  destruct (ms !! u) as [m|] eqn:Hm; [|done]. simpl.
  rewrite offline_not_online; [done |]. intros Hon. apply Hno. by exists u, m.
Qed.

Lemma all_offline_not_affected (sid : string) (ms : members) :
  ¬ affected sid (all_offline sid ms).
Proof.
  intros (u & m & Hm & Hon). rewrite all_offline_lookup in Hm.
  destruct (ms !! u) as [m0|]; [|done]. injection Hm as <-.
  by apply (offline_not_online_after sid m0).
Qed.

Lemma socket_leave_all_lookup (sid : string) (rs : gmap string (gset string))
    (r : string) :
  socket_leave_all sid rs !! r =
    ids ← rs !! r;
    if decide (ids ∖ {[sid]} = ∅) then None else Some (ids ∖ {[sid]}).
Proof.
  unfold socket_leave_all. rewrite map_lookup_filter, lookup_fmap.
  destruct (rs !! r) as [ids|]; simpl; [|done].
  destruct (decide (ids ∖ {[sid]} = ∅)) as [Hempty | Hne].
  - rewrite option_guard_False; [done |]. simpl. by intros ?.
  - by rewrite option_guard_True.
Qed.

Lemma socket_leave_all_idemp (sid : string) (rs : gmap string (gset string)) :
  socket_leave_all sid (socket_leave_all sid rs) = socket_leave_all sid rs.
Proof.
  apply map_eq. intros r. rewrite !socket_leave_all_lookup.
  destruct (rs !! r) as [ids|]; simpl; [|done].
  destruct (decide (ids ∖ {[sid]} = ∅)) as [Hempty | Hne]; simpl; [done |].
  assert (ids ∖ {[sid]} ∖ {[sid]} = ids ∖ {[sid]}) as ->.
  { apply set_eq. intros x. rewrite !elem_of_difference. tauto. }
  by rewrite decide_False.
Qed.

(** Two states with the same components are the same state. *)
Lemma state_eq (st st' : state) :
  groups st = groups st' → adopted st = adopted st' →
  functions st = functions st' → order st = order st' →
  rooms st = rooms st' → st = st'.
Proof. destruct st, st'. simpl. by intros -> -> -> -> ->. Qed.

(** What a group holds after a join or an update that found a record or
    nothing: the member of the event in its place, and for the rest what
    it held. *)
Lemma member_at_join_effect (st : state) (sid g u : string) (name : value)
    (g' u' : string) :
  member_at (join_effect st sid g u name) g' u' =
    if decide (g = g' ∧ u = u')
    then Some (joined sid name (existing_or_fresh st g u))
    else member_at st g' u'.
Proof. by apply member_at_put. Qed.

Lemma member_at_location_effect (st : state) (sid g u : string)
    (lat lon : float) (sport ts : value) (g' u' : string) :
  member_at (location_effect st sid g u lat lon sport ts) g' u' =
    if decide (g = g' ∧ u = u')
    then Some (located sid lat lon sport ts (existing_or_fresh st g u))
    else member_at st g' u'.
Proof. by apply member_at_put. Qed.

(** The same after a join or an update that found a function: every group
    that holds the function sees what the event has put on it. *)
Lemma member_at_join_adoption (st : state) (sid g u g' u' : string) :
  inherited_function u = true → plain_at st g u = None →
  member_at (join_adoption st sid g u) g' u' =
    if decide (u' = u ∧ plain_at st g' u = None ∧ (g' = g ∨ u ∈ held st g'))
    then Some (<["socketId" := VString sid]> (function_object (functions st) u))
    else member_at st g' u'.
Proof.
  intros Hfn Hnone.
  rewrite (member_at_adoption st _ g u
             (<["socketId" := VString sid]> (default ∅ (functions st !! u))))
    by done.
  by rewrite function_object_insert.
Qed.

Lemma member_at_location_adoption (st : state) (sid g u : string)
    (lat lon : float) (sport ts : value) (g' u' : string) :
  inherited_function u = true → plain_at st g u = None →
  member_at (location_adoption st sid g u lat lon sport ts) g' u' =
    if decide (u' = u ∧ plain_at st g' u = None ∧ (g' = g ∨ u ∈ held st g'))
    then Some (located sid lat lon sport ts (function_object (functions st) u))
    else member_at st g' u'.
Proof.
  intros Hfn Hnone.
  rewrite (member_at_adoption st _ g u
             (located sid lat lon sport ts (default ∅ (functions st !! u))))
    by done.
  by rewrite function_object_located.
Qed.

(** *** The health endpoint and the life of groups and members *)

Section Lifecycle.
Context `{rt : Builtins}.

(** X1. The health report counts the groups, and no event takes a group away:
    a group that exists stays, and the count goes up by one at most. A leave
    or a disconnect leaves the count as it is. *)
Theorem health_never_decreases (st : state) (e : inbound) (st' : state)
    (out : list emission) :
  step st e = Done st' out →
  ok (health st') = true ∧
  (∀ g, is_Some (groups st !! g) → is_Some (groups st' !! g)) ∧
  (group_count (health st) ≤ group_count (health st'))%nat ∧
  (group_count (health st') ≤ S (group_count (health st)))%nat ∧
  match e with
  | In_leave_group _ _ | In_disconnect _ =>
      group_count (health st') = group_count (health st)
  | _ => True
  end.
Proof.
  intros Hstep. split; [done |]. unfold health. simpl.
  assert (∀ g (gs' : registry),
            (∀ h, is_Some (gs' !! h) ↔ is_Some (ensure_group g (groups st) !! h)) →
            size gs' = size (ensure_group g (groups st)) →
            (∀ h, is_Some (groups st !! h) → is_Some (gs' !! h)) ∧
            (size (groups st) ≤ size gs')%nat ∧
            (size gs' ≤ S (size (groups st)))%nat ∧ True) as Hensured.
  { intros g gs' Hex Hsize. rewrite Hsize, ensure_group_size.
    split; [|destruct (groups st !! g); repeat split; lia].
    intros h Hh. apply Hex. rewrite ensure_group_lookup. by case_decide. }
  destruct e as [sid p | sid now p | sid p | sid]; simpl in Hstep.
  - destruct (join_group_shape st sid p st' out Hstep)
      as [[-> _] | (g & u & _ & _ & _ & _ & _ & [[_ ->] | (_ & _ & ->)])].
    + repeat split; [done | lia | lia].
    + apply (Hensured g).
      * intros h. apply put_member_is_Some.
      * simpl. by rewrite put_member_size, ensure_group_size.
    + by apply (Hensured g).
  - destruct (location_update_shape st sid now p st' out Hstep)
      as [[-> _] | (g & u & lat & lon & _ & _ & _ & _ & _ & _ & _ & _ & _ &
                    [[_ ->] | (_ & _ & ->)])].
    + repeat split; [done | lia | lia].
    + apply (Hensured g).
      * intros h. apply put_member_is_Some.
      * simpl. by rewrite put_member_size, ensure_group_size.
    + by apply (Hensured g).
  - destruct (leave_group st sid p) as [st1 out1] eqn:Hleave.
    injection Hstep as <- _.
    destruct (leave_group_shape st sid p) as [Hdrop | (g & u & _ & _ & _ & _ & Hrun)].
    { rewrite Hdrop in Hleave. injection Hleave as <- _.
      repeat split; [done | lia | lia]. }
    rewrite Hrun in Hleave.
    assert (groups st1 = groups (leave_accepted st sid g u).1) as ->
      by (by rewrite Hleave).
    rewrite leave_accepted_registry.
    destruct (groups st !! g) as [ms|] eqn:Hg;
      [| repeat split; [done | lia | lia] ].
    rewrite map_size_insert_Some by (by eexists).
    split; [| repeat split; lia ].
    intros g' Hg'. destruct (decide (g = g')) as [<- | Hne].
    + by rewrite lookup_insert_eq.
    + by rewrite lookup_insert_ne.
  - destruct (disconnect st sid) as [st1 out1] eqn:Hdis.
    injection Hstep as <- _.
    assert (st1 = (disconnect st sid).1) as -> by (by rewrite Hdis).
    rewrite disconnect_groups, map_size_fmap.
    split; [| repeat split; lia ].
    intros g' [ms Hg']. rewrite lookup_fmap, Hg'. by eexists.
Qed.

(** X2. A member stays in its group through every event that is not a
    [leave_group]: joins, location updates and disconnects take no member
    away. *)
Theorem members_go_only_by_leave (st : state) (e : inbound) (st' : state)
    (out : list emission) (g u : string) :
  step st e = Done st' out → is_leave e = false →
  is_Some (member_at st g u) → is_Some (member_at st' g u).
Proof.
  intros Hstep Hkind [m Hm].
  destruct e as [sid p | sid now p | sid p | sid]; simpl in Hstep; [| |done|].
  - destruct (join_group_shape st sid p st' out Hstep)
      as [[-> _] | (g0 & u0 & _ & _ & _ & _ & _ &
                    [[_ ->] | (Hnone & Hfn & ->)])]; [by eexists | |].
    + rewrite member_at_join_effect. case_decide; by eexists.
    + rewrite member_at_join_adoption by done. case_decide; by eexists.
  - destruct (location_update_shape st sid now p st' out Hstep)
      as [[-> _] | (g0 & u0 & lat & lon & _ & _ & _ & _ & _ & _ & _ & _ & _ &
                    [[_ ->] | (Hnone & Hfn & ->)])]; [by eexists | |].
    + rewrite member_at_location_effect. case_decide; by eexists.
    + rewrite member_at_location_adoption by done. case_decide; by eexists.
  - destruct (disconnect st sid) as [st1 out1] eqn:Hdis.
    injection Hstep as <- _.
    assert (st1 = (disconnect st sid).1) as -> by (by rewrite Hdis).
    rewrite disconnect_member_at, Hm. by eexists.
Qed.

End Lifecycle.

Lemma health_never_decreases_witness :
  let st := Scenario.riding in
  let e := In_location_update "sD" Scenario.t2 Scenario.dave_moves in
  group_count (health st) = 1 ∧
  ok (health (Events.after st e)) = true ∧
  (∀ g, is_Some (groups st !! g) → is_Some (groups (Events.after st e) !! g)) ∧
  (group_count (health st) ≤ group_count (health (Events.after st e)))%nat ∧
  (group_count (health (Events.after st e)) ≤ S (group_count (health st)))%nat ∧
  True.
Proof.
  cbv zeta. split; [reflexivity |].
  apply (health_never_decreases (rt := Ecma.builtins) Scenario.riding
           (In_location_update "sD" Scenario.t2 Scenario.dave_moves)
           (Events.after Scenario.riding
              (In_location_update "sD" Scenario.t2 Scenario.dave_moves))
           (Events.sent Scenario.riding
              (In_location_update "sD" Scenario.t2 Scenario.dave_moves))).
  reflexivity.
Defined.

Lemma members_go_only_by_leave_witness :
  is_Some (member_at
             (Events.after Scenario.riding (In_disconnect "sA"))
             "RIDE32" "alice-9f2k").
Proof.
  apply (members_go_only_by_leave (rt := Ecma.builtins) Scenario.riding
           (In_disconnect "sA")
           (Events.after Scenario.riding (In_disconnect "sA"))
           (Events.sent Scenario.riding (In_disconnect "sA"))
           "RIDE32" "alice-9f2k").
  - reflexivity.
  - reflexivity.
  - eexists. reflexivity.
Defined.

(** *** What a join and an update change *)

Lemma ensured_existing (st : state) (g : string) :
  is_Some (groups st !! g) → ensured g st = st.
Proof.
  intros [ms Hg]. unfold ensured, is_new, ensure_group. rewrite Hg.
  rewrite bool_decide_eq_false_2 by done. by destruct st.
Qed.

Lemma located_located (sid1 sid2 : string) (lat1 lon1 lat2 lon2 : float)
    (sport1 ts1 sport2 ts2 : value) (m : member) :
  located sid2 lat2 lon2 sport2 ts2 (located sid1 lat1 lon1 sport1 ts1 m) =
  located sid2 lat2 lon2 sport2 ts2 m.
Proof.
  apply map_eq. intros k. rewrite !located_lookup.
  repeat (case_decide; [done |]). done.
Qed.

Lemma put_member_put_member (gs : registry) (g u : string) (m m0 : member) :
  put_member (put_member gs g u m0) g u m = put_member gs g u m.
Proof.
  unfold put_member. rewrite lookup_insert_eq. simpl.
  by rewrite !insert_insert_eq.
Qed.

Lemma adopt_adopt (g u : string) (flags : gmap string (gset string)) :
  adopt g u (adopt g u flags) = adopt g u flags.
Proof.
  unfold adopt. rewrite lookup_insert_eq, insert_insert_eq. f_equal.
  cbn [default from_option id]. apply set_eq. intros k.
  rewrite !elem_of_union. tauto.
Qed.

(** A second update of a record, and of a function, supersedes the
    first. *)
Lemma location_effect_twice (st : state) (sid1 sid2 g u : string)
    (lat1 lon1 lat2 lon2 : float) (sport1 ts1 sport2 ts2 : value) :
  location_effect (location_effect st sid1 g u lat1 lon1 sport1 ts1)
    sid2 g u lat2 lon2 sport2 ts2 =
  location_effect st sid2 g u lat2 lon2 sport2 ts2.
Proof.
  set (st1 := location_effect st sid1 g u lat1 lon1 sport1 ts1).
  assert (ensured g st1 = st1) as Hthere.
  { apply ensured_existing. unfold st1. simpl.
    rewrite put_member_lookup, decide_True by done. by eexists. }
  assert (existing_or_fresh st1 g u =
          located sid1 lat1 lon1 sport1 ts1 (existing_or_fresh st g u)) as Hfound.
  { unfold existing_or_fresh at 1, st1.
    by rewrite member_at_location_effect, decide_True. }
  unfold location_effect at 1. rewrite Hthere, Hfound, located_located.
  unfold st1 at 1 2 3 4. unfold location_effect at 1 2 3 4.
  cbn [groups adopted functions order rooms].
  by rewrite put_member_put_member.
Qed.

Lemma location_adoption_twice (st : state) (sid1 sid2 g u : string)
    (lat1 lon1 lat2 lon2 : float) (sport1 ts1 sport2 ts2 : value) :
  location_adoption (location_adoption st sid1 g u lat1 lon1 sport1 ts1)
    sid2 g u lat2 lon2 sport2 ts2 =
  location_adoption st sid2 g u lat2 lon2 sport2 ts2.
Proof.
  set (st1 := location_adoption st sid1 g u lat1 lon1 sport1 ts1).
  assert (is_Some (groups st1 !! g)) as Hex.
  { unfold st1. simpl. rewrite ensure_group_lookup, decide_True by done.
    by eexists. }
  assert (ensured g st1 = st1) as Hthere by (by apply ensured_existing).
  unfold location_adoption at 1. rewrite Hthere.
  apply state_eq; cbn [groups adopted functions order rooms].
  - unfold st1. simpl. unfold ensure_group at 1.
    destruct Hex as [ms Hms]. unfold st1 in Hms. simpl in Hms. by rewrite Hms.
  - unfold st1. cbn [location_adoption adopted]. apply adopt_adopt.
  - unfold st1. cbn [location_adoption functions].
    rewrite lookup_insert_eq, insert_insert_eq. cbn [default from_option id].
    by rewrite located_located.
  - done.
  - done.
Qed.

Section Frames.
Context `{rt : Builtins}.

(** X3. An accepted join writes two properties of one record. Every other
    record, in the group and elsewhere, is as before; the joiner's record
    keeps what it had apart from [name] and [socketId]; the name is the one
    supplied, and 'Anonymous' when none is, also for a member that had a
    name; and no room but the group's changes. (The user id names no
    inherited property.) *)
Theorem join_changes_one_record (st : state) (sid : string) (p : value)
    (g u : string) :
  group_of p = Some g → userId_of p = Some u → g ≠ "" → u ≠ "" →
  inherited u = false →
  ∃ st' out m',
    join_group st sid p = Done st' out ∧
    member_at st' g u = Some m' ∧
    m' !! "name" = Some (name_of p) ∧
    (truthy (default VUndefined (field p "name")) = false →
     m' !! "name" = Some (VString "Anonymous")) ∧
    (∀ k, k ≠ "name" → k ≠ "socketId" →
          m' !! k = existing_or_fresh st g u !! k) ∧
    (∀ g' u', ¬ (g' = g ∧ u' = u) → member_at st' g' u' = member_at st g' u') ∧
    (∀ r, r ≠ g → subscribers (rooms st') r = subscribers (rooms st) r).
Proof.
  intros Hg Hu Hg0 Hu0 Hplain.
  rewrite (join_group_valid st sid p g u Hg Hu Hg0 Hu0).
  rewrite join_accepted_done by (by left). cbv zeta.
  eexists _, _, _. split; [reflexivity |].
  split; [rewrite member_at_join_effect; by rewrite decide_True |].
  split; [by rewrite joined_lookup |].
  split.
  { intros Hfalsy. rewrite joined_lookup. simpl. unfold name_of, js_or.
    by rewrite Hfalsy. }
  split.
  { intros k Hk1 Hk2. rewrite joined_lookup.
    by rewrite !decide_False. }
  split.
  - intros g' u' Hne. rewrite member_at_join_effect. case_decide as Hd; [|done].
    destruct Hd as [-> ->]. exfalso. by apply Hne.
  - intros r Hr. simpl. by apply subscribers_socket_join_other.
Qed.

(** X4. An accepted location update writes five properties of one record and
    touches no room: every other record is as before, the sender's record
    keeps its [name] and [userId], and the activity is the one supplied,
    'unknown' when none is. (The user id names no inherited property.) *)
Theorem location_update_changes_one_record (st : state) (sid : string)
    (now : float) (p : value) (g u : string) (lat lon : float) :
  group_of p = Some g → userId_of p = Some u → g ≠ "" → u ≠ "" →
  lat_of p = Some lat → lon_of p = Some lon →
  Number_isNaN lat = false → Number_isNaN lon = false →
  inherited u = false →
  ∃ st' out m',
    location_update st sid now p = Done st' out ∧
    member_at st' g u = Some m' ∧
    m' !! "lat" = Some (VNumber lat) ∧ m' !! "lon" = Some (VNumber lon) ∧
    m' !! "sport" = Some (sport_of p) ∧
    (truthy (default VUndefined (field p "sport")) = false →
     m' !! "sport" = Some (VString "unknown")) ∧
    m' !! "socketId" = Some (VString sid) ∧
    (∀ k, k ∉ ["lat"; "lon"; "sport"; "updatedAt"; "socketId"] →
          m' !! k = existing_or_fresh st g u !! k) ∧
    (∀ g' u', ¬ (g' = g ∧ u' = u) → member_at st' g' u' = member_at st g' u') ∧
    rooms st' = rooms st.
Proof.
  intros Hg Hu Hg0 Hu0 Hlat Hlon Hn1 Hn2 Hplain.
  rewrite (location_update_valid st sid now p g u lat lon) by done.
  rewrite location_accepted_done by (by left). cbv zeta.
  eexists _, _, _. split; [reflexivity |].
  split; [rewrite member_at_location_effect; by rewrite decide_True |].
  rewrite !located_lookup. simpl.
  repeat (split; [done |]).
  split.
  { intros Hfalsy. unfold sport_of, js_or. by rewrite Hfalsy. }
  split; [done |]. split.
  { intros k Hk. rewrite located_lookup.
    rewrite !elem_of_cons, elem_of_nil in Hk.
    repeat (destruct (decide (k = _)) as [Heq | _];
            [exfalso; apply Hk; rewrite Heq; auto 10 |]). done. }
  split; [|done].
  intros g' u' Hne. rewrite member_at_location_effect.
  case_decide as Hd; [|done].
  destruct Hd as [-> ->]. exfalso. by apply Hne.
Qed.

(** X5. A location update never subscribes its sender and never answers it:
    whatever the payload, the rooms stay as they are, and what is emitted
    is at most one [group_locations] broadcast, to the sockets that were in
    the room of the group before. *)
Theorem location_update_never_subscribes (st : state) (sid : string)
    (now : float) (p : value) (st' : state) (out : list emission) :
  location_update st sid now p = Done st' out →
  rooms st' = rooms st ∧
  (out = [] ∨
   ∃ g ms, out = [ ToRoom g (subscribers (rooms st) g) (Ev_group_locations ms) ]).
Proof.
  intros Hrun.
  destruct (location_update_shape st sid now p st' out Hrun)
    as [[-> ->] | (g & u & lat & lon & _ & _ & _ & _ & _ & _ & _ & _ & -> &
                   [[_ ->] | (_ & _ & ->)])].
  - split; [done | by left].
  - split; [done |]. right. by eexists _, _.
  - split; [done |]. right. by eexists _, _.
Qed.

(** X6. A second update of a member supersedes the first in full: handling it
    after the first gives the state and the broadcast that handling it
    alone gives. *)
Theorem location_update_supersedes (st : state) (sid1 sid2 : string)
    (now1 now2 : float) (p1 p2 : value) (g u : string)
    (lat1 lon1 lat2 lon2 : float) (st1 : state) (out1 : list emission) :
  group_of p1 = Some g → userId_of p1 = Some u →
  group_of p2 = Some g → userId_of p2 = Some u → g ≠ "" → u ≠ "" →
  lat_of p1 = Some lat1 → lon_of p1 = Some lon1 →
  Number_isNaN lat1 = false → Number_isNaN lon1 = false →
  lat_of p2 = Some lat2 → lon_of p2 = Some lon2 →
  Number_isNaN lat2 = false → Number_isNaN lon2 = false →
  location_update st sid1 now1 p1 = Done st1 out1 →
  location_update st1 sid2 now2 p2 = location_update st sid2 now2 p2.
Proof.
  intros Hg1 Hu1 Hg2 Hu2 Hg0 Hu0 Hlat1 Hlon1 Hn1 Hn1' Hlat2 Hlon2 Hn2 Hn2' Hrun.
  rewrite (location_update_valid st sid1 now1 p1 g u lat1 lon1) in Hrun by done.
  rewrite !(location_update_valid _ sid2 now2 p2 g u lat2 lon2) by done.
  destruct (join_accepted_cases st sid1 g u VUndefined)
    as [Hplain | [[Hnone Hfn] | [Hnone ->]]].
  - rewrite location_accepted_done in Hrun by done. cbv zeta in Hrun.
    injection Hrun as <- _.
    rewrite (location_accepted_done st) by done.
    rewrite location_accepted_done.
    + cbv zeta. by rewrite location_effect_twice.
    + right.
      rewrite (plain_at_put st _ g u
                 (located sid1 lat1 lon1 (sport_of p1) (timestamp_of now1 p1)
                    (existing_or_fresh st g u))) by done.
      rewrite decide_True by done. by eexists.
  - rewrite location_accepted_adopts in Hrun by done.
    injection Hrun as <- _.
    rewrite (location_accepted_adopts st) by done.
    rewrite location_accepted_adopts.
    + rewrite location_adoption_twice. simpl.
      by rewrite members_of_ensure_group.
    + by rewrite (plain_at_ensure st _ g g u).
    + done.
  - by rewrite location_accepted_proto in Hrun.
Qed.

End Frames.

(** *** Leaving *)

Section Leaving.
Context `{rt : Builtins}.

(** X7. A leave of a member removes its record and nothing else: the group
    stays, empty if the member was alone, and every other record is as
    before. The remaining members are broadcast to the room as it is before
    [socket.leave], so a sender that was in the room gets the broadcast
    too; after it the sender is not in the room. *)
Theorem leave_removes_member (st : state) (sid : string) (p : value)
    (g u : string) (ms : members) :
  group_of p = Some g → userId_of p = Some u → g ≠ "" → u ≠ "" →
  groups st !! g = Some ms → is_Some (ms !! u) →
  ∃ st',
    leave_group st sid p =
      (st', [ ToRoom g (subscribers (rooms st) g)
                (Ev_group_locations (delete u ms)) ]) ∧
    member_at st' g u = None ∧
    groups st' !! g = Some (delete u ms) ∧
    (∀ m, ms = {[ u := m ]} → groups st' !! g = Some ∅) ∧
    (∀ g' u', ¬ (g' = g ∧ u' = u) → member_at st' g' u' = member_at st g' u') ∧
    sid ∉ subscribers (rooms st') g.
Proof.
  intros Hg Hu Hg0 Hu0 Hms Hm.
  rewrite (leave_group_valid st sid p g u Hg Hu Hg0 Hu0).
  pose proof (member_at_leave st sid g u) as Hat.
  pose proof (leave_accepted_rooms st sid g u) as Hrooms.
  pose proof (leave_accepted_registry st sid g u) as Hreg.
  rewrite (leave_accepted_member st sid g u ms Hms Hm) in Hat, Hrooms, Hreg |- *.
  simpl in Hrooms, Hreg. rewrite Hms in Hreg.
  eexists. split; [reflexivity |].
  split; [rewrite Hat; by rewrite decide_True |].
  split; [simpl; apply lookup_insert_eq |].
  split.
  { intros m ->. simpl. rewrite lookup_insert_eq. f_equal.
    apply delete_singleton_eq. }
  split.
  - intros g' u' Hne. rewrite Hat. case_decide as Hd; [|done].
    destruct Hd as [-> ->]. exfalso. by apply Hne.
  - simpl. rewrite subscribers_socket_leave, decide_True by done.
    rewrite elem_of_difference, elem_of_singleton. tauto.
Qed.

(** X8. A leave with a group and a user id takes the sender out of the room of
    the group whether or not such a member or group exists; the other
    sockets of that room, and all other rooms, are as before. *)
Theorem leave_unsubscribes_sender (st : state) (sid : string) (p : value)
    (g u : string) :
  group_of p = Some g → userId_of p = Some u → g ≠ "" → u ≠ "" →
  let st' := (leave_group st sid p).1 in
  (sid ∉ subscribers (rooms st') g) ∧
  (∀ other, other ≠ sid →
     (other ∈ subscribers (rooms st') g ↔ other ∈ subscribers (rooms st) g)) ∧
  (∀ r, r ≠ g → subscribers (rooms st') r = subscribers (rooms st) r).
Proof.
  intros Hg Hu Hg0 Hu0 st'. unfold st'.
  rewrite (leave_group_valid st sid p g u Hg Hu Hg0 Hu0).
  rewrite leave_accepted_rooms. split; [|split].
  - rewrite subscribers_socket_leave, decide_True by done.
    rewrite elem_of_difference, elem_of_singleton. tauto.
  - intros other Hother.
    rewrite subscribers_socket_leave, decide_True by done.
    rewrite elem_of_difference, elem_of_singleton. tauto.
  - intros r Hr. rewrite subscribers_socket_leave.
    by rewrite decide_False by done.
Qed.

(** X9. Leaving forgets, disconnecting does not, for a user id that names
    no property inherited from [Object.prototype]: the record of a member
    that left is gone with its position, and a join under the same user id
    starts from [{ userId }], with a name and a socket and no position. *)
Theorem join_after_leave_starts_afresh (st : state) (sid sid' : string)
    (p p' : value) (g u : string) (ms : members) :
  group_of p = Some g → userId_of p = Some u →
  group_of p' = Some g → userId_of p' = Some u → g ≠ "" → u ≠ "" →
  groups st !! g = Some ms → is_Some (ms !! u) → inherited u = false →
  ∃ st' out,
    join_group (leave_group st sid p).1 sid' p' = Done st' out ∧
    member_at st' g u =
      Some {[ "userId" := VString u; "name" := name_of p';
              "socketId" := VString sid' ]}.
Proof.
  intros Hg Hu Hg' Hu' Hg0 Hu0 Hms Hm Hplain.
  rewrite (leave_group_valid st sid p g u Hg Hu Hg0 Hu0).
  rewrite (join_group_valid _ sid' p' g u Hg' Hu' Hg0 Hu0).
  rewrite join_accepted_done by (by left). cbv zeta.
  eexists _, _. split; [reflexivity |].
  rewrite member_at_join_effect, decide_True by done. f_equal.
  unfold existing_or_fresh. rewrite member_at_leave, decide_True by done.
  simpl. unfold joined, fresh_member. apply map_eq. intros k.
  rewrite !lookup_insert, !lookup_singleton.
  repeat (case_decide; [subst; done |]). done.
Qed.

End Leaving.

(** *** Events that are dropped *)

Section Dropped.
Context `{rt : Builtins}.

(** X10. A location update or a leave whose group or user id cannot be read, or
    is empty once normalized, is dropped: the state, rooms included, is as
    before and nothing is emitted. *)
Theorem bad_identifiers_are_dropped (st : state) (sid : string) (now : float)
    (p : value) :
  group_of p = None ∨ userId_of p = None ∨
  group_of p = Some "" ∨ userId_of p = Some "" →
  location_update st sid now p = Done st [] ∧
  leave_group st sid p = (st, []).
Proof.
  intros Hbad. unfold location_update, leave_group, group_of, userId_of in *.
  destruct (field p "group") as [gv|]; simpl in *; [|done].
  destruct (normalizeGroup gv) as [g|]; simpl in *; [|done].
  destruct (field p "userId") as [uv|]; simpl in *; [|done].
  destruct (normalizeUserId uv) as [u|]; simpl in *; [|done].
  assert (String.eqb g "" || String.eqb u "" = true) as Hempty.
  { destruct Hbad as [Hb | [Hb | [Hb | Hb]]]; try done;
      injection Hb as ->; simpl; [done | by rewrite orb_true_r]. }
  rewrite Hempty. split; [|done].
  destruct (field p "lat") as [la|]; simpl; [|done].
  destruct (coordinate la); simpl; [|done].
  destruct (field p "lon") as [lo|]; simpl; [|done].
  destruct (coordinate lo); simpl; [|done].
  destruct (field p "sport"); simpl; [|done].
  by destruct (field p "timestamp").
Qed.

(** X11. A join whose payload cannot be read (it is [null], or the group or the
    user id is an object that does not convert to a string) ends in the
    [catch] block: nothing changes and nothing is emitted, not even the
    [error] message of a join that fails validation. *)
Theorem unreadable_join_is_silent (st : state) (sid : string) (p : value) :
  group_of p = None ∨ userId_of p = None →
  join_group st sid p = Done st [].
Proof.
  intros Hbad. unfold join_group, group_of, userId_of in *.
  destruct (field p "group") as [gv|]; simpl in *; [|done].
  destruct (normalizeGroup gv) as [g|]; simpl in *;
    [| done].
  destruct (field p "userId") as [uv|]; simpl in *; [|done].
  destruct (normalizeUserId uv) as [u|]; simpl in *; [|done].
  by destruct Hbad.
Qed.

(** X12. A group that is falsy ([undefined], [null], [false], [0], [NaN], the
    empty string) is the empty code, without being converted: a join with it
    is answered with the [error] message whatever the user id is, as long as
    the user id can be read. *)
Theorem falsy_group_is_rejected (st : state) (sid : string) (p : value)
    (gv : value) (u : string) :
  field p "group" = Some gv → truthy gv = false → userId_of p = Some u →
  group_of p = Some "" ∧
  ∃ message, join_group st sid p = Done st [ ToSocket sid (Ev_error message) ].
Proof.
  intros Hfield Hfalsy Hu.
  assert (group_of p = Some "") as Hg.
  { unfold group_of, normalizeGroup. rewrite Hfield. simpl. by rewrite Hfalsy. }
  split; [done |]. eexists.
  apply (join_group_invalid st sid p "" u Hg Hu). by left.
Qed.

End Dropped.

(** *** Closing a socket *)

Lemma disconnect_silent_when_unaffected (st : state) (sid : string) :
  (∀ g ms, groups st !! g = Some ms → ¬ affected sid ms) →
  (∀ g k, k ∈ held st g → ¬ function_online sid (functions st) k) →
  (disconnect st sid).2 = [].
Proof.
  intros Hnone Hheld.
  destruct (disconnect st sid).2 as [| e out] eqn:Hout; [done |].
  destruct (disconnect_emitted st sid e)
    as (g & ms & Hg & _ & [Haff | (k & Hk & Hon)]).
  - rewrite Hout. apply list_elem_of_here.
  - exfalso. by apply (Hnone g ms).
  - exfalso. by apply (Hheld g k).
Qed.

(** After the closing of a socket nothing carries its id. *)
Lemma disconnect_leaves_nobody (st : state) (sid : string) :
  (∀ g ms, groups (disconnect st sid).1 !! g = Some ms → ¬ affected sid ms) ∧
  (∀ g k, k ∈ held (disconnect st sid).1 g →
          ¬ function_online sid (functions (disconnect st sid).1) k).
Proof.
  split.
  - intros g ms Hg. rewrite disconnect_groups, lookup_fmap in Hg.
    destruct (groups st !! g) as [ms0|]; [|done]. injection Hg as <-.
    apply all_offline_not_affected.
  - intros g k Hk Hon. rewrite disconnect_held in Hk.
    apply function_online_alt in Hon as (props & Hprops & Hon).
    rewrite disconnect_functions in Hprops.
    rewrite decide_True in Hprops
      by (apply elem_of_held_names_entries; by exists g).
    destruct (functions st !! k) as [props0|]; [|done].
    injection Hprops as <-. by apply (offline_not_online_after sid props0).
Qed.

(** X13. The closing of a socket on which no member is online changes no record
    and emits nothing. *)
Theorem disconnect_of_stranger_is_noop (st : state) (sid : string) :
  nobody_on sid st →
  groups (disconnect st sid).1 = groups st ∧ (disconnect st sid).2 = [].
Proof.
  intros Hnone.
  assert (∀ g ms, groups st !! g = Some ms → ¬ affected sid ms) as Hgroups.
  { intros g ms Hg (u & m & Hm & Hon).
    apply online_on_strict_eq in Hon.
    destruct (map_Forall_lookup_1 _ _ _ _ Hnone Hg) as [Hms _].
    pose proof (map_Forall_lookup_1 _ _ _ _ Hms Hm) as Hoff. simpl in Hoff.
    congruence. }
  assert (∀ g k, k ∈ held st g → ¬ function_online sid (functions st) k)
    as Hheld.
  { intros g k Hk Hon. apply function_online_strict_eq in Hon.
    apply elem_of_held in Hk as Hk'. destruct Hk' as ([ms Hg] & _ & _).
    destruct (map_Forall_lookup_1 _ _ _ _ Hnone Hg) as [_ Hfs].
    specialize (Hfs k Hk). simpl in Hfs. congruence. }
  split; [|by apply disconnect_silent_when_unaffected].
  rewrite disconnect_groups. apply map_eq. intros g. rewrite lookup_fmap.
  destruct (groups st !! g) as [ms|] eqn:Hg; [|done]. simpl.
  by rewrite (all_offline_unaffected sid ms (Hgroups g ms Hg)).
Qed.

(** X14. Handling the closing of a socket a second time finds nothing to do: the
    state is the one the first handling left, and nothing is emitted. *)
Theorem disconnect_twice (st : state) (sid : string) :
  disconnect (disconnect st sid).1 sid = ((disconnect st sid).1, []).
Proof.
  destruct (disconnect_leaves_nobody st sid) as [Hnone Hheld].
  rewrite (surjective_pairing (disconnect (disconnect st sid).1 sid)).
  rewrite (disconnect_silent_when_unaffected _ sid Hnone Hheld). f_equal.
  apply state_eq.
  - rewrite disconnect_groups. apply map_eq. intros g. rewrite lookup_fmap.
    destruct (groups (disconnect st sid).1 !! g) as [ms|] eqn:Hg; [|done].
    simpl. by rewrite (all_offline_unaffected sid ms (Hnone g ms Hg)).
  - apply disconnect_adopted.
  - apply map_eq. intros k. rewrite disconnect_functions.
    case_decide as Hk; [|done].
    apply elem_of_held_names_entries in Hk as [g Hk].
    rewrite disconnect_held in Hk. rewrite disconnect_functions.
    rewrite decide_True by (apply elem_of_held_names_entries; by exists g).
    destruct (functions st !! k) as [props|]; [|done]. simpl.
    by rewrite offline_idemp.
  - apply disconnect_order.
  - rewrite !disconnect_rooms. apply socket_leave_all_idemp.
Qed.

(** X15. The closing of a socket removes [socketId] from the records that carry
    its id and does nothing else to the registry: the groups and their
    members are the same, the records of members on other sockets, or
    offline, are untouched, and no record refers to the closed socket any
    more. *)
Theorem disconnect_touches_only_socketId (st : state) (sid : string) :
  let st' := (disconnect st sid).1 in
  (∀ g u, member_at st' g u = offline sid <$> member_at st g u) ∧
  (∀ g u m, member_at st g u = Some m → ¬ online_on sid m →
            member_at st' g u = Some m) ∧
  (∀ g u m k, member_at st g u = Some m → k ≠ "socketId" →
              member_at st' g u ≫= (.!! k) = m !! k) ∧
  (∀ g u m', member_at st' g u = Some m' → ¬ online_on sid m') ∧
  (∀ g, is_Some (groups st' !! g) ↔ is_Some (groups st !! g)).
Proof.
  intros st'. unfold st'.
  split; [intros g u; apply disconnect_member_at |].
  split.
  { intros g u m Hm Hoff. rewrite disconnect_member_at, Hm. simpl.
    by rewrite offline_not_online. }
  split.
  { intros g u m k Hm Hk. rewrite disconnect_member_at, Hm. simpl.
    by apply offline_other_property. }
  split.
  { intros g u m' Hm'. rewrite disconnect_member_at in Hm'.
    destruct (member_at st g u) as [m|]; [|done]. injection Hm' as <-.
    apply offline_not_online_after. }
  intros g. rewrite disconnect_groups, lookup_fmap.
  destruct (groups st !! g); simpl; split; intros [? ?]; by eexists.
Qed.

(** *** Joining again *)

Lemma joined_joined (sid : string) (name : value) (m : member) :
  joined sid name (joined sid name m) = joined sid name m.
Proof.
  apply map_eq. intros k. rewrite !joined_lookup.
  repeat (case_decide; [done |]). done.
Qed.

Lemma socket_join_socket_join (sid g : string)
    (rs : gmap string (gset string)) :
  socket_join sid g (socket_join sid g rs) = socket_join sid g rs.
Proof.
  unfold socket_join. unfold subscribers at 1. rewrite lookup_insert_eq.
  cbn [default from_option id]. rewrite insert_insert_eq. f_equal.
  apply set_eq. intros x. rewrite !elem_of_union. tauto.
Qed.

Lemma join_effect_twice (st : state) (sid g u : string) (name : value) :
  join_effect (join_effect st sid g u name) sid g u name =
  join_effect st sid g u name.
Proof.
  set (st1 := join_effect st sid g u name).
  assert (ensured g st1 = st1) as Hthere.
  { apply ensured_existing. unfold st1. simpl.
    rewrite put_member_lookup, decide_True by done. by eexists. }
  assert (existing_or_fresh st1 g u =
          joined sid name (existing_or_fresh st g u)) as Hfound.
  { unfold existing_or_fresh at 1, st1.
    by rewrite member_at_join_effect, decide_True. }
  unfold join_effect at 1. rewrite Hthere, Hfound, joined_joined.
  unfold st1 at 1 2 3 4 5. unfold join_effect at 1 2 3 4 5.
  cbn [groups adopted functions order rooms].
  by rewrite put_member_put_member, socket_join_socket_join.
Qed.

Lemma join_adoption_twice (st : state) (sid g u : string) :
  join_adoption (join_adoption st sid g u) sid g u = join_adoption st sid g u.
Proof.
  set (st1 := join_adoption st sid g u).
  assert (is_Some (groups st1 !! g)) as Hex.
  { unfold st1. simpl. rewrite ensure_group_lookup, decide_True by done.
    by eexists. }
  assert (ensured g st1 = st1) as Hthere by (by apply ensured_existing).
  unfold join_adoption at 1. rewrite Hthere.
  apply state_eq; cbn [groups adopted functions order rooms].
  - unfold st1. simpl. unfold ensure_group at 1.
    destruct Hex as [ms Hms]. unfold st1 in Hms. simpl in Hms. by rewrite Hms.
  - unfold st1. cbn [join_adoption adopted]. apply adopt_adopt.
  - unfold st1. cbn [join_adoption functions].
    rewrite lookup_insert_eq, insert_insert_eq. cbn [default from_option id].
    by rewrite insert_insert_eq.
  - done.
  - unfold st1. cbn [join_adoption rooms]. apply socket_join_socket_join.
Qed.

Section Rejoin.
Context `{rt : Builtins}.

(** X16. A join repeated on the same socket with the same payload finds the
    state it left: nothing changes, and what was emitted the first time (the
    snapshot and the notification, or the error) is emitted once more. *)
Theorem join_twice (st : state) (sid : string) (p : value) (st' : state)
    (out : list emission) :
  join_group st sid p = Done st' out →
  join_group st' sid p = Done st' out.
Proof.
  intros Hrun.
  destruct (join_group_shape st sid p st' out Hrun)
    as [[-> _] | (g & u & Hg & Hu & Hg0 & Hu0 & Hemit &
                  [[Hplain Hst] | (Hnone & Hfn & Hst)])];
    [done | |].
  - rewrite (join_group_valid st' sid p g u Hg Hu Hg0 Hu0).
    rewrite join_accepted_done.
    + cbv zeta. rewrite Hemit. rewrite Hst at 1 2 3.
      by rewrite join_effect_twice, <- Hst.
    + right. rewrite Hst.
      rewrite (plain_at_put st _ g u
                 (joined sid (name_of p) (existing_or_fresh st g u))) by done.
      rewrite decide_True by done. by eexists.
  - rewrite (join_group_valid st' sid p g u Hg Hu Hg0 Hu0).
    rewrite join_accepted_adopts.
    + cbv zeta. rewrite Hemit. rewrite Hst at 1 2 3.
      by rewrite join_adoption_twice, <- Hst.
    + rewrite Hst. by rewrite (plain_at_ensure st _ g g u).
    + done.
Qed.

End Rejoin.

(** *** What the records look like *)

Lemma record_ok_joined (sid : string) (name : value) (u : string) (m : member) :
  truthy name = true →
  (record_ok u m ∨ m = fresh_member u) →
  record_ok u (joined sid name m).
Proof.
  intros Hname Hm. unfold record_ok, position_ok.
  rewrite !joined_lookup. simpl.
  destruct Hm as [(H1 & H2 & H3 & H4 & H5 & H6 & H7 & H8) | ->].
  - split; [done |]. split; [done |]. split; [done |]. split; [done |].
    split; [by intros v [= <-] |]. split; [done |].
    split; [intros v [= <-]; by eexists |]. left. by eexists.
  - unfold fresh_member. rewrite !lookup_singleton. simpl.
    split; [done |]. split; [done |].
    split; [split; intros [? ?]; done |].
    split; [split; intros [? ?]; done |].
    split; [by intros v [= <-] |]. split; [done |].
    split; [intros v [= <-]; by eexists |]. left. by eexists.
Qed.

Lemma record_ok_located (sid : string) (lat lon : float) (sport ts : value)
    (u : string) (m : member) :
  Number_isNaN lat = false → Number_isNaN lon = false → truthy sport = true →
  (record_ok u m ∨ m = fresh_member u) →
  record_ok u (located sid lat lon sport ts m).
Proof.
  intros Hn1 Hn2 Hsport Hm. unfold record_ok, position_ok.
  rewrite !located_lookup. simpl.
  assert (m !! "userId" = Some (VString u) ∧
          ∀ v, m !! "name" = Some v → truthy v = true) as [Hid Hname].
  { destruct Hm as [(H1 & _ & _ & _ & H5 & _) | ->]; [done |].
    unfold fresh_member. rewrite !lookup_singleton. simpl. by split. }
  split; [done |]. split; [done |].
  split; [split; intros _; by eexists |].
  split; [split; intros _; by eexists |].
  split; [done |]. split; [by intros v [= <-] |].
  split; [intros v [= <-]; by eexists |]. right. by eexists.
Qed.

Lemma record_ok_offline (sid u : string) (m : member) :
  record_ok u m → record_ok u (offline sid m).
Proof.
  intros (H1 & H2 & H3 & H4 & H5 & H6 & H7 & H8).
  unfold record_ok, position_ok.
  rewrite !(offline_other_property sid m) by done.
  repeat (split; [done |]). split; [|done].
  intros v Hv. apply H7. unfold offline in Hv.
  destruct (strict_eq_string _ _); [|done]. by rewrite lookup_delete_eq in Hv.
Qed.

Lemma function_ok_empty : function_ok ∅.
Proof.
  unfold function_ok, position_ok. rewrite !lookup_empty.
  split; [done |]. split; [done |].
  split; [split; intros [? ?]; done |].
  split; [split; intros [? ?]; done |]. by split.
Qed.

Lemma function_ok_socket (sid : string) (props : member) :
  function_ok props → function_ok (<["socketId" := VString sid]> props).
Proof.
  intros (H1 & H2 & H3 & H4 & H5 & H6). unfold function_ok, position_ok.
  rewrite !lookup_insert_ne by done. rewrite lookup_insert_eq.
  repeat (split; [done |]). intros v [= <-]. by eexists.
Qed.

Lemma function_ok_located (sid : string) (lat lon : float) (sport ts : value)
    (props : member) :
  Number_isNaN lat = false → Number_isNaN lon = false → truthy sport = true →
  function_ok props → function_ok (located sid lat lon sport ts props).
Proof.
  intros Hn1 Hn2 Hsport (H1 & _). unfold function_ok, position_ok.
  rewrite !located_lookup. simpl.
  split; [done |]. split; [done |].
  split; [split; intros _; by eexists |].
  split; [split; intros _; by eexists |].
  split; [by intros v [= <-] |]. intros v [= <-]. by eexists.
Qed.

Lemma function_ok_offline (sid : string) (props : member) :
  function_ok props → function_ok (offline sid props).
Proof.
  intros (H1 & H2 & H3 & H4 & H5 & H6).
  unfold function_ok, position_ok.
  rewrite !(offline_other_property sid props) by done.
  repeat (split; [done |]).
  intros v Hv. apply H6. unfold offline in Hv.
  destruct (strict_eq_string _ _); [|done]. by rewrite lookup_delete_eq in Hv.
Qed.

Lemma function_ok_default (st : state) (k : string) :
  records_ok st → function_ok (default ∅ (functions st !! k)).
Proof.
  intros [_ Hfs]. destruct (functions st !! k) as [props|] eqn:Hk; simpl.
  - by apply (Hfs k).
  - apply function_ok_empty.
Qed.

(** A function that a group holds, as a member: no user id, the name of the
    function, and for the rest what the handlers have put on it. *)
Lemma function_object_ok (st : state) (k : string) :
  records_ok st → k ≠ "" →
  let m := function_object (functions st) k in
  m !! "userId" = None ∧
  m !! "name" = Some (VString (function_name k)) ∧
  truthy (VString (function_name k)) = true ∧
  position_ok m ∧
  (is_Some (m !! "sport") ↔ is_Some (m !! "lat")) ∧
  (is_Some (m !! "updatedAt") ↔ is_Some (m !! "lat")) ∧
  (∀ v, m !! "sport" = Some v → truthy v = true) ∧
  (∀ v, m !! "socketId" = Some v → ∃ sid, v = VString sid).
Proof.
  intros Hok Hk m. unfold m, position_ok.
  destruct (function_ok_default st k Hok) as (H1 & H2 & H3 & H4 & H5 & H6).
  rewrite !function_object_lookup. simpl.
  split; [done |]. split; [done |]. split; [|done].
  unfold function_name. destruct (String.eqb k "constructor"); [done |].
  apply negb_true_iff. by apply String.eqb_neq.
Qed.

Lemma existing_or_fresh_ok (st : state) (g u : string) :
  records_ok st → inherited u = false ∨ is_Some (plain_at st g u) →
  record_ok u (existing_or_fresh st g u) ∨
  existing_or_fresh st g u = fresh_member u.
Proof.
  intros [Hok _] Hplain. rewrite existing_or_fresh_plain by done.
  destruct (plain_at st g u) as [m|] eqn:Hm; [left | by right].
  by apply (Hok g u m).
Qed.

Lemma records_ok_put (st st' : state) (g u : string) (m : member) :
  records_ok st → record_ok u m →
  groups st' = put_member (groups st) g u m →
  functions st' = functions st → records_ok st'.
Proof.
  intros [Hok Hfs] Hm Hgs Hsame. split.
  - intros g' u' m' Hm'.
    rewrite (plain_at_put st st' g u m g' u' Hgs) in Hm'.
    case_decide as Hd; [|by apply (Hok g' u' m')].
    destruct Hd as [<- <-]. by injection Hm' as <-.
  - intros k props. rewrite Hsame. apply Hfs.
Qed.

Lemma records_ok_adoption (st st' : state) (g u : string) (props' : member) :
  records_ok st → function_ok props' →
  groups st' = ensure_group g (groups st) →
  functions st' = <[u := props']> (functions st) → records_ok st'.
Proof.
  intros [Hok Hfs] Hprops Hgs Hnew. split.
  - intros g' u' m' Hm'. rewrite (plain_at_ensure st st' g g' u' Hgs) in Hm'.
    by apply (Hok g' u' m').
  - intros k props. rewrite Hnew.
    destruct (decide (u = k)) as [<- | Hne].
    + rewrite lookup_insert_eq. by intros [= <-].
    + rewrite lookup_insert_ne by done. apply Hfs.
Qed.

Section Records.
Context `{rt : Builtins}.

Lemma records_ok_step (st : state) (e : inbound) (st' : state)
    (out : list emission) :
  records_ok st → step st e = Done st' out → records_ok st'.
Proof.
  intros Hok Hstep.
  destruct e as [sid p | sid now p | sid p | sid]; simpl in Hstep.
  - destruct (join_group_shape st sid p st' out Hstep)
      as [[-> _] | (g & u & _ & _ & _ & _ & _ &
                    [[Hplain ->] | (_ & _ & ->)])]; [done | |].
    + eapply (records_ok_put st); [done | | reflexivity | reflexivity].
      apply record_ok_joined; [apply name_of_truthy |].
      by apply existing_or_fresh_ok.
    + eapply (records_ok_adoption st); [done | | reflexivity | reflexivity].
      apply function_ok_socket. by apply function_ok_default.
  - destruct (location_update_shape st sid now p st' out Hstep)
      as [[-> _] | (g & u & lat & lon & _ & _ & _ & _ & _ & _ & Hn1 & Hn2 & _ &
                    [[Hplain ->] | (_ & _ & ->)])]; [done | |].
    + eapply (records_ok_put st); [done | | reflexivity | reflexivity].
      apply record_ok_located; [done | done | apply sport_of_truthy |].
      by apply existing_or_fresh_ok.
    + eapply (records_ok_adoption st); [done | | reflexivity | reflexivity].
      apply function_ok_located; [done | done | apply sport_of_truthy |].
      by apply function_ok_default.
  - destruct (leave_group st sid p) as [st1 out1] eqn:Hleave.
    injection Hstep as <- _.
    destruct (leave_group_shape st sid p) as [Hdrop | (g & u & _ & _ & _ & _ & Hrun)].
    { rewrite Hdrop in Hleave. by injection Hleave as <- _. }
    rewrite Hrun in Hleave.
    replace st1 with (leave_accepted st sid g u).1 by (by rewrite Hleave).
    destruct Hok as [Hok Hfs]. split.
    + intros g' u' m Hm. rewrite plain_at_leave in Hm.
      case_decide; [done |]. by apply (Hok g' u' m).
    + intros k props. rewrite leave_accepted_functions. apply Hfs.
  - destruct (disconnect st sid) as [st1 out1] eqn:Hdis.
    injection Hstep as <- _.
    replace st1 with (disconnect st sid).1 by (by rewrite Hdis).
    destruct Hok as [Hok Hfs]. split.
    + intros g u m Hm. rewrite disconnect_plain_at in Hm.
      destruct (plain_at st g u) as [m0|] eqn:Hm0; [|done].
      injection Hm as <-. apply record_ok_offline. by apply (Hok g u m0).
    + intros k props. rewrite disconnect_functions.
      destruct (functions st !! k) as [props0|] eqn:Hk;
        case_decide; simpl; try done.
      * intros [= <-]. apply function_ok_offline. by apply (Hfs k).
      * intros [= <-]. by apply (Hfs k).
Qed.

Lemma reachable_records_ok (st : state) : reachable st → records_ok st.
Proof.
  induction 1 as [| st e st' out _ IH Hstep].
  - split.
    + intros g u m Hm. unfold plain_at, initial in Hm. simpl in Hm.
      by rewrite lookup_empty in Hm.
    + intros k props Hk. unfold initial in Hk. simpl in Hk.
      by rewrite lookup_empty in Hk.
  - by apply (records_ok_step st e st' out).
Qed.

(** What a reachable state holds under a user id is a record that
    [record_ok] describes, or a function that [function_object_ok]
    describes. *)
Lemma reachable_member_ok (st : state) (g u : string) (m : member) :
  reachable st → member_at st g u = Some m →
  record_ok u m ∨
  (inherited_function u = true ∧ u ≠ "" ∧
   m = function_object (functions st) u).
Proof.
  intros Hreach Hm.
  pose proof (reachable_records_ok st Hreach) as Hok.
  destruct (reachable_member_at st g u m Hreach Hm)
    as (_ & Hu & [[_ Hplain] | (Hfn & _ & _ & ->)]).
  - left. destruct Hok as [Hok _]. by apply (Hok g u m).
  - by right.
Qed.

(** X17. In every state the process reaches, whatever a group holds under a
    user id, it holds it under a user id that is not empty, and the code
    of the group is not empty either. Under a user id that names no
    inherited property it is a member record, and the record carries that
    user id. Under the name of an inherited function it is that function,
    which has no [userId] property and whose name is its own: the client
    that joined under [toString] is listed without a user id, under the
    name [toString]. *)
Theorem records_carry_their_key (st : state) (g u : string) (m : member) :
  reachable st → member_at st g u = Some m →
  g ≠ "" ∧ u ≠ "" ∧
  ((inherited u = false ∧ plain_at st g u = Some m ∧
    m !! "userId" = Some (VString u)) ∨
   (inherited_function u = true ∧ plain_at st g u = None ∧
    m = function_object (functions st) u ∧
    m !! "userId" = None ∧
    m !! "name" = Some (VString (function_name u)))).
Proof.
  intros Hreach Hm.
  pose proof (reachable_records_ok st Hreach) as Hok.
  destruct (reachable_member_at st g u m Hreach Hm)
    as (Hg & Hu & [[Hinh Hplain] | (Hfn & Hnone & _ & ->)]).
  - split; [done |]. split; [done |]. left.
    destruct Hok as [Hok _]. by destruct (Hok g u m Hplain) as (Hid & _).
  - split; [done |]. split; [done |]. right.
    destruct (function_object_ok st u Hok Hu) as (Hid & Hname & _).
    done.
Qed.

(** X18. In every state the process reaches, a record has a latitude exactly
    when it has a longitude, and both are numbers that are not NaN; the
    activity and the time of the update are there exactly when the position
    is. *)
Theorem stored_positions_are_numbers (st : state) (g u : string) (m : member) :
  reachable st → member_at st g u = Some m →
  position_ok m ∧
  (is_Some (m !! "sport") ↔ is_Some (m !! "lat")) ∧
  (is_Some (m !! "updatedAt") ↔ is_Some (m !! "lat")).
Proof.
  intros Hreach Hm.
  destruct (reachable_member_ok st g u m Hreach Hm)
    as [(_ & ? & ? & ? & _) | (_ & Hu & ->)]; [done |].
  by destruct (function_object_ok st u (reachable_records_ok st Hreach) Hu)
    as (_ & _ & _ & ? & ? & ? & _).
Qed.

(** X19. In every state the process reaches, a record has a name or a position
    (it was made by a join or by an update); its name and its activity,
    when there, are truthy, so the 'Anonymous' and 'unknown' defaults leave
    no empty string behind; and its socket id, when there, is a string. *)
Theorem stored_names_are_truthy (st : state) (g u : string) (m : member) :
  reachable st → member_at st g u = Some m →
  (is_Some (m !! "name") ∨ is_Some (m !! "lat")) ∧
  (∀ v, m !! "name" = Some v → truthy v = true) ∧
  (∀ v, m !! "sport" = Some v → truthy v = true) ∧
  (∀ v, m !! "socketId" = Some v → ∃ sid, v = VString sid).
Proof.
  intros Hreach Hm.
  destruct (reachable_member_ok st g u m Hreach Hm)
    as [(_ & _ & _ & _ & ? & ? & ? & ?) | (_ & Hu & ->)]; [done |].
  destruct (function_object_ok st u (reachable_records_ok st Hreach) Hu)
    as (_ & Hname & Htruthy & _ & _ & _ & ? & ?).
  split; [left; by eexists |]. split; [|done].
  intros v Hv. rewrite Hname in Hv. by injection Hv as <-.
Qed.

End Records.

(** *** The sanitized view *)

Lemma prop_sanitizeMember (m : member) (k : string) :
  k ∈ ["userId"; "name"; "lat"; "lon"; "sport"; "updatedAt"] →
  prop (sanitizeMember m) k = prop m k.
Proof.
  intros Hk. unfold prop at 1. rewrite sanitizeMember_lookup.
  by rewrite bool_decide_eq_true_2.
Qed.

Lemma sanitizeMember_idemp (m : member) :
  sanitizeMember (sanitizeMember m) = sanitizeMember m.
Proof.
  apply map_eq. intros k. rewrite !sanitizeMember_lookup.
  destruct (bool_decide _) eqn:E; [|done].
  apply bool_decide_eq_true in E. by rewrite prop_sanitizeMember.
Qed.

(** X20. The sanitized view of a group has an entry for every member but one
    named [__proto__]; every entry has the six properties of the object
    literal, a missing one being [undefined], and nothing else; sanitizing
    the view again gives the view; and a group that does not exist has the
    empty view. *)
Theorem sanitizeGroup_view (ms : members) :
  (∀ u, is_Some (sanitizeGroup (Some ms) !! u) ↔
        is_Some (ms !! u) ∧ u ≠ "__proto__") ∧
  (∀ u entry k, sanitizeGroup (Some ms) !! u = Some entry →
     (is_Some (entry !! k) ↔
      k ∈ ["userId"; "name"; "lat"; "lon"; "sport"; "updatedAt"])) ∧
  sanitizeGroup (Some (sanitizeGroup (Some ms))) = sanitizeGroup (Some ms) ∧
  sanitizeGroup None = ∅.
Proof.
  split; [|split; [|split; [|done]]].
  - intros u. rewrite sanitizeGroup_lookup.
    destruct (String.eqb u "__proto__") eqn:E.
    + apply String.eqb_eq in E. subst. split; [by intros [? ?] | by intros [_ ?]].
    + apply String.eqb_neq in E.
      destruct (ms !! u); simpl.
      * split; [intros _; split; [by eexists | done] | intros _; by eexists].
      * split; [by intros [? ?] | by intros [[? ?] _]].
  - intros u entry k Hentry. rewrite sanitizeGroup_lookup in Hentry.
    destruct (String.eqb u "__proto__"); [done |].
    destruct (ms !! u) as [m|]; [|done]. injection Hentry as <-.
    rewrite sanitizeMember_lookup.
    destruct (bool_decide _) eqn:E.
    + apply bool_decide_eq_true in E. split; [done | intros _; by eexists].
    + apply bool_decide_eq_false in E. split; [by intros [? ?] | done].
  - apply map_eq. intros u. rewrite !sanitizeGroup_lookup.
    destruct (String.eqb u "__proto__"); [done |].
    destruct (ms !! u) as [m|]; simpl; [|done].
    by rewrite sanitizeMember_idemp.
Qed.

(** *** The primitives on ASCII text *)

Lemma string_of_list_ascii_app (a b : list ascii) :
  string_of_list_ascii (a ++ b) = string_of_list_ascii a ++ string_of_list_ascii b.
Proof. induction a as [| c a IH]; simpl; [done | by rewrite IH]. Qed.

Lemma list_ascii_of_string_app (a b : string) :
  list_ascii_of_string (a ++ b) =
    (list_ascii_of_string a ++ list_ascii_of_string b)%list.
Proof. induction a as [| c a IH]; simpl; [done | by rewrite IH]. Qed.

Lemma ecma_reverse_involutive (s : string) :
  Ecma.reverse (Ecma.reverse s) = s.
Proof.
  unfold Ecma.reverse.
  by rewrite list_ascii_of_string_of_list_ascii, rev_involutive,
    string_of_list_ascii_of_string.
Qed.

Lemma ecma_reverse_app (a b : string) :
  Ecma.reverse (a ++ b) = Ecma.reverse b ++ Ecma.reverse a.
Proof.
  unfold Ecma.reverse.
  by rewrite list_ascii_of_string_app, rev_app_distr, string_of_list_ascii_app.
Qed.

Lemma string_app_assoc (a b c : string) : (a ++ b) ++ c = a ++ (b ++ c).
Proof.
  induction a as [| x a IH]; [done | exact (f_equal (String x) IH)].
Qed.

Lemma ecma_reverse_cons (c : ascii) (s : string) :
  Ecma.reverse (String c s) = Ecma.reverse s ++ String c "".
Proof. apply (ecma_reverse_app (String c "") s). Qed.

Lemma ecma_drop_spaces_tidy (s : string) : App.tidy (Ecma.drop_spaces s).
Proof.
  induction s as [| c s IH]; simpl; [done |].
  destruct (Ecma.is_space c) eqn:E; [done | by simpl].
Qed.

Lemma ecma_drop_spaces_id (s : string) :
  App.tidy s → Ecma.drop_spaces s = s.
Proof. destruct s as [| c s]; simpl; [done |]. by intros ->. Qed.

Lemma ecma_drop_spaces_snoc (s : string) (c : ascii) :
  Ecma.is_space c = false →
  Ecma.drop_spaces (s ++ String c "") = Ecma.drop_spaces s ++ String c "".
Proof.
  intros Hc. induction s as [| d s IH]; simpl; [by rewrite Hc |].
  by destruct (Ecma.is_space d).
Qed.

(** Dropping the white space at the end keeps a beginning that is not white
    space. *)
Lemma ecma_drop_end_tidy (s : string) :
  App.tidy s → App.tidy (Ecma.reverse (Ecma.drop_spaces (Ecma.reverse s))).
Proof.
  destruct s as [| c s]; [done |]. simpl. intros Hc.
  rewrite ecma_reverse_cons, ecma_drop_spaces_snoc by done.
  by rewrite ecma_reverse_app.
Qed.

Lemma ecma_trim_tidy (s : string) :
  App.tidy (Ecma.trim s) ∧ App.tidy (Ecma.reverse (Ecma.trim s)).
Proof.
  unfold Ecma.trim. split.
  - apply ecma_drop_end_tidy, ecma_drop_spaces_tidy.
  - rewrite ecma_reverse_involutive. apply ecma_drop_spaces_tidy.
Qed.

Lemma ecma_trim_id (s : string) :
  App.tidy s → App.tidy (Ecma.reverse s) → Ecma.trim s = s.
Proof.
  intros H1 H2. unfold Ecma.trim.
  by rewrite (ecma_drop_spaces_id s H1), (ecma_drop_spaces_id _ H2),
    ecma_reverse_involutive.
Qed.

Lemma ecma_trim_idemp (s : string) : Ecma.trim (Ecma.trim s) = Ecma.trim s.
Proof. apply ecma_trim_id; apply ecma_trim_tidy. Qed.

Lemma ecma_upper_space (c : ascii) :
  Ecma.is_space (Ecma.upper c) = Ecma.is_space c.
Proof. destruct c as [[] [] [] [] [] [] [] []]; reflexivity. Qed.

Lemma ecma_upper_idemp (c : ascii) : Ecma.upper (Ecma.upper c) = Ecma.upper c.
Proof. destruct c as [[] [] [] [] [] [] [] []]; reflexivity. Qed.

Lemma ecma_toUpperCase_idemp (s : string) :
  Ecma.toUpperCase (Ecma.toUpperCase s) = Ecma.toUpperCase s.
Proof.
  induction s as [| c s IH]; simpl; [done |].
  by rewrite ecma_upper_idemp, IH.
Qed.

Lemma ecma_toUpperCase_app (a b : string) :
  Ecma.toUpperCase (a ++ b) = Ecma.toUpperCase a ++ Ecma.toUpperCase b.
Proof. induction a as [| c a IH]; simpl; [done | by rewrite IH]. Qed.

Lemma ecma_toUpperCase_reverse (s : string) :
  Ecma.reverse (Ecma.toUpperCase s) = Ecma.toUpperCase (Ecma.reverse s).
Proof.
  induction s as [| c s IH]; simpl; [done |].
  by rewrite !ecma_reverse_cons, IH, ecma_toUpperCase_app.
Qed.

Lemma ecma_toUpperCase_drop_spaces (s : string) :
  Ecma.drop_spaces (Ecma.toUpperCase s) = Ecma.toUpperCase (Ecma.drop_spaces s).
Proof.
  induction s as [| c s IH]; simpl; [done |].
  rewrite ecma_upper_space. by destruct (Ecma.is_space c).
Qed.

(** Upper-casing and trimming commute. *)
Lemma ecma_trim_toUpperCase (s : string) :
  Ecma.trim (Ecma.toUpperCase s) = Ecma.toUpperCase (Ecma.trim s).
Proof.
  unfold Ecma.trim.
  by rewrite ecma_toUpperCase_drop_spaces, ecma_toUpperCase_reverse,
    ecma_toUpperCase_drop_spaces, ecma_toUpperCase_reverse.
Qed.

(** A normalized group code normalizes to itself. *)
Lemma ecma_normalize_idemp (s : string) :
  Ecma.toUpperCase (Ecma.trim (Ecma.toUpperCase (Ecma.trim s))) =
    Ecma.toUpperCase (Ecma.trim s).
Proof.
  by rewrite ecma_trim_toUpperCase, ecma_trim_idemp, ecma_toUpperCase_idemp.
Qed.

Lemma tidy_app (a b : string) : a ≠ "" → App.tidy a → App.tidy (a ++ b).
Proof. destruct a as [| c a]; [done | by simpl]. Qed.

Lemma spaceless_tidy_app (a b : string) :
  App.spaceless a = true → App.tidy b → App.tidy (a ++ b).
Proof.
  destruct a as [| c a]; [done |]. unfold App.spaceless. simpl.
  intros Hc _. apply andb_true_iff in Hc as [Hc _].
  by apply negb_true_iff in Hc.
Qed.

Lemma spaceless_reverse (s : string) :
  App.spaceless s = true → App.spaceless (Ecma.reverse s) = true.
Proof.
  unfold App.spaceless, Ecma.reverse.
  rewrite list_ascii_of_string_of_list_ascii, !forallb_forall.
  intros Hall c Hc. apply Hall. by apply in_rev.
Qed.

(** A user id made of a trimmed name, a hyphen and digits trims to itself. *)
Lemma ecma_trim_uid (n r : string) :
  n ≠ "" → App.tidy n → App.spaceless r = true →
  Ecma.trim (n ++ "-" ++ r) = n ++ "-" ++ r.
Proof.
  intros Hn Htidy Hr. apply ecma_trim_id.
  - by apply tidy_app.
  - rewrite !ecma_reverse_app, string_app_assoc.
    apply spaceless_tidy_app; [by apply spaceless_reverse |].
    reflexivity.
Qed.

Lemma hyphenated_app (a b : string) :
  App.hyphenated (a ++ "-" ++ b) = true.
Proof.
  unfold App.hyphenated. rewrite list_ascii_of_string_app, existsb_app.
  simpl. by rewrite orb_true_r.
Qed.

(** No inherited property has a hyphen in its name. *)
Lemma inherited_not_hyphenated (k : string) :
  App.hyphenated k = true → inherited k = false.
Proof.
  intros Hk. unfold inherited. apply bool_decide_eq_false. intros Hin.
  unfold Object_prototype_keys in Hin.
  rewrite !elem_of_cons, elem_of_nil in Hin.
  repeat (destruct Hin as [-> | Hin]; [discriminate Hk |]). done.
Qed.

(** *** Identifiers that come back *)

(** X21. The group code and the user id that a handler works with are what the
    normalization makes of them again: a payload that carries the
    identifiers as the server normalized them, as the broadcasts and the
    snapshot give them, reaches the same group and the same record. *)
Theorem normalized_identifiers_are_stable (gv uv : value) (g u : string) :
  normalizeGroup (rt := Ecma.builtins) gv = Some g →
  normalizeUserId (rt := Ecma.builtins) uv = Some u →
  normalizeGroup (rt := Ecma.builtins) (VString g) = Some g ∧
  normalizeUserId (rt := Ecma.builtins) (VString u) = Some u ∧
  ∀ rest,
    group_of (rt := Ecma.builtins)
      (VObject (("group", VString g) :: ("userId", VString u) :: rest)) = Some g ∧
    userId_of (rt := Ecma.builtins)
      (VObject (("group", VString g) :: ("userId", VString u) :: rest)) = Some u.
Proof.
  intros Hg Hu.
  assert (normalizeGroup (rt := Ecma.builtins) (VString g) = Some g) as Hg'.
  { unfold normalizeGroup in *. simpl.
    destruct (String.eqb g "") eqn:E; simpl.
    { apply String.eqb_eq in E. by subst g. }
    destruct (negb (truthy gv)); [injection Hg as <-; discriminate E |].
    destruct (ToString gv) as [s|]; [| discriminate].
    injection Hg as <-. simpl. by rewrite ecma_normalize_idemp. }
  assert (normalizeUserId (rt := Ecma.builtins) (VString u) = Some u) as Hu'.
  { unfold normalizeUserId in *. unfold js_or at 1. simpl.
    destruct (String.eqb u "") eqn:E; simpl.
    { apply String.eqb_eq in E. by subst u. }
    destruct (ToString (js_or uv (VString ""))) as [s|]; [| discriminate].
    injection Hu as <-. simpl. by rewrite ecma_trim_idemp. }
  split; [exact Hg' |]. split; [exact Hu' |].
  intros rest. unfold group_of, userId_of. simpl. by rewrite Hg', Hu'.
Qed.

Lemma normalized_identifiers_are_stable_witness :
  normalizeGroup (rt := Ecma.builtins) (VString " ride32 ") = Some "RIDE32" ∧
  normalizeGroup (rt := Ecma.builtins) (VString "RIDE32") = Some "RIDE32" ∧
  normalizeUserId (rt := Ecma.builtins) (VString "alice-9f2k") =
    Some "alice-9f2k".
Proof.
  split; [reflexivity |].
  destruct (normalized_identifiers_are_stable (VString " ride32 ")
              (VString " alice-9f2k ") "RIDE32" "alice-9f2k")
    as (Hg & Hu & _).
  - reflexivity.
  - reflexivity.
  - split; [exact Hg | exact Hu].
Defined.

(** *** The component against the server *)

Section Client.
Implicit Types (st : state) (a : App.app) (sid : string).

Lemma enrolled_inv a :
  App.enrolled a = true →
  App.group a ≠ "" ∧ App.userId a ≠ "" ∧
  Ecma.toUpperCase (Ecma.trim (App.group a)) = App.group a ∧
  Ecma.trim (App.userId a) = App.userId a ∧
  inherited (App.userId a) = false.
Proof.
  unfold App.enrolled. rewrite !andb_true_iff, !negb_true_iff.
  rewrite !String.eqb_neq, !String.eqb_eq. tauto.
Qed.

Lemma truthy_VString (s : string) : s ≠ "" → truthy (VString s) = true.
Proof. intros Hs. simpl. by apply String.eqb_neq in Hs as ->. Qed.

(** What the server reads in a payload whose [group] and [userId] are the
    ones of an enrolled component. *)
Lemma enrolled_readers a (rest : list (string * value)) :
  App.enrolled a = true →
  let p := VObject (("group", VString (App.group a)) ::
                    ("userId", VString (App.userId a)) :: rest) in
  group_of (rt := Ecma.builtins) p = Some (App.group a) ∧
  userId_of (rt := Ecma.builtins) p = Some (App.userId a).
Proof.
  intros (Hg & Hu & Hng & Hnu & _)%enrolled_inv p.
  apply String.eqb_neq in Hg, Hu.
  unfold group_of, userId_of, normalizeGroup, normalizeUserId, js_or. simpl.
  rewrite Hg, Hu. simpl. by rewrite Hng, Hnu.
Qed.

Lemma join_alerts a (random : string) :
  Ecma.toUpperCase (Ecma.trim (App.group a)) = "" →
  App.join (rt := Ecma.builtins) a random =
    (a, [ App.Alert "Please enter a group code" ]).
Proof. intros H. unfold App.join. simpl. by rewrite H. Qed.

Lemma join_emits a (random : string) :
  Ecma.toUpperCase (Ecma.trim (App.group a)) ≠ "" →
  ∃ n, n ≠ "" ∧ App.tidy n ∧
    (n = Ecma.trim (App.name a) ∨ Ecma.trim (App.name a) = "" ∧ n = "anon") ∧
    App.join (rt := Ecma.builtins) a random =
      ({| App.group := Ecma.toUpperCase (Ecma.trim (App.group a));
          App.name := App.name a;
          App.userId := n ++ "-" ++ random;
          App.members := App.members a;
          App.selectedFriend := App.selectedFriend a |},
       [ App.Connect;
         App.Emit "join_group"
           (VObject [("group", VString (Ecma.toUpperCase (Ecma.trim (App.group a))));
                     ("userId", VString (n ++ "-" ++ random));
                     ("name", VString n)]) ]).
Proof.
  intros Hg. unfold App.join. simpl.
  apply String.eqb_neq in Hg. rewrite Hg.
  destruct (String.eqb (Ecma.trim (App.name a)) "") eqn:E.
  - apply String.eqb_eq in E. exists "anon".
    split; [done |]. split; [reflexivity |]. split; [by right |]. done.
  - apply String.eqb_neq in E. exists (Ecma.trim (App.name a)).
    split; [done |]. split; [apply ecma_trim_tidy |]. split; [by left |]. done.
Qed.

Lemma append_nonempty (a b : string) : a ≠ "" → a ++ b ≠ "".
Proof. by destruct a. Qed.

Lemma join_enrols a (random : string) :
  App.spaceless random = true →
  Ecma.toUpperCase (Ecma.trim (App.group a)) ≠ "" →
  App.enrolled (App.join (rt := Ecma.builtins) a random).1 = true.
Proof.
  intros Hr Hg. destruct (join_emits a random Hg) as (n & Hn & Htidy & _ & ->).
  unfold App.enrolled. simpl.
  rewrite !andb_true_iff, !negb_true_iff, !String.eqb_neq, !String.eqb_eq.
  split; [split; [split; [split |] |] |].
  - done.
  - by apply append_nonempty.
  - apply ecma_normalize_idemp.
  - by apply ecma_trim_uid.
  - apply inherited_not_hyphenated, hyphenated_app.
Qed.

(** The [join_group] of a [join] with a group code, and what the server
    makes of it. *)
Lemma join_delivered st sid (received : float) a (random : string) :
  App.spaceless random = true →
  Ecma.toUpperCase (Ecma.trim (App.group a)) ≠ "" →
  let a' := (App.join (rt := Ecma.builtins) a random).1 in
  let g := App.group a' in
  let u := App.userId a' in
  ∃ p n,
    n ≠ "" ∧
    (n = Ecma.trim (App.name a) ∨ Ecma.trim (App.name a) = "" ∧ n = "anon") ∧
    App.enrolled a' = true ∧
    App.members a' = App.members a ∧
    App.deliver sid received (App.join (rt := Ecma.builtins) a random).2 =
      [ In_join_group sid p ] ∧
    let st' := join_effect st sid g u (VString n) in
    step (rt := Ecma.builtins) st (In_join_group sid p) =
      Done st'
        [ ToSocket sid (Ev_group_state (sanitizeGroup (group_view st' g)));
          ToRoom g (subscribers (rooms st') g)
            (Ev_member_joined u (VString n)) ].
Proof.
  intros Hr Hg a'.
  pose proof (join_enrols a random Hr Hg) as Hen. fold a' in Hen.
  destruct (join_emits a random Hg) as (n & Hn & Htidy & Hname & Hjoin).
  unfold a' in *. clear a'. rewrite Hjoin in *. simpl in Hen |- *.
  set (g := Ecma.toUpperCase (Ecma.trim (App.group a))) in *.
  set (u := n ++ "-" ++ random) in *.
  set (a' := {| App.group := g; App.name := App.name a; App.userId := u;
                App.members := App.members a;
                App.selectedFriend := App.selectedFriend a |}) in *.
  destruct (enrolled_inv a' Hen) as (Hg' & Hu & _ & _ & Hplain).
  destruct (enrolled_readers a' [("name", VString n)] Hen) as [Hrg Hru].
  simpl in Hg', Hu, Hplain, Hrg, Hru.
  set (p := VObject [("group", VString g); ("userId", VString u);
                     ("name", VString n)]) in *.
  assert (name_of p = VString n) as Hnm.
  { unfold name_of, js_or, p, field. simpl assoc. simpl default.
    by rewrite truthy_VString. }
  pose proof (join_group_valid st sid p g u Hrg Hru Hg' Hu) as Hv.
  rewrite (join_accepted_done st sid g u (name_of p) (or_introl Hplain)) in Hv.
  cbv zeta in Hv. rewrite Hnm in Hv.
  exists p, n. by repeat (split; [done |]).
Qed.

(** X22. [join] of the component either alerts, sends nothing and leaves the
    component as it is (no group code after trimming), or sends one
    [join_group] that the server accepts whatever its state: the reply is
    the snapshot and the notice, never an error; the record is stored under
    the very group and user id the component keeps, with the socket and the
    trimmed nickname ("anon" for an empty one); and the component is
    enrolled. *)
Theorem client_join_is_accepted st sid (received : float) a (random : string) :
  App.spaceless random = true →
  let a' := (App.join (rt := Ecma.builtins) a random).1 in
  let es := App.deliver sid received (App.join (rt := Ecma.builtins) a random).2 in
  (Ecma.toUpperCase (Ecma.trim (App.group a)) = "" ∧ a' = a ∧ es = []) ∨
  (App.enrolled a' = true ∧
   ∃ p st' m n,
     es = [ In_join_group sid p ] ∧
     step (rt := Ecma.builtins) st (In_join_group sid p) =
       Done st'
         [ ToSocket sid
             (Ev_group_state (sanitizeGroup (group_view st' (App.group a'))));
           ToRoom (App.group a') (subscribers (rooms st') (App.group a'))
             (Ev_member_joined (App.userId a') (VString n)) ] ∧
     member_at st' (App.group a') (App.userId a') = Some m ∧
     m !! "socketId" = Some (VString sid) ∧
     m !! "name" = Some (VString n) ∧
     (n = Ecma.trim (App.name a) ∨ Ecma.trim (App.name a) = "" ∧ n = "anon") ∧
     sid ∈ subscribers (rooms st') (App.group a')).
Proof.
  intros Hr a' es.
  destruct (decide (Ecma.toUpperCase (Ecma.trim (App.group a)) = "")) as [He | Hg].
  { left. subst a' es. rewrite (join_alerts a random He). by simpl. }
  right.
  destruct (join_delivered st sid received a random Hr Hg)
    as (p & n & Hn & Hname & Hen & _ & Hes & Hstep).
  fold a' in Hen, Hstep. fold es in Hes. cbv zeta in Hstep.
  split; [exact Hen |].
  eexists p, _, _, n. split; [exact Hes |]. split; [exact Hstep |].
  split; [rewrite member_at_join_effect; by rewrite decide_True |].
  split; [rewrite joined_lookup; by rewrite decide_True |].
  split; [rewrite joined_lookup; by rewrite decide_False, decide_True |].
  split; [exact Hname |].
  assert (rooms (join_effect st sid (App.group a') (App.userId a') (VString n)) =
          socket_join sid (App.group a') (rooms st)) as -> by done.
  rewrite subscribers_socket_join.
  apply elem_of_union_l, elem_of_singleton. done.
Qed.

(** X23. Once the replies to its [join_group] have arrived, the members the
    component shows are the members of its group on the server, sanitized:
    the component is among them under its user id, with its nickname, and
    no entry has a [socketId]. The notice [member_joined], which reaches the
    component too, changes nothing. *)
Theorem client_sees_itself_after_join st sid (received : float) a
    (random : string) :
  App.spaceless random = true →
  Ecma.toUpperCase (Ecma.trim (App.group a)) ≠ "" →
  let a' := (App.join (rt := Ecma.builtins) a random).1 in
  let es := App.deliver sid received (App.join (rt := Ecma.builtins) a random).2 in
  ∃ e st' out n entry,
    es = [ e ] ∧ step (rt := Ecma.builtins) st e = Done st' out ∧
    App.inbox sid out =
      [ Ev_group_state (sanitizeGroup (group_view st' (App.group a')));
        Ev_member_joined (App.userId a') (VString n) ] ∧
    App.members (App.hear a' sid out) !! App.userId a' = Some entry ∧
    n ≠ "" ∧ prop entry "name" = VString n ∧
    (∀ u', u' ≠ "__proto__" →
           (is_Some (App.members (App.hear a' sid out) !! u') ↔
            is_Some (member_at st' (App.group a') u'))) ∧
    (∀ u' entry', App.members (App.hear a' sid out) !! u' = Some entry' →
                  prop entry' "socketId" = VUndefined).
Proof.
  intros Hr Hg a' es.
  destruct (join_delivered st sid received a random Hr Hg)
    as (p & n & Hn & Hname & Hen & _ & Hes & Hstep).
  fold a' in Hen, Hstep. fold es in Hes. cbv zeta in Hstep.
  destruct (enrolled_inv a' Hen) as (_ & _ & _ & _ & Hplain).
  set (g := App.group a') in *. set (u := App.userId a') in *.
  set (m := joined sid (VString n) (existing_or_fresh st g u)).
  set (st' := join_effect st sid g u (VString n)) in *.
  assert (member_at st' g u = Some m) as Hm.
  { unfold st'. by rewrite member_at_join_effect, decide_True. }
  assert (∃ view, group_view st' g = Some view) as [view Hview].
  { unfold member_at in Hm. destruct (group_view st' g) as [view|]; [|done].
    by exists view. }
  assert (∀ u', member_at st' g u' = view !! u') as Hat.
  { intros u'. unfold member_at. by rewrite Hview. }
  assert (prop (sanitizeMember m) "name" = VString n) as Hpn.
  { rewrite prop_sanitizeMember by (rewrite !elem_of_cons; auto).
    unfold prop, m. rewrite joined_lookup.
    by rewrite decide_False, decide_True. }
  assert (sid ∈ subscribers (rooms st') g) as Hsub.
  { assert (rooms st' = socket_join sid g (rooms st)) as -> by done.
    rewrite subscribers_socket_join.
    apply elem_of_union_l, elem_of_singleton. done. }
  assert (App.inbox sid
            [ ToSocket sid (Ev_group_state (sanitizeGroup (group_view st' g)));
              ToRoom g (subscribers (rooms st') g)
                (Ev_member_joined u (VString n)) ] =
          [ Ev_group_state (sanitizeGroup (group_view st' g));
            Ev_member_joined u (VString n) ]) as Hin.
  { unfold App.inbox. cbn [flat_map]. rewrite String.eqb_refl.
    by rewrite bool_decide_eq_true_2. }
  eexists (In_join_group sid p), _, _, n, (sanitizeMember m).
  split; [exact Hes |]. split; [exact Hstep |].
  split; [exact Hin |].
  unfold App.hear. rewrite Hin.
  change (App.members (foldl App.receive a' _))
    with (sanitizeGroup (group_view st' g)).
  rewrite Hview. split.
  { rewrite sanitizeGroup_lookup.
    destruct (String.eqb u "__proto__") eqn:E.
    { apply String.eqb_eq in E. rewrite E in Hplain. discriminate Hplain. }
    by rewrite <- Hat, Hm. }
  split; [exact Hn |]. split; [exact Hpn |]. split.
  - intros u' Hu'. rewrite sanitizeGroup_lookup.
    apply String.eqb_neq in Hu'. rewrite Hu'. rewrite Hat.
    by rewrite fmap_is_Some.
  - intros u' entry' Hl. rewrite sanitizeGroup_lookup in Hl.
    destruct (String.eqb u' "__proto__"); [discriminate |].
    destruct (view !! u') as [m'|]; [| discriminate].
    injection Hl as <-. unfold prop. by rewrite sanitizeMember_no_socketId.
Qed.

(** X24. A position that the watch of an enrolled component reports is
    accepted by the server whatever its state (a server that has lost the
    record makes it again): the record under the component's group and user
    id gets the position, the sport ["ski"], the socket, and the component's
    clock as [updatedAt] (the server's when the component's reads 0); and
    the whole room is told. *)
Theorem client_report_is_stored st sid (received : float) a
    (lat lon now : float) :
  App.enrolled a = true →
  Number_isNaN lat = false → Number_isNaN lon = false →
  ∃ p st' m,
    App.deliver sid received (App.report a lat lon now) =
      [ In_location_update sid received p ] ∧
    step (rt := Ecma.builtins) st (In_location_update sid received p) =
      Done st'
        [ ToRoom (App.group a) (subscribers (rooms st) (App.group a))
            (Ev_group_locations (default ∅ (groups st' !! App.group a))) ] ∧
    rooms st' = rooms st ∧
    member_at st' (App.group a) (App.userId a) = Some m ∧
    m !! "lat" = Some (VNumber lat) ∧ m !! "lon" = Some (VNumber lon) ∧
    m !! "sport" = Some (VString "ski") ∧
    m !! "socketId" = Some (VString sid) ∧
    m !! "updatedAt" =
      Some (VNumber (if truthy (VNumber now) then now else received)).
Proof.
  intros Hen Hlat Hlon.
  destruct (enrolled_inv a Hen) as (Hg & Hu & _ & _ & Hplain).
  set (rest := [("lat", VNumber lat); ("lon", VNumber lon);
                ("timestamp", VNumber now); ("sport", VString "ski")]).
  destruct (enrolled_readers a rest Hen) as [Hrg Hru].
  set (p := VObject (("group", VString (App.group a)) ::
                     ("userId", VString (App.userId a)) :: rest)) in *.
  assert (App.report a lat lon now = [ App.Emit "location_update" p ]) as Hrep.
  { unfold App.report. apply String.eqb_neq in Hg, Hu. by rewrite Hg, Hu. }
  assert (lat_of (rt := Ecma.builtins) p = Some lat ∧
          lon_of (rt := Ecma.builtins) p = Some lon) as [Hla Hlo] by done.
  assert (sport_of p = VString "ski") as Hsp by done.
  assert (timestamp_of received p =
            VNumber (if truthy (VNumber now) then now else received)) as Hts.
  { unfold timestamp_of, supplied_timestamp, js_or, p, rest, field.
    simpl assoc. simpl default. by destruct (truthy (VNumber now)). }
  pose proof (location_update_valid st sid received p _ _ lat lon
                Hrg Hru Hg Hu Hla Hlo Hlat Hlon) as Hv.
  rewrite (location_accepted_done st sid _ _ lat lon _ _ (or_introl Hplain)) in Hv.
  cbv zeta in Hv. rewrite Hsp, Hts in Hv.
  eexists p, _, _. rewrite Hrep.
  split; [done |]. split; [exact Hv |]. split; [done |].
  split; [rewrite member_at_location_effect; by rewrite decide_True |].
  rewrite !located_lookup.
  repeat split; repeat (case_decide; [done || congruence |]); done.
Qed.


End Client.

(** *** The properties on the ride of [Scenario] *)

Lemma join_changes_one_record_witness :
  ∃ st' out m',
    join_group (rt := Ecma.builtins) Scenario.riding "sC"
        Events.carol_joins_powder = Done st' out ∧
    member_at st' "POWDER" "carol" = Some m' ∧
    m' !! "name" = Some (VString "Anonymous") ∧
    (∀ g' u', ¬ (g' = "POWDER" ∧ u' = "carol") →
              member_at st' g' u' = member_at Scenario.riding g' u').
Proof.
  destruct (join_changes_one_record (rt := Ecma.builtins) Scenario.riding "sC"
              Events.carol_joins_powder "POWDER" "carol")
    as (st' & out & m' & Hjoin & Hm & _ & Hanon & _ & Hothers & _).
  - reflexivity.
  - reflexivity.
  - discriminate.
  - discriminate.
  - reflexivity.
  - exists st', out, m'. split; [exact Hjoin |]. split; [exact Hm |].
    split; [apply Hanon; reflexivity | exact Hothers].
Defined.

Lemma location_update_changes_one_record_witness :
  ∃ st' out m',
    location_update (rt := Ecma.builtins) Scenario.riding "sA" Scenario.t2
        Events.alice_moves_on = Done st' out ∧
    member_at st' "RIDE32" "alice-9f2k" = Some m' ∧
    m' !! "lat" = Some (VNumber 45.5) ∧ m' !! "lon" = Some (VNumber (-121.5)) ∧
    m' !! "socketId" = Some (VString "sA") ∧
    rooms st' = rooms Scenario.riding.
Proof.
  destruct (location_update_changes_one_record (rt := Ecma.builtins)
              Scenario.riding "sA" Scenario.t2 Events.alice_moves_on
              "RIDE32" "alice-9f2k" 45.5%float (-121.5)%float)
    as (st' & out & m' & Hupd & Hm & Hlat & Hlon & _ & _ & Hsock & _ & _ & Hrooms).
  - reflexivity.
  - reflexivity.
  - discriminate.
  - discriminate.
  - reflexivity.
  - reflexivity.
  - reflexivity.
  - reflexivity.
  - reflexivity.
  - exists st', out, m'. repeat (split; [assumption |]). assumption.
Defined.

Lemma location_update_never_subscribes_witness :
  rooms (Events.after Scenario.riding
           (In_location_update "sD" Scenario.t2 Scenario.dave_moves)) =
    rooms Scenario.riding.
Proof.
  apply (location_update_never_subscribes (rt := Ecma.builtins)
           Scenario.riding "sD" Scenario.t2 Scenario.dave_moves
           (Events.after Scenario.riding
              (In_location_update "sD" Scenario.t2 Scenario.dave_moves))
           (Events.sent Scenario.riding
              (In_location_update "sD" Scenario.t2 Scenario.dave_moves))).
  reflexivity.
Defined.

Lemma location_update_supersedes_witness :
  location_update (rt := Ecma.builtins)
      (Events.after Scenario.riding
         (In_location_update "sA" Scenario.t1 Scenario.alice_moves))
      "sA" Scenario.t2 Events.alice_moves_on =
    location_update (rt := Ecma.builtins) Scenario.riding "sA" Scenario.t2
      Events.alice_moves_on.
Proof.
  apply (location_update_supersedes (rt := Ecma.builtins) Scenario.riding
           "sA" "sA" Scenario.t1 Scenario.t2 Scenario.alice_moves
           Events.alice_moves_on "RIDE32" "alice-9f2k"
           45.25%float (-121.75)%float 45.5%float (-121.5)%float
           (Events.after Scenario.riding
              (In_location_update "sA" Scenario.t1 Scenario.alice_moves))
           (Events.sent Scenario.riding
              (In_location_update "sA" Scenario.t1 Scenario.alice_moves)));
    try discriminate; reflexivity.
Defined.

Lemma leave_removes_member_witness :
  ∃ st',
    (leave_group (rt := Ecma.builtins) Scenario.riding "sB"
       Scenario.bob_leaves).1 = st' ∧
    member_at st' "RIDE32" "bob-3q1x" = None ∧
    is_Some (member_at st' "RIDE32" "alice-9f2k") ∧
    "sB" ∉ subscribers (rooms st') "RIDE32".
Proof.
  destruct (leave_removes_member (rt := Ecma.builtins) Scenario.riding "sB"
              Scenario.bob_leaves "RIDE32" "bob-3q1x"
              (default ∅ (groups Scenario.riding !! "RIDE32")))
    as (st' & Hleave & Hgone & _ & _ & Hothers & Hroom).
  - reflexivity.
  - reflexivity.
  - discriminate.
  - discriminate.
  - reflexivity.
  - exists (default ∅
              (default ∅ (groups Scenario.riding !! "RIDE32") !! "bob-3q1x")).
    reflexivity.
  - exists st'. split; [by rewrite Hleave |]. split; [exact Hgone |].
    split; [| exact Hroom].
    rewrite Hothers by (intros [_ [=]]).
    exists (default ∅ (member_at Scenario.riding "RIDE32" "alice-9f2k")).
    reflexivity.
Defined.

Lemma leave_unsubscribes_sender_witness :
  "sB" ∉ subscribers
           (rooms (leave_group (rt := Ecma.builtins) Scenario.riding "sB"
                     Scenario.toString_leaves).1) "RIDE32".
Proof.
  apply (leave_unsubscribes_sender (rt := Ecma.builtins) Scenario.riding "sB"
           Scenario.toString_leaves "RIDE32" "toString");
    try discriminate; reflexivity.
Defined.

Lemma join_after_leave_starts_afresh_witness :
  ∃ st' out,
    join_group (rt := Ecma.builtins)
        (leave_group (rt := Ecma.builtins) Scenario.riding "sA"
           Events.alice_leaves).1 "sA2" Scenario.alice_rejoins = Done st' out ∧
    member_at st' "RIDE32" "alice-9f2k" =
      Some {[ "userId" := VString "alice-9f2k";
              "name" := name_of Scenario.alice_rejoins;
              "socketId" := VString "sA2" ]}.
Proof.
  apply (join_after_leave_starts_afresh (rt := Ecma.builtins) Scenario.riding
           "sA" "sA2" Events.alice_leaves Scenario.alice_rejoins
           "RIDE32" "alice-9f2k"
           (default ∅ (groups Scenario.riding !! "RIDE32")));
    try discriminate; try (reflexivity).
  exists (default ∅
            (default ∅ (groups Scenario.riding !! "RIDE32") !! "alice-9f2k")).
  reflexivity.
Defined.

Lemma bad_identifiers_are_dropped_witness :
  location_update (rt := Ecma.builtins) Scenario.riding "sA" Scenario.t1
      Events.empty_user_moves = Done Scenario.riding [] ∧
  leave_group (rt := Ecma.builtins) Scenario.riding "sA"
      Events.empty_user_moves = (Scenario.riding, []).
Proof.
  apply (bad_identifiers_are_dropped (rt := Ecma.builtins) Scenario.riding
           "sA" Scenario.t1 Events.empty_user_moves).
  right. right. right. reflexivity.
Defined.

Lemma unreadable_join_is_silent_witness :
  join_group (rt := Ecma.builtins) Scenario.riding "sC" Events.opaque_user =
    Done Scenario.riding [].
Proof.
  apply (unreadable_join_is_silent (rt := Ecma.builtins) Scenario.riding "sC"
           Events.opaque_user).
  right. reflexivity.
Defined.

Lemma falsy_group_is_rejected_witness :
  group_of (rt := Ecma.builtins) Events.zero_group = Some "" ∧
  ∃ message,
    join_group (rt := Ecma.builtins) Scenario.riding "sC" Events.zero_group =
      Done Scenario.riding [ ToSocket "sC" (Ev_error message) ].
Proof.
  apply (falsy_group_is_rejected (rt := Ecma.builtins) Scenario.riding "sC"
           Events.zero_group (VNumber 0) "carol");
    reflexivity.
Defined.

Lemma disconnect_of_stranger_is_noop_witness :
  groups (disconnect Scenario.riding "sZ").1 = groups Scenario.riding ∧
  (disconnect Scenario.riding "sZ").2 = [].
Proof.
  apply (disconnect_of_stranger_is_noop Scenario.riding "sZ").
  unfold nobody_on. refine (bool_decide_unpack _ _). vm_compute. exact I.
Defined.

Lemma join_twice_witness :
  join_group (rt := Ecma.builtins)
      (Events.after Scenario.riding (In_join_group "sB" Scenario.bob_joins))
      "sB" Scenario.bob_joins =
    Done
      (Events.after Scenario.riding (In_join_group "sB" Scenario.bob_joins))
      (Events.sent Scenario.riding (In_join_group "sB" Scenario.bob_joins)).
Proof.
  apply (join_twice (rt := Ecma.builtins) Scenario.riding "sB"
           Scenario.bob_joins).
  reflexivity.
Defined.

Lemma records_carry_their_key_witness :
  (default ∅ (member_at Scenario.riding "RIDE32" "alice-9f2k") !! "userId" =
     Some (VString "alice-9f2k")) ∧
  (default ∅ (member_at Scenario.two_groups "POWDER" "toString") !! "userId" =
     None) ∧
  (default ∅ (member_at Scenario.two_groups "POWDER" "toString") !! "name" =
     Some (VString "toString")).
Proof.
  destruct (records_carry_their_key (rt := Ecma.builtins) Scenario.riding
              "RIDE32" "alice-9f2k"
              (default ∅ (member_at Scenario.riding "RIDE32" "alice-9f2k")))
    as (_ & _ & [(_ & _ & Hid) | (Hfn & _)]).
  - exact riding_reachable.
  - reflexivity.
  - destruct (records_carry_their_key (rt := Ecma.builtins)
                Scenario.two_groups "POWDER" "toString"
                (default ∅ (member_at Scenario.two_groups "POWDER" "toString")))
      as (_ & _ & [(Hinh & _) | (_ & _ & _ & Hnone & Hname)]).
    + exact two_groups_reachable.
    + reflexivity.
    + discriminate Hinh.
    + split; [exact Hid |]. split; [exact Hnone | exact Hname].
  - discriminate Hfn.
Defined.

Lemma stored_positions_are_numbers_witness :
  let m := default ∅ (member_at Scenario.riding "RIDE32" "alice-9f2k") in
  position_ok m ∧
  (is_Some (m !! "sport") ↔ is_Some (m !! "lat")) ∧
  (is_Some (m !! "updatedAt") ↔ is_Some (m !! "lat")).
Proof.
  apply (stored_positions_are_numbers (rt := Ecma.builtins) Scenario.riding
           "RIDE32" "alice-9f2k").
  - exact riding_reachable.
  - reflexivity.
Defined.

Lemma stored_names_are_truthy_witness :
  let m := default ∅ (member_at Scenario.riding "RIDE32" "bob-3q1x") in
  (is_Some (m !! "name") ∨ is_Some (m !! "lat")) ∧
  (∀ v, m !! "name" = Some v → truthy v = true) ∧
  (∀ v, m !! "sport" = Some v → truthy v = true) ∧
  (∀ v, m !! "socketId" = Some v → ∃ sid, v = VString sid).
Proof.
  apply (stored_names_are_truthy (rt := Ecma.builtins) Scenario.riding
           "RIDE32" "bob-3q1x").
  - exact riding_reachable.
  - reflexivity.
Defined.

Lemma client_join_is_accepted_witness :
  App.enrolled (App.join (rt := Ecma.builtins) App.visitor "k3x9p2").1 = true ∧
  ∃ p st' m,
    App.deliver "sC" Scenario.t2
        (App.join (rt := Ecma.builtins) App.visitor "k3x9p2").2 =
      [ In_join_group "sC" p ] ∧
    state_of (step (rt := Ecma.builtins) Scenario.riding (In_join_group "sC" p)) =
      Some st' ∧
    member_at st' "RIDE32" "Carol-k3x9p2" = Some m ∧
    m !! "socketId" = Some (VString "sC").
Proof.
  destruct (client_join_is_accepted Scenario.riding "sC" Scenario.t2
              App.visitor "k3x9p2")
    as [[Hempty _] | (Hen & p & st' & m & n & Hes & Hstep & Hm & Hsock & _)].
  - reflexivity.
  - vm_compute in Hempty. discriminate Hempty.
  - split; [exact Hen |]. exists p, st', m.
    split; [exact Hes |]. split; [by rewrite Hstep |].
    split; [exact Hm | exact Hsock].
Defined.

Lemma client_sees_itself_after_join_witness :
  ∃ out n entry,
    App.members
      (App.hear (App.join (rt := Ecma.builtins) App.visitor "k3x9p2").1
         "sC" out) !! "Carol-k3x9p2" = Some entry ∧
    n ≠ "" ∧ prop entry "name" = VString n.
Proof.
  destruct (client_sees_itself_after_join Scenario.riding "sC" Scenario.t2
              App.visitor "k3x9p2")
    as (e & st' & out & n & entry & _ & _ & _ & Hme & Hn & Hname & _).
  - reflexivity.
  - vm_compute. discriminate.
  - exists out, n, entry. split; [exact Hme |]. split; [exact Hn | exact Hname].
Defined.

Lemma client_report_is_stored_witness :
  ∃ p st' m,
    App.deliver "sC" Scenario.t2
        (App.report App.carol 46.5 7.75 1700000002000) =
      [ In_location_update "sC" Scenario.t2 p ] ∧
    state_of (step (rt := Ecma.builtins) App.with_carol
                (In_location_update "sC" Scenario.t2 p)) = Some st' ∧
    member_at st' "RIDE32" "Carol-k3x9p2" = Some m ∧
    m !! "lat" = Some (VNumber 46.5) ∧ m !! "lon" = Some (VNumber 7.75) ∧
    m !! "updatedAt" = Some (VNumber 1700000002000).
Proof.
  destruct (client_report_is_stored App.with_carol "sC" Scenario.t2 App.carol
              46.5%float 7.75%float 1700000002000%float)
    as (p & st' & m & Hes & Hstep & _ & Hm & Hlat & Hlon & _ & _ & Hat).
  - reflexivity.
  - reflexivity.
  - reflexivity.
  - exists p, st', m. split; [exact Hes |]. split; [by rewrite Hstep |].
    split; [exact Hm |]. split; [exact Hlat |]. split; [exact Hlon |exact Hat].
Defined.

